(** * KD-tree nearest-neighbour index, linear scanner, token embedder and
      database files

    A shallow embedding of [include/kdtree.h], [include/embeddings.h] and
    the binary files of [src/database.h].

    - C++ [int] values are [Z]; the narrowing conversions of the code
      (sizes to [int]) are written out with [to_int].  Between them every
      [int] the code computes stays within the range of [int].
    - [double] is an interface ([Double]); its instance is IEEE binary64
      ([binary64], Rocq's primitive floats).  The search proofs rest on a
      few laws of the arithmetic ([DoubleLaws]): its order apart from NaN,
      and the monotonicity of rounded sums, squares and square roots.
      Binary64 satisfies them ([binary64_laws]); the proof reads a number
      as an integer multiple of [2 ^ - scale] and rounding as a function
      on these integers.
    - [std::sort] is an interface ([StdSort]); proofs use only that it
      returns a permutation, sorted when the comparator is a strict weak
      ordering of the values it is given; evaluation uses insertion sort.
    - Operations whose behaviour C++ or Eigen leave undefined (indexing out
      of range, [%] by zero, [top()] of an empty queue, mismatched vector
      sizes, reading a variable that was never given a value) evaluate to
      [Undefined].
    - A file is the list of its bytes.  An [int] takes four bytes, least
      significant first; the bytes of a [double] are an interface
      ([DoubleLayout]) with the IEEE binary64 format as its instance.
      Storage is taken to be available: [reserve] and [resize] fail on a
      negative size only. *)

From Stdlib Require Import ZArith List String Ascii Bool Lia Permutation Sorted.
From Stdlib Require Import PrimFloat.
From Stdlib Require FloatOps FloatAxioms SpecFloat Uint63.
Import ListNotations.

Local Open Scope string_scope.
Local Open Scope list_scope.
Local Open Scope Z_scope.

(** ** Outcomes of running a piece of code *)

Inductive outcome (A : Type) : Type :=
| Returns (a : A)
| Undefined
| OutOfFuel.

Arguments Returns {A} a.
Arguments Undefined {A}.
Arguments OutOfFuel {A}.

Definition bind {A B : Type} (m : outcome A) (k : A -> outcome B) : outcome B :=
  match m with
  | Returns a => k a
  | Undefined => Undefined
  | OutOfFuel => OutOfFuel
  end.

Notation "x <- m ;; k" := (bind m (fun x => k))
  (at level 61, m at next level, right associativity).
Notation "' p <- m ;; k" := (bind m (fun p => k))
  (at level 61, p pattern, m at next level, right associativity).

(** ** Machine integers *)

Definition INT_MAX : Z := 2 ^ 31 - 1.

(** Conversion of an unsigned size to a 32-bit [int] (modular). *)
Definition to_int (z : Z) : Z := (z + 2 ^ 31) mod 2 ^ 32 - 2 ^ 31.

(** C++ [a % b] on [int]: truncated remainder, undefined for [b = 0]. *)
Definition int_rem (a b : Z) : outcome Z :=
  if b =? 0 then Undefined else Returns (Z.rem a b).

(** ** The [double] interface *)

Class Double : Type := {
  double : Type;
  d_zero : double;
  d_add : double -> double -> double;
  d_sub : double -> double -> double;
  d_mul : double -> double -> double;
  d_ltb : double -> double -> bool;
  d_sqrt : double -> double;
  (** [std::numeric_limits<double>::max()] *)
  d_max : double
}.

(** IEEE 754 binary64. *)
Definition binary64 : Double := {|
  double := float;
  d_zero := 0%float;
  d_add := PrimFloat.add;
  d_sub := PrimFloat.sub;
  d_mul := PrimFloat.mul;
  d_ltb := PrimFloat.ltb;
  d_sqrt := PrimFloat.sqrt;
  d_max := 0x1.fffffffffffffp+1023%float
|}.

(** A value is a number, not a NaN, when [<] orders it against some
    value: every number is below [DBL_MAX] or above zero, and a NaN is
    neither. *)
Definition d_number {D : Double} (x : double) : bool :=
  d_ltb x d_max || d_ltb d_zero x.

(** The laws of the arithmetic that the search proofs rest on.  They hold
    with rounding, overflow to infinity, signed zeros and NaN: [<] is a
    strict order, [<=] (the negation of [>]) is transitive through a
    number, a NaN compares below nothing and spreads through the
    operations, and rounding keeps sums, squares and square roots
    monotone. *)
Class DoubleLaws (D : Double) : Prop := {
  ltb_irrefl : forall x, d_ltb x x = false;
  ltb_trans : forall x y z, d_ltb x y = true -> d_ltb y z = true -> d_ltb x z = true;
  leb_trans : forall x y z,
    d_number y = true ->
    d_ltb y x = false -> d_ltb z y = false -> d_ltb z x = false;
  ltb_number : forall x y,
    d_ltb x y = true -> d_number x = true /\ d_number y = true;
  zero_below_max : d_ltb d_zero d_max = true;
  add_number : forall x y,
    d_number (d_add x y) = true -> d_number x = true /\ d_number y = true;
  sub_number : forall x y,
    d_number (d_sub x y) = true -> d_number x = true /\ d_number y = true;
  mul_number : forall x y,
    d_number (d_mul x y) = true -> d_number x = true /\ d_number y = true;
  sq_nonneg : forall x, d_ltb (d_mul x x) d_zero = false;
  add_le_l : forall x y, d_ltb y d_zero = false -> d_ltb (d_add x y) x = false;
  add_le_r : forall x y, d_ltb x d_zero = false -> d_ltb (d_add x y) y = false;
  (** the query lies below the plane, the point on or above it *)
  sq_mono_below : forall q s p,
    d_ltb (d_sub q s) d_zero = true -> d_ltb p s = false ->
    d_ltb (d_mul (d_sub q p) (d_sub q p)) (d_mul (d_sub q s) (d_sub q s)) = false;
  (** the query lies on or above the plane, the point on or below it *)
  sq_mono_above : forall q s p,
    d_ltb (d_sub q s) d_zero = false -> d_ltb s p = false ->
    d_ltb (d_mul (d_sub q p) (d_sub q p)) (d_mul (d_sub q s) (d_sub q s)) = false;
  sqrt_mono : forall x y, d_ltb y x = false -> d_ltb (d_sqrt y) (d_sqrt x) = false;
  sqrt_below_max : forall x,
    d_ltb x d_zero = false -> d_ltb x d_max = true ->
    d_ltb (d_sqrt x) d_max = true;
  (** the square root of zero compares equal to zero *)
  sqrt_zero :
    d_ltb d_zero (d_sqrt d_zero) = false /\ d_ltb (d_sqrt d_zero) d_zero = false
}.

(** ** The [std::sort] interface *)

Class StdSort : Type := {
  std_sort : forall A : Type, (A -> A -> bool) -> list A -> list A
}.

Arguments std_sort {_} {A} _ _.

Section InsertionSort.
Context {A : Type} (less : A -> A -> bool).

Fixpoint insert_sorted (x : A) (l : list A) : list A :=
  match l with
  | [] => [x]
  | y :: r => if less x y then x :: y :: r else y :: insert_sorted x r
  end.

Definition insertion_sort (l : list A) : list A :=
  fold_right insert_sorted [] l.

End InsertionSort.

Definition isort : StdSort := {| std_sort := @insertion_sort |}.

(** [less] is a strict weak ordering of the values in [l]. *)
Definition strict_weak {A : Type} (less : A -> A -> bool) (l : list A) : Prop :=
  (forall x, In x l -> less x x = false) /\
  (forall x y z, In x l -> In y l -> In z l ->
     less x y = true -> less y z = true -> less x z = true) /\
  (forall x y z, In x l -> In y l -> In z l ->
     less y x = false -> less z y = false -> less z x = false).

Class SortLaws (Srt : StdSort) : Prop := {
  sort_perm : forall A (less : A -> A -> bool) l, Permutation (std_sort less l) l;
  sort_sorted : forall A (less : A -> A -> bool) l,
    strict_weak less l ->
    StronglySorted (fun a b => less b a = false) (std_sort less l)
}.

(** ** Eigen vectors and the dataset *)

Section Model.
Context {D : Double} {Srt : StdSort}.

(** [Eigen::VectorXd]: a vector of run-time size. *)
Definition Point : Type := list double.

Definition size {A : Type} (v : list A) : Z := Z.of_nat (List.length v).

(** [p(i)]: defined for [0 <= i < p.size()] only. *)
Definition coeff (p : Point) (i : Z) : outcome double :=
  if (0 <=? i) && (i <? size p) then
    match nth_error p (Z.to_nat i) with
    | Some x => Returns x
    | None => Undefined
    end
  else Undefined.

(** The reduction behind [(q - p).squaredNorm()], coefficient by coefficient. *)
Fixpoint sum_sq_diff (q p : Point) (acc : double) : double :=
  match q, p with
  | x :: q', y :: p' =>
      sum_sq_diff q' p' (d_add acc (d_mul (d_sub x y) (d_sub x y)))
  | _, _ => acc
  end.

(** [(q - p).squaredNorm()]: the operands must have equal sizes. *)
Definition squaredNorm_diff (q p : Point) : outcome double :=
  if size q =? size p then Returns (sum_sq_diff q p d_zero) else Undefined.

(** [(q - p).norm()], the square root of the squared norm. *)
Definition norm_diff (q p : Point) : outcome double :=
  d <- squaredNorm_diff q p ;; Returns (d_sqrt d).

Record DataItem : Type := {
  text : string;
  embedding : Point
}.

(** [v[i]] on a [std::vector]: defined for [0 <= i < v.size()] only. *)
Definition vec_at (v : list DataItem) (i : Z) : outcome DataItem :=
  if (0 <=? i) && (i <? size v) then
    match nth_error v (Z.to_nat i) with
    | Some x => Returns x
    | None => Undefined
    end
  else Undefined.

(** ** KD-tree nodes *)

(** A [Node*]: null, or a node owning its two children. *)
Inductive NodePtr : Type :=
| nullptr
| Node (point : Point) (text : string) (axis : Z) (left_ right_ : NodePtr).

Record KDTree : Type := {
  root : NodePtr;
  leaf_size : Z;
  dimensions : Z;
  node_count : Z
}.

(** The comparator handed to [std::sort]. *)
Definition axis_less (axis : Z) (a b : DataItem) : bool :=
  d_ltb (nth (Z.to_nat axis) (embedding a) d_zero)
        (nth (Z.to_nat axis) (embedding b) d_zero).

Definition axis_in_range (axis : Z) (a : DataItem) : bool :=
  (0 <=? axis) && (axis <? size (embedding a)).

(** [std::sort(data.begin() + start, data.begin() + end, cmp)].  A sort of
    two or more elements compares every one of them, so it reads
    coordinate [axis] of each. *)
Definition sort_range (data : list DataItem) (start end_ axis : Z)
  : outcome (list DataItem) :=
  if (0 <=? start) && (start <=? end_) && (end_ <=? size data) then
    let slice := firstn (Z.to_nat (end_ - start)) (skipn (Z.to_nat start) data) in
    if (2 <=? size slice) && negb (forallb (axis_in_range axis) slice)
    then Undefined
    else Returns (firstn (Z.to_nat start) data
                  ++ std_sort (axis_less axis) slice
                  ++ skipn (Z.to_nat end_) data)
  else Undefined.

(** [KDTree::buildTree].  [data] is the vector passed by reference and
    [count] the member [node_count]; both are threaded through.  [fuel]
    bounds the recursion depth. *)
Fixpoint buildTree (fuel : nat) (leaf_size dimensions : Z)
    (data : list DataItem) (count : Z) (depth start end_ : Z)
  : outcome (NodePtr * (list DataItem * Z)) :=
  match fuel with
  | O => OutOfFuel
  | S fuel' =>
      if start >=? end_ then Returns (nullptr, (data, count))
      else if end_ - start <=? leaf_size then
        item <- vec_at data start ;;
        Returns (Node (embedding item) (text item) 0 nullptr nullptr,
                 (data, count + 1))
      else
        axis <- int_rem depth dimensions ;;
        data1 <- sort_range data start end_ axis ;;
        let mid := start + Z.quot (end_ - start) 2 in
        item <- vec_at data1 mid ;;
        ' (l, (data2, count2)) <-
          buildTree fuel' leaf_size dimensions data1 (count + 1)
                    (depth + 1) start mid ;;
        ' (r, (data3, count3)) <-
          buildTree fuel' leaf_size dimensions data2 count2
                    (depth + 1) (mid + 1) end_ ;;
        Returns (Node (embedding item) (text item) axis l r, (data3, count3))
  end.

(** ** Memory: the vectors the constructor can reach *)

(** Vectors of [DataItem] by address.  The constructor receives the
    address of the caller's vector ([const std::vector<DataItem>&]) and
    keeps [data_copy] at an address of its own until it returns. *)
Definition memory : Type := list (option (list DataItem)).

Definition load (m : memory) (a : nat) : outcome (list DataItem) :=
  match nth_error m a with
  | Some (Some v) => Returns v
  | _ => Undefined
  end.

Fixpoint store (m : memory) (a : nat) (v : option (list DataItem)) : memory :=
  match m, a with
  | [], _ => []
  | _ :: m', O => v :: m'
  | x :: m', S a' => x :: store m' a' v
  end.

Definition alloc (m : memory) (v : list DataItem) : nat * memory :=
  (List.length m, m ++ [Some v]).

(** [KDTree::KDTree(const std::vector<DataItem>& data, int leaf_size)] *)
Definition KDTree_ctor (m : memory) (data : nat) (leaf_size : Z)
  : outcome (KDTree * memory) :=
  v <- load m data ;;
  match v with
  | [] =>
      Returns ({| root := nullptr; leaf_size := leaf_size;
                  dimensions := 0; node_count := 0 |}, m)
  | d0 :: _ =>
      let dimensions := to_int (size (embedding d0)) in
      let '(data_copy, m1) := alloc m v in
      copy <- load m1 data_copy ;;
      let n := to_int (size copy) in
      ' (r, (copy', count)) <-
        buildTree (S (Z.to_nat n)) leaf_size dimensions copy 0 0 0 n ;;
      let m2 := store m1 data_copy (Some copy') in
      Returns ({| root := r; leaf_size := leaf_size;
                  dimensions := dimensions; node_count := count |},
               store m2 data_copy None)
  end.

(** Construction from a dataset held by the caller. *)
Definition KDTree_new (data : list DataItem) (leaf_size : Z) : outcome KDTree :=
  ' (t, _) <- KDTree_ctor [Some data] 0 leaf_size ;; Returns t.

(** ** Searches *)

(** [KDTree::nearestNeighbor]; [best] is the pair of the reference
    parameters [best_dist] and [best_text]. *)
Fixpoint nearestNeighbor (node : NodePtr) (query : Point)
    (best : double * string) : outcome (double * string) :=
  match node with
  | nullptr => Returns best
  | Node point text axis left_ right_ =>
      dist <- squaredNorm_diff query point ;;
      let best1 := if d_ltb dist (fst best) then (dist, text) else best in
      qa <- coeff query axis ;;
      pa <- coeff point axis ;;
      let diff := d_sub qa pa in
      let first := if d_ltb diff d_zero then left_ else right_ in
      let second := if d_ltb diff d_zero then right_ else left_ in
      best2 <- nearestNeighbor first query best1 ;;
      if d_ltb (d_mul diff diff) (fst best2)
      then nearestNeighbor second query best2
      else Returns best2
  end.

(** [KDTree::nearest] *)
Definition nearest (t : KDTree) (query : Point) : outcome (double * string) :=
  best <- nearestNeighbor (root t) query (d_max, "") ;;
  Returns (d_sqrt (fst best), snd best).

(** [operator<] of [std::pair<double, std::string>]. *)
Definition pair_less (a b : double * string) : bool :=
  d_ltb (fst a) (fst b)
  || (negb (d_ltb (fst b) (fst a)) && String.ltb (snd a) (snd b)).

(** [std::priority_queue<std::pair<double, std::string>>]: its content,
    largest first.  When no distance is a NaN, pairs that compare
    equivalent are equal up to the sign of a zero, so the content
    determines what [top], [pop] and [size] return, whatever the layout of
    the underlying heap.  [top] and [pop] on an empty queue are undefined. *)
Definition priority_queue : Type := list (double * string).

Fixpoint pq_push (e : double * string) (pq : priority_queue) : priority_queue :=
  match pq with
  | [] => [e]
  | x :: r => if pair_less x e then e :: x :: r else x :: pq_push e r
  end.

Definition pq_top (pq : priority_queue) : outcome (double * string) :=
  match pq with
  | [] => Undefined
  | x :: _ => Returns x
  end.

Definition pq_pop (pq : priority_queue) : outcome priority_queue :=
  match pq with
  | [] => Undefined
  | _ :: r => Returns r
  end.

(** [static_cast<int>(pq.size())] *)
Definition pq_size (pq : priority_queue) : Z := to_int (size pq).

(** [KDTree::kNearestNeighbors] *)
Fixpoint kNearestNeighbors (node : NodePtr) (query : Point)
    (pq : priority_queue) (k : Z) : outcome priority_queue :=
  match node with
  | nullptr => Returns pq
  | Node point text axis left_ right_ =>
      dist <- squaredNorm_diff query point ;;
      pq1 <-
        (if pq_size pq <? k then Returns (pq_push (dist, text) pq)
         else
           top <- pq_top pq ;;
           if d_ltb dist (fst top)
           then pq' <- pq_pop pq ;; Returns (pq_push (dist, text) pq')
           else Returns pq) ;;
      qa <- coeff query axis ;;
      pa <- coeff point axis ;;
      let diff := d_sub qa pa in
      let first := if d_ltb diff d_zero then left_ else right_ in
      let second := if d_ltb diff d_zero then right_ else left_ in
      pq2 <- kNearestNeighbors first query pq1 k ;;
      let largest_dist :=
        match pq2 with
        | [] => d_max
        | top :: _ => fst top
        end in
      if d_ltb (d_mul diff diff) largest_dist || (pq_size pq2 <? k)
      then kNearestNeighbors second query pq2 k
      else Returns pq2
  end.

(** The loop of [KDTree::kNearest] emptying the queue into [result]. *)
Fixpoint drain (pq : priority_queue) (result : list (double * string))
  : list (double * string) :=
  match pq with
  | [] => result
  | item :: pq' => drain pq' (result ++ [(d_sqrt (fst item), snd item)])
  end.

(** [KDTree::kNearest] *)
Definition kNearest (t : KDTree) (query : Point) (k : Z)
  : outcome (list (double * string)) :=
  pq <- kNearestNeighbors (root t) query [] k ;;
  Returns (rev (drain pq [])).

(** ** Linear scan *)

Record LinearSearch : Type := {
  data : list DataItem
}.

Definition LinearSearch_new (items : list DataItem) : LinearSearch :=
  {| data := items |}.

(** One iteration of the loop of [LinearSearch::nearest]. *)
Definition linear_step (query : Point) (best : double * string)
    (item : DataItem) : outcome (double * string) :=
  dist <- norm_diff query (embedding item) ;;
  if d_ltb dist (fst best) then Returns (dist, text item) else Returns best.

Fixpoint linear_loop (query : Point) (items : list DataItem)
    (best : double * string) : outcome (double * string) :=
  match items with
  | [] => Returns best
  | item :: rest =>
      best' <- linear_step query best item ;;
      linear_loop query rest best'
  end.

(** [LinearSearch::nearest] *)
Definition linear_nearest (ls : LinearSearch) (query : Point)
  : outcome (double * string) :=
  linear_loop query (data ls) (d_max, "").

End Model.

(** ** What a tree holds *)

Section Content.
Context {D : Double}.

(** The items reachable from a node, left subtree first. *)
Fixpoint items (n : NodePtr) : list DataItem :=
  match n with
  | nullptr => []
  | Node point text _ l r =>
      items l ++ {| text := text; embedding := point |} :: items r
  end.

(** Every point has [dim] coefficients and every axis indexes one of them. *)
Fixpoint well_dimensioned (dim : Z) (n : NodePtr) : bool :=
  match n with
  | nullptr => true
  | Node point _ axis l r =>
      (size point =? dim) && (0 <=? axis) && (axis <? dim)
      && well_dimensioned dim l && well_dimensioned dim r
  end.

End Content.

(** ** Sample data *)

Section Samples.
#[local] Existing Instance binary64.

Definition item (t : string) (v : list float) : DataItem :=
  {| text := t; embedding := v |}.

(** Two points on a line. *)
Definition two_points : list DataItem :=
  [item "a" [0%float]; item "b" [1%float]].

(** The same two points, later one first. *)
Definition unsorted_points : list DataItem :=
  [item "b" [1%float]; item "a" [0%float]].

(** Five points on a line, one apart. *)
Definition five_floats : list DataItem :=
  [item "a" [0%float]; item "b" [1%float]; item "c" [2%float];
   item "d" [3%float]; item "e" [4%float]].

(** The tree the constructor builds for [five_floats] with [leaf_size = 1]. *)
Definition five_floats_tree : KDTree :=
  {| root :=
       Node [2%float] "c" 0
         (Node [1%float] "b" 0 (Node [0%float] "a" 0 nullptr nullptr) nullptr)
         (Node [4%float] "e" 0 (Node [3%float] "d" 0 nullptr nullptr) nullptr);
     leaf_size := 1;
     dimensions := 1;
     node_count := 5 |}.

(** Three points in the plane; the second coordinate of ["b"] is a NaN.
    With [leaf_size = 1] the constructor sorts them once, on the first
    coordinate. *)
Definition nan_points : list DataItem :=
  [item "a" [3%float; 4%float]; item "b" [0%float; nan];
   item "c" [4%float; 0%float]].

End Samples.

(** ** DeterministicEmbedder: hashing a token into a generator seed *)

(** [size_t] arithmetic: 64 bits wide, wrapping. *)
Definition wrap_size_t (z : Z) : Z := z mod 2 ^ 64.

(** [static_cast<unsigned char>(c)] *)
Definition unsigned_char (c : ascii) : Z := Z.of_N (N_of_ascii c).

(** The loop of [DeterministicEmbedder::hashString], from character [i] on. *)
Fixpoint hashString_loop (str : string) (hash : Z) : Z :=
  match str with
  | EmptyString => hash
  | String c rest =>
      hashString_loop rest (wrap_size_t (wrap_size_t (hash * 31) + unsigned_char c))
  end.

(** [DeterministicEmbedder::hashString] *)
Definition hashString (str : string) : Z := hashString_loop str 0.

(** The member [seed]. *)
Definition seed : Z := 42.

(** The argument of the constructor of [std::mt19937] in
    [DeterministicEmbedder::getTokenEmbedding]: [seed + hashString(token)],
    computed in [size_t]. *)
Definition rng_seed (token : string) : Z :=
  wrap_size_t (seed + hashString token).

(** The bytes of a string as unsigned values. *)
Definition bytes (str : string) : list Z :=
  map unsigned_char (list_ascii_of_string str).

(** The polynomial [b0 * 31^(n-1) + b1 * 31^(n-2) + ... + b(n-1)] of a byte
    sequence, over the integers. *)
Fixpoint polynomial31 (bs : list Z) : Z :=
  match bs with
  | [] => 0
  | b :: rest => b * 31 ^ size rest + polynomial31 rest
  end.

(** The polynomial rolling hash with multiplier 31, wrapping at the word
    width. *)
Definition rolling_hash (str : string) : Z :=
  wrap_size_t (polynomial31 (bytes str)).

(** ** Invariants *)

Section Invariants.
Context {D : Double}.

(** The queue keeps its content in descending order. *)
Definition descending (pq : priority_queue) : Prop :=
  Sorted (fun x y => pair_less x y = false) pq.

(** The item a node holds. *)
Definition node_item (point : Point) (txt : string) : DataItem :=
  {| text := txt; embedding := point |}.

(** The items left of a node do not exceed it on the node's axis, the items
    right of it are not exceeded by it. *)
Fixpoint kd_ordered (n : NodePtr) : Prop :=
  match n with
  | nullptr => True
  | Node point txt axis l r =>
      Forall (fun x => axis_less axis (node_item point txt) x = false) (items l)
      /\ Forall (fun x => axis_less axis x (node_item point txt) = false) (items r)
      /\ kd_ordered l /\ kd_ordered r
  end.

(** All items of a dataset have [dim] coefficients. *)
Definition uniform (dim : Z) (items : list DataItem) : Prop :=
  Forall (fun it => size (embedding it) = dim) items.

(** The squared distance from the query to a point. *)
Definition sqd (query p : Point) : double := sum_sq_diff query p d_zero.

(** No coordinate of the items is a NaN. *)
Definition numeric (items : list DataItem) : Prop :=
  Forall (fun it => Forall (fun c => d_number c = true) (embedding it)) items.

(** The distances of the candidates are numbers. *)
Definition numbers (dist : DataItem -> double) (cands : list DataItem) : Prop :=
  forall x, In x cands -> d_number (dist x) = true.

(** The comparators of [buildTree] are strict weak orderings of every
    part of [s]. *)
Definition comparable (s : list DataItem) : Prop :=
  forall axis l, incl l s -> strict_weak (axis_less axis) l.

(** What a search that started from [best] and ended with [best'] has
    established about the candidates [cands], measured by [dist]: the
    result is at most every candidate and at most where it started, and it
    is the start or one of the candidates. *)
Definition search_post (dist : DataItem -> double) (cands : list DataItem)
    (best best' : double * string) : Prop :=
  (forall x, In x cands -> d_ltb (dist x) (fst best') = false)
  /\ d_ltb (fst best) (fst best') = false
  /\ (best' = best \/ exists x, In x cands /\ best' = (dist x, text x)).

End Invariants.

(** ** Accessors and shape of a tree *)

Section Shape.
Context {D : Double}.

(** [KDTree::getNodeCount] *)
Definition getNodeCount (t : KDTree) : Z := node_count t.

(** [LinearSearch::getSize]: the [size_t] that [data.size()] returns. *)
Definition getSize (ls : LinearSearch) : Z := size (data ls).



End Shape.

(** ** Bookkeeping for the k-nearest search *)

Section Candidates.
Context {D : Double}.

(** What the search offers to the queue for an item. *)
Definition candidate (query : Point) (x : DataItem) : double * string :=
  (sqd query (embedding x), text x).



End Candidates.

(** ** DeterministicEmbedder: the tokenizer *)

(** Character classes of the "C" locale, which the program never leaves. *)
Definition isspace (c : ascii) : bool :=
  (unsigned_char c =? 32)
  || ((9 <=? unsigned_char c) && (unsigned_char c <=? 13)).

Definition isdigit (c : ascii) : bool :=
  (48 <=? unsigned_char c) && (unsigned_char c <=? 57).

Definition isupper (c : ascii) : bool :=
  (65 <=? unsigned_char c) && (unsigned_char c <=? 90).

Definition islower (c : ascii) : bool :=
  (97 <=? unsigned_char c) && (unsigned_char c <=? 122).

(** [std::isalnum] *)
Definition isalnum (c : ascii) : bool :=
  isdigit c || isupper c || islower c.

(** [std::tolower] *)
Definition tolower (c : ascii) : ascii :=
  if isupper c then ascii_of_N (N_of_ascii c + 32) else c.

(** [std::transform] of a string onto itself. *)
Fixpoint transform (f : ascii -> ascii) (s : string) : string :=
  match s with
  | EmptyString => EmptyString
  | String c r => String (f c) (transform f r)
  end.

(** [s.erase(std::remove_if(s.begin(), s.end(), p), s.end())] *)
Fixpoint erase_remove_if (p : ascii -> bool) (s : string) : string :=
  match s with
  | EmptyString => EmptyString
  | String c r =>
      if p c then erase_remove_if p r else String c (erase_remove_if p r)
  end.

(** The whitespace [operator>>] skips before it extracts. *)
Fixpoint skip_ws (s : string) : string :=
  match s with
  | EmptyString => EmptyString
  | String c r => if isspace c then skip_ws r else s
  end.

(** The characters [operator>>] extracts, up to the next whitespace or the
    end of the stream, and what it leaves in the stream. *)
Fixpoint take_word (s : string) : string * string :=
  match s with
  | EmptyString => (EmptyString, EmptyString)
  | String c r =>
      if isspace c then (EmptyString, s)
      else let (w, rest) := take_word r in (String c w, rest)
  end.

(** [iss >> token] on the unread part of the stream: the token and the new
    unread part, or [None] when the extraction fails because only
    whitespace was left. *)
Definition extract (iss : string) : option (string * string) :=
  match skip_ws iss with
  | EmptyString => None
  | s => Some (take_word s)
  end.

(** The body of the loop of [tokenize] between extraction and
    [push_back]. *)
Definition normalize_token (token : string) : string :=
  erase_remove_if (fun c => negb (isalnum c)) (transform tolower token).

Definition push_back_unless_empty (tokens : list string) (token : string)
  : list string :=
  match token with
  | EmptyString => tokens
  | _ => tokens ++ [token]
  end.

(** The loop [while (iss >> token)] of [tokenize]. *)
Fixpoint tokenize_loop (fuel : nat) (iss : string) (tokens : list string)
  : outcome (list string) :=
  match fuel with
  | O => OutOfFuel
  | S fuel' =>
      match extract iss with
      | None => Returns tokens
      | Some (token, rest) =>
          tokenize_loop fuel' rest
            (push_back_unless_empty tokens (normalize_token token))
      end
  end.

(** [DeterministicEmbedder::tokenize] *)
Definition tokenize (text : string) : outcome (list string) :=
  tokenize_loop (S (String.length text)) text [].

(** The tokens of a text, extraction by extraction. *)
Inductive Tokens : string -> list string -> Prop :=
| Tokens_done iss :
    extract iss = None -> Tokens iss []
| Tokens_step iss token rest tokens :
    extract iss = Some (token, rest) ->
    Tokens rest tokens ->
    Tokens iss (push_back_unless_empty [] (normalize_token token) ++ tokens).

(** Whether a string holds a letter or a digit. *)
Fixpoint has_alnum (s : string) : bool :=
  match s with
  | EmptyString => false
  | String c r => isalnum c || has_alnum r
  end.

(** Whether every character of a string is a lower-case letter or a
    digit. *)
Fixpoint all_lower_or_digit (s : string) : bool :=
  match s with
  | EmptyString => true
  | String c r => (islower c || isdigit c) && all_lower_or_digit r
  end.

(** The tokens written one after the other, a space after each. *)
Fixpoint spaced (tokens : list string) : string :=
  match tokens with
  | [] => EmptyString
  | t :: r => (t ++ String " "%char (spaced r))%string
  end.

(** ** DeterministicEmbedder: vectors of tokens and texts *)

(** Division of doubles, which normalisation needs. *)
Class Division (D : Double) : Type := {
  d_div : double -> double -> double
}.

(** The standard generator behind [getTokenEmbedding]: the first [n]
    values that [dist(rng)] returns for [std::mt19937 rng(seed)] and
    [std::normal_distribution<double> dist(0.0, 1.0)]. *)
Class Sampler (D : Double) : Type := {
  normal_samples : Z -> nat -> list double
}.

(** The generator returns as many values as the loop asks for. *)
Class SamplerLaws (D : Double) (Sm : Sampler D) : Prop := {
  normal_samples_length :
    forall (s : Z) (n : nat), List.length (normal_samples s n) = n
}.

Section Embedder.
Context {D : Double} {Dv : Division D} {Sm : Sampler D}.

(** [v.squaredNorm()], accumulated like [sum_sq_diff]. *)
Definition squaredNorm (v : Point) : double :=
  fold_left (fun acc x => d_add acc (d_mul x x)) v d_zero.

(** [v /= s] *)
Definition scale_down (v : Point) (s : double) : Point :=
  map (fun x => d_div x s) v.

(** [v.normalize()]: divides by the norm unless the squared norm is not
    positive. *)
Definition normalize (v : Point) : Point :=
  let z := squaredNorm v in
  if d_ltb d_zero z then scale_down v (d_sqrt z) else v.

(** [a += b] on vectors: the sizes must agree. *)
Definition vec_add (a b : Point) : outcome Point :=
  if size a =? size b then Returns (map (fun p => d_add (fst p) (snd p)) (combine a b))
  else Undefined.

(** [Eigen::VectorXd::Zero(n)]: [n] must not be negative. *)
Definition Zero (n : Z) : outcome Point :=
  if n <? 0 then Undefined else Returns (repeat d_zero (Z.to_nat n)).

(** [DeterministicEmbedder::getTokenEmbedding] for the member
    [embedding_dim]. *)
Definition getTokenEmbedding (embedding_dim : Z) (token : string)
  : outcome Point :=
  _ <- Zero embedding_dim ;;
  Returns (normalize (normal_samples (rng_seed token) (Z.to_nat embedding_dim))).

(** The loop of [getEmbedding] over the tokens. *)
Fixpoint sum_tokens (embedding_dim : Z) (tokens : list string) (result : Point)
  : outcome Point :=
  match tokens with
  | [] => Returns result
  | token :: rest =>
      v <- getTokenEmbedding embedding_dim token ;;
      result' <- vec_add result v ;;
      sum_tokens embedding_dim rest result'
  end.

(** [DeterministicEmbedder::getEmbedding] *)
Definition getEmbedding (embedding_dim : Z) (text : string) : outcome Point :=
  tokens <- tokenize text ;;
  match tokens with
  | [] => getTokenEmbedding embedding_dim text
  | _ =>
      zero <- Zero embedding_dim ;;
      result <- sum_tokens embedding_dim tokens zero ;;
      let norm := d_sqrt (squaredNorm result) in
      if d_ltb d_zero norm then Returns (scale_down result norm)
      else Returns result
  end.

(** [DeterministicEmbedder::getDimension] *)
Definition getDimension (embedding_dim : Z) : Z := embedding_dim.

End Embedder.


(** Division on binary64, and a stand-in for the generator: the values
    [seed], [seed + 1], ... as doubles. *)
Definition binary64_division : Division binary64 := {|
  d_div := PrimFloat.div : @double binary64 -> @double binary64
                           -> @double binary64
|}.

Definition ramp_sampler : Sampler binary64 := {|
  normal_samples := fun (s : Z) (n : nat) =>
    map (fun i => PrimFloat.of_uint63 (Uint63.of_Z (s + Z.of_nat i))
                  : @double binary64)
        (seq 0 n)
|}.

(** ** The binary database files of [src/database.h] *)

(** The content of a file: its bytes, in order. *)
Definition file : Type := list ascii.

(** The [n] low bytes of [z], least significant first. *)
Fixpoint le_bytes (n : nat) (z : Z) : list ascii :=
  match n with
  | O => []
  | S n' => ascii_of_N (Z.to_N (z mod 256)) :: le_bytes n' (z / 256)
  end.

(** The number that bytes spell, least significant first. *)
Fixpoint le_value (bs : list ascii) : Z :=
  match bs with
  | [] => 0
  | b :: r => unsigned_char b + 256 * le_value r
  end.

(** The object representation of an [int], as
    [reinterpret_cast<const char*>(&i)] exposes it: [sizeof(int)] = 4
    bytes in two's complement, least significant first. *)
Definition int_bytes (i : Z) : list ascii := le_bytes 4 i.

Definition int_of_bytes (bs : list ascii) : Z := to_int (le_value bs).

(** The object representation of a [double]: [sizeof(double)] bytes. *)
Class DoubleLayout (D : Double) : Type := {
  d_bytes : double -> list ascii;
  d_of_bytes : list ascii -> double
}.

(** A [double] has eight bytes, and reading its bytes back gives the
    value. *)
Class LayoutLaws (D : Double) (L : DoubleLayout D) : Prop := {
  d_bytes_length : forall x, List.length (d_bytes x) = 8%nat;
  d_of_bytes_bytes : forall x, d_of_bytes (d_bytes x) = x
}.

(** The IEEE 754 binary64 interchange format: sign, eleven bits of biased
    exponent, fifty-two bits of fraction. *)
Definition bits_of_spec (f : SpecFloat.spec_float) : Z :=
  match f with
  | SpecFloat.S754_zero s => if s then 2 ^ 63 else 0
  | SpecFloat.S754_infinity s => (if s then 2 ^ 63 else 0) + 2047 * 2 ^ 52
  | SpecFloat.S754_nan => 2047 * 2 ^ 52 + 2 ^ 51
  | SpecFloat.S754_finite s m e =>
      (if s then 2 ^ 63 else 0)
      + (if Z.pos m <? 2 ^ 52 then Z.pos m
         else (e + 1075) * 2 ^ 52 + (Z.pos m - 2 ^ 52))
  end.

Definition spec_of_bits (b : Z) : SpecFloat.spec_float :=
  let s := 2 ^ 63 <=? b in
  let e := (b / 2 ^ 52) mod 2048 in
  let m := b mod 2 ^ 52 in
  if e =? 0 then
    match m with
    | Z.pos p => SpecFloat.S754_finite s p (-1074)
    | _ => SpecFloat.S754_zero s
    end
  else if e =? 2047 then
    if m =? 0 then SpecFloat.S754_infinity s else SpecFloat.S754_nan
  else
    match m + 2 ^ 52 with
    | Z.pos p => SpecFloat.S754_finite s p (e - 1075)
    | _ => SpecFloat.S754_nan
    end.

Definition binary64_layout : DoubleLayout binary64 := {|
  d_bytes := fun x : @double binary64 =>
    le_bytes 8 (bits_of_spec (FloatOps.Prim2SF x));
  d_of_bytes := fun bs => FloatOps.SF2Prim (spec_of_bits (le_value bs))
|}.

(** A [std::ifstream] in binary mode: the bytes not yet read, and whether
    a read has failed ([failbit]). *)
Record ifstream : Type := {
  unread : file;
  failed : bool
}.

(** [infile.read(s, n)] for [0 <= n]: nothing is read once the stream has
    failed; otherwise the next [n] bytes are, or those that are left, and
    the stream fails when they are fewer than [n]. *)
Definition stream_read (infile : ifstream) (n : Z) : list ascii * ifstream :=
  if failed infile then ([], infile)
  else
    let got := firstn (Z.to_nat n) (unread infile) in
    (got, {| unread := skipn (Z.to_nat n) (unread infile);
             failed := size got <? n |}).

(** [int x; infile.read(reinterpret_cast<char*>(&x), sizeof(x));]: after a
    failed read [x] holds no value ([None]). *)
Definition read_int (infile : ifstream) : option Z * ifstream :=
  let '(bs, infile') := stream_read infile 4 in
  ((if failed infile' then None else Some (int_of_bytes bs)), infile').

(** Reading a variable: undefined when it holds no value. *)
Definition value_of {A : Type} (x : option A) : outcome A :=
  match x with
  | Some a => Returns a
  | None => Undefined
  end.

(** [s.resize(n); infile.read(&s[0], n);] for [0 <= n]: the characters
    that could not be read stay zero. *)
Definition read_text (infile : ifstream) (n : Z) : string * ifstream :=
  let '(got, infile') := stream_read infile n in
  (string_of_list_ascii
     (got ++ repeat Ascii.zero (Z.to_nat n - List.length got)), infile').

Section Database.
Context {D : Double} {L : DoubleLayout D}.

(** The loop of [loadDatabase] over the coordinates of one embedding:
    [n] more coordinates to read. *)
Fixpoint read_doubles (n : nat) (infile : ifstream)
  : outcome (Point * ifstream) :=
  match n with
  | O => Returns ([], infile)
  | S n' =>
      let '(bs, infile1) := stream_read infile 8 in
      value <- value_of (if failed infile1 then None
                         else Some (d_of_bytes bs)) ;;
      ' (values, infile2) <- read_doubles n' infile1 ;;
      Returns (value :: values, infile2)
  end.

(** The loop of [loadDatabase] over the items: [n] more items to read.
    [resize] with a negative length throws, which ends the function with
    the items read so far; storage is taken to be available. *)
Fixpoint load_items (n : nat) (embedding_dim : option Z) (infile : ifstream)
  (database : list DataItem) : outcome (list DataItem) :=
  match n with
  | O => Returns database
  | S n' =>
      let '(text_length, infile1) := read_int infile in
      text_length <- value_of text_length ;;
      if text_length <? 0 then Returns database
      else
        let '(item_text, infile2) := read_text infile1 text_length in
        dim <- value_of embedding_dim ;;
        if dim <? 0 then Undefined
        else
          ' (item_embedding, infile3) <- read_doubles (Z.to_nat dim) infile2 ;;
          load_items n' embedding_dim infile3
            (database ++ [{| text := item_text;
                             embedding := item_embedding |}])
  end.

(** [loadDatabase]: [None] is a file that cannot be opened.  [reserve]
    with a negative size throws, which ends the function with no item. *)
Definition loadDatabase (opened : option file) : outcome (list DataItem) :=
  match opened with
  | None => Returns []
  | Some content =>
      let infile := {| unread := content; failed := false |} in
      let '(processed_lines, infile1) := read_int infile in
      let '(db_size, infile2) := read_int infile1 in
      let '(embedding_dim, infile3) := read_int infile2 in
      db_size <- value_of db_size ;;
      if db_size <? 0 then Returns []
      else load_items (Z.to_nat db_size) embedding_dim infile3 []
  end.

(** The loop of [saveDatabase] over the coordinates of one embedding:
    [n] more coordinates to write, from index [j] on. *)
Fixpoint write_doubles (p : Point) (n : nat) (j : Z) (outfile : file)
  : outcome file :=
  match n with
  | O => Returns outfile
  | S n' =>
      value <- coeff p j ;;
      write_doubles p n' (j + 1) (outfile ++ d_bytes value)
  end.

(** The loop of [saveDatabase] over the items: [n] more items to write,
    from index [i] on.  [write] is given a count that is not negative. *)
Fixpoint save_items (database : list DataItem) (embedding_dim : Z)
  (n : nat) (i : Z) (outfile : file) : outcome file :=
  match n with
  | O => Returns outfile
  | S n' =>
      item <- vec_at database i ;;
      let text_length := to_int (Z.of_nat (String.length (text item))) in
      if text_length <? 0 then Undefined
      else
        let outfile1 := outfile ++ int_bytes text_length in
        let outfile2 :=
          outfile1
          ++ firstn (Z.to_nat text_length) (list_ascii_of_string (text item)) in
        outfile3 <- write_doubles (embedding item) (Z.to_nat embedding_dim) 0
                      outfile2 ;;
        save_items database embedding_dim n' (i + 1) outfile3
  end.

(** [saveDatabase]: its result, and the bytes it writes to the file.
    [is_open] is whether the file could be opened for writing. *)
Definition saveDatabase (database : list DataItem) (is_open : bool)
  (processed_lines : Z) : outcome (bool * file) :=
  if negb is_open then Returns (false, [])
  else
    let outfile := int_bytes processed_lines in
    let db_size := to_int (size database) in
    let outfile1 := outfile ++ int_bytes db_size in
    let embedding_dim :=
      match database with
      | [] => 0
      | first :: _ => to_int (size (embedding first))
      end in
    let outfile2 := outfile1 ++ int_bytes embedding_dim in
    outfile3 <- save_items database embedding_dim (Z.to_nat db_size) 0
                  outfile2 ;;
    Returns (true, outfile3).

End Database.

(** What a dataset looks like in a file of dimension [dim]. *)
Section Layout.
Context {D : Double} {L : DoubleLayout D}.

Definition item_bytes (dim : Z) (it : DataItem) : file :=
  int_bytes (Z.of_nat (String.length (text it)))
  ++ list_ascii_of_string (text it)
  ++ flat_map d_bytes (firstn (Z.to_nat dim) (embedding it)).

Definition database_bytes (processed_lines dim : Z) (db : list DataItem)
  : file :=
  int_bytes processed_lines ++ int_bytes (size db) ++ int_bytes dim
  ++ flat_map (item_bytes dim) db.

(** An item as it comes back from a file of dimension [dim]. *)
Definition cut (dim : Z) (it : DataItem) : DataItem :=
  {| text := text it; embedding := firstn (Z.to_nat dim) (embedding it) |}.

(** The dimension a file is written with: that of the first item. *)
Definition file_dimension (db : list DataItem) : Z :=
  match db with
  | [] => 0
  | first :: _ => size (embedding first)
  end.

(** An item that [saveDatabase] can write at dimension [dim]: the length
    of its text is an [int], and its embedding has [dim] coordinates or
    more. *)
Definition storable (dim : Z) (it : DataItem) : Prop :=
  Z.of_nat (String.length (text it)) <= INT_MAX
  /\ dim <= size (embedding it).

(** The number of characters of all texts together. *)
Fixpoint text_bytes (db : list DataItem) : Z :=
  match db with
  | [] => 0
  | it :: rest => Z.of_nat (String.length (text it)) + text_bytes rest
  end.

End Layout.

(** ** Sample datasets for files *)

Section SamplesOnFile.
#[local] Existing Instance binary64.

(** Two items of two coordinates. *)
Definition two_titles : list DataItem :=
  [item "Ada" [1.5%float; (-2)%float];
   item "Grace Hopper" [0.25%float; 3%float]].

(** The second item has one coordinate more than the first. *)
Definition ragged_titles : list DataItem :=
  [item "Ada" [1.5%float; (-2)%float];
   item "Grace Hopper" [0.25%float; 3%float; 7%float]].

(** The second item has one coordinate less than the first. *)
Definition short_titles : list DataItem :=
  [item "Ada" [1.5%float; (-2)%float];
   item "Grace Hopper" [0.25%float]].

End SamplesOnFile.

(** ** IEEE binary64 as integer arithmetic *)

(** A binary64 number is an integer multiple of [2 ^ - 1074], so the
    numbers, their sums and differences and the products of two of them
    are integers in units of [2 ^ - scale], with [scale = 2 * 1074].  The
    definitions below read a number as that integer and describe rounding
    to nearest, ties to even, as a function on such integers; that
    function is monotone, which is where the laws of the arithmetic come
    from. *)

(** Round to nearest, ties to even, of [v / 2 ^ g]. *)
Definition rne_div (v g : Z) : Z :=
  let q := v / 2 ^ g in
  let r := v mod 2 ^ g in
  if 2 * r <? 2 ^ g then q
  else if 2 * r =? 2 ^ g then (if Z.even q then q else q + 1)
  else q + 1.

(** The exponent of the last place of a scaled value: 53 digits are
    kept, and nothing below [2 ^ - 1074], which is [2 ^ 1074] in units of
    [2 ^ - scale]. *)
Definition ulp_exp (v : Z) : Z := Z.max (Z.log2 v + 1 - 53) 1074.

(** Rounding of a scaled value to the format. *)
Definition rnd (v : Z) : Z := rne_div v (ulp_exp v) * 2 ^ ulp_exp v.

(** The unit of scaled values is [2 ^ - scale]. *)
Definition scale : Z := 2148.

(** The first scaled value beyond the finite numbers, [2 ^ 1024]. *)
Definition huge : Z := 2 ^ (1024 + scale).

(** The value of a number in units of [2 ^ - scale]; the infinities are
    [huge] apart from zero. *)
Definition sv (f : SpecFloat.spec_float) : Z :=
  match f with
  | SpecFloat.S754_zero _ => 0
  | SpecFloat.S754_infinity s => if s then - huge else huge
  | SpecFloat.S754_nan => 0
  | SpecFloat.S754_finite s m e =>
      if s then - (Z.pos m * 2 ^ (e + scale)) else Z.pos m * 2 ^ (e + scale)
  end.

(** NaN, on the form of a number that the specification of the primitive
    floats uses. *)
Definition is_nan_spec (f : SpecFloat.spec_float) : bool :=
  match f with SpecFloat.S754_nan => true | _ => false end.

(** The mantissa and exponent are those of a binary64 number. *)
Definition valid (f : SpecFloat.spec_float) : Prop :=
  SpecFloat.valid_binary FloatOps.prec FloatOps.emax f = true.

(** A magnitude with its sign bit. *)
Definition signed (s : bool) (v : Z) : Z := if s then - v else v.

(** Rounding of a scaled value, with overflow to infinity. *)
Definition clip (v : Z) : Z := Z.min (rnd v) huge.

(** The exponent of the last place of a value of [x] digits. *)
Definition fexp53 (x : Z) : Z := Z.max (x - 53) (-1074).

(** The last steps of [binary_round_aux]: normalisation after a carry and
    the test for overflow. *)
Definition finish (s : bool) (m1 e1 : Z) : SpecFloat.spec_float :=
  let '(mrs, e2) :=
    SpecFloat.shr_fexp FloatOps.prec FloatOps.emax m1 e1 SpecFloat.loc_Exact in
  match SpecFloat.shr_m mrs with
  | Z0 => SpecFloat.S754_zero s
  | Zpos m =>
      if e2 <=? FloatOps.emax - FloatOps.prec
      then SpecFloat.S754_finite s m e2
      else SpecFloat.S754_infinity s
  | Zneg _ => SpecFloat.S754_nan
  end.

(** Rounding extended to negative values. *)
Definition sclip (x : Z) : Z := if x <? 0 then - clip (- x) else clip x.

(** Zero or a finite number. *)
Definition finite_spec (f : SpecFloat.spec_float) : bool :=
  match f with
  | SpecFloat.S754_zero _ | SpecFloat.S754_finite _ _ _ => true
  | _ => false
  end.

(** A location other than the exact one: something was cut off. *)
Definition inexact (l : SpecFloat.location) : bool :=
  match l with SpecFloat.loc_Exact => false | _ => true end.

(** Round to nearest even of [(M + f) / 2 ^ n], where [f] is zero unless
    [i] holds, and then lies strictly between 0 and 1. *)
Definition rne_loc (M : Z) (i : bool) (n : Z) : Z :=
  let q := M / 2 ^ n in
  let r := M mod 2 ^ n in
  if 2 * r <? 2 ^ n then q
  else if (2 * r =? 2 ^ n) && negb i then (if Z.even q then q else q + 1)
  else q + 1.

(** Which of [k] and [k + 1] is nearer to a value whose square is [W],
    when the square of the point half way is [hh]. *)
Definition pick (W hh k : Z) : Z :=
  if W <? hh then k
  else if W =? hh then (if Z.even k then k else k + 1)
  else k + 1.

(** The rounding of the square root of [W] to the format. *)
Definition sqrt_rnd (W : Z) : Z :=
  let s0 := Z.sqrt W in
  let g := ulp_exp s0 in
  let k := s0 / 2 ^ g in
  let h := (2 * k + 1) * 2 ^ (g - 1) in
  pick W (h * h) k * 2 ^ g.

(** The scaled value of the square root of a number of scaled value [v]. *)
Definition sqrt_sv (v : Z) : Z :=
  if v =? huge then huge else Z.min (sqrt_rnd (v * 2 ^ scale)) huge.

(** * IEEE binary64: rounding as a function on integers *)

Lemma rne_div_bounds :
  forall v g, 0 <= g -> v / 2 ^ g <= rne_div v g <= v / 2 ^ g + 1.
Proof.
  intros v g Hg. unfold rne_div. cbv zeta.
  destruct (_ <? _); [lia|].
  destruct (_ =? _); [destruct (Z.even _); lia|lia].
Qed.

Lemma rne_div_mono :
  forall v1 v2 g, 0 <= g -> v1 <= v2 -> rne_div v1 g <= rne_div v2 g.
Proof.
  intros v1 v2 g Hg Hv.
  assert (Hp : 0 < 2 ^ g) by (apply Z.pow_pos_nonneg; lia).
  pose proof (Z.div_le_mono v1 v2 (2 ^ g) Hp Hv) as Hq.
  destruct (Z.eq_dec (v1 / 2 ^ g) (v2 / 2 ^ g)) as [E|N].
  - assert (Hr : v1 mod 2 ^ g <= v2 mod 2 ^ g).
    { pose proof (Z.div_mod v1 (2 ^ g) ltac:(lia)).
      pose proof (Z.div_mod v2 (2 ^ g) ltac:(lia)).
      rewrite E in *. nia. }
    unfold rne_div. cbv zeta. rewrite E.
    destruct (Z.ltb_spec (2 * (v1 mod 2 ^ g)) (2 ^ g));
      destruct (Z.ltb_spec (2 * (v2 mod 2 ^ g)) (2 ^ g)); try lia;
      destruct (Z.eqb_spec (2 * (v1 mod 2 ^ g)) (2 ^ g));
      destruct (Z.eqb_spec (2 * (v2 mod 2 ^ g)) (2 ^ g)); try lia;
      destruct (Z.even (v2 / 2 ^ g)); lia.
  - pose proof (rne_div_bounds v1 g Hg). pose proof (rne_div_bounds v2 g Hg).
    lia.
Qed.

Lemma rne_div_exact :
  forall m g, 0 <= g -> rne_div (m * 2 ^ g) g = m.
Proof.
  intros m g Hg.
  assert (Hp : 0 < 2 ^ g) by (apply Z.pow_pos_nonneg; lia).
  unfold rne_div. cbv zeta.
  rewrite Z.div_mul, Z.mod_mul by lia.
  destruct (Z.ltb_spec (2 * 0) (2 ^ g)); [reflexivity|lia].
Qed.

Lemma ulp_exp_mono :
  forall v1 v2, 0 <= v1 <= v2 -> ulp_exp v1 <= ulp_exp v2.
Proof.
  intros v1 v2 H. unfold ulp_exp.
  pose proof (Z.log2_le_mono v1 v2 ltac:(lia)). lia.
Qed.

Lemma ulp_exp_pos : forall v, 1074 <= ulp_exp v.
Proof. intros v. unfold ulp_exp. lia. Qed.

(** A scaled value has at most 53 digits above its last place. *)
Lemma below_ulp :
  forall v, 0 <= v -> v < 2 ^ (ulp_exp v + 53).
Proof.
  intros v Hv. destruct (Z.eq_dec v 0) as [->|N].
  - apply Z.pow_pos_nonneg; [lia|]. pose proof (ulp_exp_pos 0). lia.
  - pose proof (Z.log2_spec v ltac:(lia)) as [_ Hhi].
    eapply Z.lt_le_trans; [exact Hhi|].
    apply Z.pow_le_mono_r; [lia|]. unfold ulp_exp. lia.
Qed.

Lemma rnd_mono :
  forall v1 v2, 0 <= v1 <= v2 -> rnd v1 <= rnd v2.
Proof.
  intros v1 v2 [H1 H2]. unfold rnd.
  pose proof (ulp_exp_mono v1 v2 ltac:(lia)) as Hg.
  pose proof (ulp_exp_pos v1) as Hg1.
  set (g1 := ulp_exp v1) in *. set (g2 := ulp_exp v2) in *.
  assert (Hp1 : 0 < 2 ^ g1) by (apply Z.pow_pos_nonneg; lia).
  assert (Hp2 : 0 < 2 ^ g2) by (apply Z.pow_pos_nonneg; lia).
  destruct (Z.eq_dec g1 g2) as [E|N].
  - rewrite <- E. apply Z.mul_le_mono_nonneg_r; [lia|].
    apply rne_div_mono; lia.
  - (* the larger value lies in a higher binade *)
    assert (Hlt : g1 < g2) by lia.
    assert (Hg2 : g2 = Z.log2 v2 + 1 - 53) by (unfold g2, ulp_exp in *; lia).
    assert (Hv2 : 0 < v2).
    { destruct (Z.eq_dec v2 0) as [->|]; [|lia].
      unfold g2, ulp_exp in *. cbn in *. lia. }
    pose proof (Z.log2_spec v2 Hv2) as [Hlo _].
    (* v2 / 2^g2 >= 2^52 *)
    assert (Hq2 : 2 ^ 52 <= v2 / 2 ^ g2).
    { apply Z.div_le_lower_bound; [lia|].
      rewrite <- Z.pow_add_r by lia.
      replace (g2 + 52) with (Z.log2 v2) by lia. exact Hlo. }
    pose proof (rne_div_bounds v2 g2 ltac:(lia)) as [Hb2 _].
    (* v1 / 2^g1 < 2^53 *)
    pose proof (below_ulp v1 H1) as Hv1. fold g1 in Hv1.
    assert (Hq1 : v1 / 2 ^ g1 < 2 ^ 53).
    { apply Z.div_lt_upper_bound; [lia|].
      rewrite <- Z.pow_add_r by lia. exact Hv1. }
    pose proof (rne_div_bounds v1 g1 ltac:(lia)) as [_ Hb1].
    assert (Hr1 : rne_div v1 g1 <= 2 ^ 53) by lia.
    replace g2 with (g1 + (g2 - g1)) by lia.
    rewrite Z.pow_add_r by lia.
    assert (Hd : 2 <= 2 ^ (g2 - g1)).
    { change 2 with (2 ^ 1) at 1. apply Z.pow_le_mono_r; lia. }
    assert (Hr2 : 2 ^ 52 <= rne_div v2 (g1 + (g2 - g1))).
    { replace (g1 + (g2 - g1)) with g2 by lia. lia. }
    set (r1 := rne_div v1 g1) in *.
    set (r2 := rne_div v2 (g1 + (g2 - g1))) in *.
    set (d := 2 ^ (g2 - g1)) in *. set (p := 2 ^ g1) in *.
    change (2 ^ 53) with (2 * 2 ^ 52) in Hr1.
    set (h := 2 ^ 52) in *.
    assert (Hh : 0 < h) by (unfold h; lia).
    assert (S1 : r1 * p <= (2 * h) * p)
      by (apply Z.mul_le_mono_nonneg_r; lia).
    assert (S2 : 2 * h <= r2 * d) by nia.
    assert (S3 : (2 * h) * p <= (r2 * d) * p)
      by (apply Z.mul_le_mono_nonneg_r; lia).
    lia.
Qed.

(** ** Scaled values of binary64 numbers *)

Lemma digits2_pos_log2 :
  forall m, Z.pos (SpecFloat.digits2_pos m) = Z.log2 (Z.pos m) + 1.
Proof.
  induction m as [m IH|m IH|]; cbn [SpecFloat.digits2_pos].
  - rewrite Pos2Z.inj_succ, IH.
    change (Z.pos m~1) with (2 * Z.pos m + 1).
    rewrite Z.log2_succ_double by lia. lia.
  - rewrite Pos2Z.inj_succ, IH.
    change (Z.pos m~0) with (2 * Z.pos m).
    rewrite Z.log2_double by lia. lia.
  - reflexivity.
Qed.

Lemma valid_finite :
  forall s m e,
    valid (SpecFloat.S754_finite s m e) ->
    e = Z.max (Z.log2 (Z.pos m) + 1 + e - 53) (-1074) /\ e <= 971.
Proof.
  intros s m e H. unfold valid in H. cbn [SpecFloat.valid_binary] in H.
  unfold SpecFloat.bounded, SpecFloat.canonical_mantissa, SpecFloat.fexp,
    SpecFloat.emin, FloatOps.prec, FloatOps.emax in H.
  apply andb_true_iff in H. destruct H as [Hc He].
  apply Z.eqb_eq in Hc. apply Z.leb_le in He.
  rewrite digits2_pos_log2 in Hc. lia.
Qed.

Lemma valid_finite_range :
  forall s m e,
    valid (SpecFloat.S754_finite s m e) ->
    -1074 <= e <= 971 /\ Z.pos m < 2 ^ 53
    /\ (-1074 < e -> 2 ^ 52 <= Z.pos m).
Proof.
  intros s m e H. apply valid_finite in H. destruct H as [Hc He].
  pose proof (Z.log2_spec (Z.pos m) ltac:(lia)) as [Hlo Hhi].
  pose proof (Z.log2_nonneg (Z.pos m)) as Hl0.
  assert (Hl : Z.log2 (Z.pos m) <= 52) by lia.
  split; [lia|]. split.
  - eapply Z.lt_le_trans; [exact Hhi|].
    apply Z.pow_le_mono_r; lia.
  - intros Hn. assert (Z.log2 (Z.pos m) = 52) by lia.
    replace 52 with (Z.log2 (Z.pos m)) by lia. exact Hlo.
Qed.

Lemma pow_scale_pos : forall e, -1074 <= e -> 0 < 2 ^ (e + scale).
Proof. intros e H. apply Z.pow_pos_nonneg; unfold scale; lia. Qed.

(** Order of two valid positive numbers, by exponent first. *)
Lemma finite_order_exp :
  forall s1 m1 e1 s2 m2 e2,
    valid (SpecFloat.S754_finite s1 m1 e1) ->
    valid (SpecFloat.S754_finite s2 m2 e2) ->
    e1 < e2 ->
    Z.pos m1 * 2 ^ (e1 + scale) < Z.pos m2 * 2 ^ (e2 + scale).
Proof.
  intros s1 m1 e1 s2 m2 e2 H1 H2 He.
  apply valid_finite_range in H1. apply valid_finite_range in H2.
  destruct H1 as (He1 & Hm1 & _). destruct H2 as (He2 & _ & Hm2).
  specialize (Hm2 ltac:(lia)).
  replace (e2 + scale) with ((e1 + scale) + (e2 - e1)) by lia.
  rewrite (Z.pow_add_r 2 (e1 + scale) (e2 - e1)) by (unfold scale; lia).
  pose proof (pow_scale_pos e1 ltac:(lia)) as Hp.
  set (p := 2 ^ (e1 + scale)) in *.
  assert (Hd : 2 <= 2 ^ (e2 - e1)).
  { change 2 with (2 ^ 1) at 1. apply Z.pow_le_mono_r; lia. }
  set (d := 2 ^ (e2 - e1)) in *.
  change (2 ^ 53) with (2 * 2 ^ 52) in Hm1.
  set (h := 2 ^ 52) in *.
  assert (Hh : 0 < h) by (unfold h; lia).
  assert (S1 : Z.pos m1 * p < (2 * h) * p)
    by (apply Z.mul_lt_mono_pos_r; lia).
  assert (S2 : 2 * h <= Z.pos m2 * d) by nia.
  assert (S3 : (2 * h) * p <= (Z.pos m2 * d) * p)
    by (apply Z.mul_le_mono_nonneg_r; lia).
  lia.
Qed.

Lemma finite_positive :
  forall s m e,
    valid (SpecFloat.S754_finite s m e) ->
    0 < Z.pos m * 2 ^ (e + scale) < huge.
Proof.
  intros s m e H. apply valid_finite_range in H.
  destruct H as (He & Hm & _).
  pose proof (pow_scale_pos e ltac:(lia)) as Hp.
  split; [apply Z.mul_pos_pos; lia|].
  unfold huge.
  replace (1024 + scale) with (53 + (971 + scale)) by lia.
  rewrite (Z.pow_add_r 2 53 (971 + scale)) by (unfold scale; lia).
  assert (Hq : 2 ^ (e + scale) <= 2 ^ (971 + scale))
    by (apply Z.pow_le_mono_r; unfold scale; lia).
  set (p := 2 ^ (e + scale)) in *. set (q := 2 ^ (971 + scale)) in *.
  set (h := 2 ^ 53) in *.
  assert (S1 : Z.pos m * p < h * p) by (apply Z.mul_lt_mono_pos_r; lia).
  assert (S2 : h * p <= h * q) by (apply Z.mul_le_mono_nonneg_l; lia).
  lia.
Qed.

Lemma compare_cont_Eq :
  forall m1 m2, Pos.compare_cont Eq m1 m2 = (Z.pos m1 ?= Z.pos m2).
Proof. reflexivity. Qed.

Ltac by_compare :=
  f_equal; symmetry;
  first [ apply Z.compare_eq_iff; lia
        | apply Z.compare_lt_iff; lia
        | apply Z.compare_gt_iff; lia ].

Lemma SFcompare_sv :
  forall a b,
    valid a -> valid b -> is_nan_spec a = false -> is_nan_spec b = false ->
    SpecFloat.SFcompare a b = Some (sv a ?= sv b).
Proof.
  assert (Hh : 0 < huge) by (apply Z.pow_pos_nonneg; unfold scale; lia).
  intros [sa|sa| |sa ma ea] [sb|sb| |sb mb eb] Va Vb Na Nb;
    try discriminate;
    try (pose proof (finite_positive _ _ _ Va) as Pa);
    try (pose proof (finite_positive _ _ _ Vb) as Pb);
    repeat match goal with s : bool |- _ => destruct s end;
    cbn [SpecFloat.SFcompare sv];
    try by_compare.
  - (* both negative *)
    f_equal. destruct (Z.compare_spec ea eb) as [E|Lt|Gt].
    + subst eb. rewrite compare_cont_Eq.
      pose proof (pow_scale_pos ea ltac:(apply valid_finite_range in Va; lia))
        as Hp.
      destruct (Z.compare_spec (Z.pos ma) (Z.pos mb)) as [E|Lt|Gt];
        cbn [CompOpp]; symmetry.
      * apply Z.compare_eq_iff. rewrite E. reflexivity.
      * apply Z.compare_gt_iff. nia.
      * apply Z.compare_lt_iff. nia.
    + pose proof (finite_order_exp _ _ _ _ _ _ Va Vb Lt).
      symmetry. apply Z.compare_gt_iff. lia.
    + pose proof (finite_order_exp _ _ _ _ _ _ Vb Va ltac:(lia)).
      symmetry. apply Z.compare_lt_iff. lia.
  - f_equal. destruct (Z.compare_spec ea eb) as [E|Lt|Gt].
    + subst eb. rewrite compare_cont_Eq.
      pose proof (pow_scale_pos ea ltac:(apply valid_finite_range in Va; lia))
        as Hp.
      destruct (Z.compare_spec (Z.pos ma) (Z.pos mb)) as [E|Lt|Gt];
        symmetry.
      * apply Z.compare_eq_iff. rewrite E. reflexivity.
      * apply Z.compare_lt_iff. nia.
      * apply Z.compare_gt_iff. nia.
    + pose proof (finite_order_exp _ _ _ _ _ _ Va Vb Lt).
      symmetry. apply Z.compare_lt_iff. lia.
    + pose proof (finite_order_exp _ _ _ _ _ _ Vb Va ltac:(lia)).
      symmetry. apply Z.compare_gt_iff. lia.
Qed.

(** ** Shifting a mantissa to the right *)

Lemma iter_pos_nat :
  forall (A : Type) (f : A -> A) (p : positive) (x : A),
    SpecFloat.iter_pos f p x = Nat.iter (Pos.to_nat p) f x.
Proof.
  intros A f. induction p as [p IH|p IH|]; intros x; cbn [SpecFloat.iter_pos].
  - rewrite !IH, Pos2Nat.inj_xI.
    replace (S (2 * Pos.to_nat p))%nat
      with (Pos.to_nat p + (Pos.to_nat p + 1))%nat by lia.
    rewrite !Nat.iter_add. reflexivity.
  - rewrite !IH, Pos2Nat.inj_xO.
    replace (2 * Pos.to_nat p)%nat
      with (Pos.to_nat p + Pos.to_nat p)%nat by lia.
    rewrite Nat.iter_add. reflexivity.
  - reflexivity.
Qed.

Lemma shr_1_nonneg :
  forall m r s,
    0 <= m ->
    SpecFloat.shr_1 (SpecFloat.Build_shr_record m r s)
    = SpecFloat.Build_shr_record (m / 2) (Z.odd m) (r || s).
Proof.
  intros m r s Hm. destruct m as [|p|p]; [reflexivity| |lia].
  destruct p as [p|p|]; cbn [SpecFloat.shr_1].
  - f_equal. change (Z.pos p~1) with (2 * Z.pos p + 1).
    apply (Z.div_unique _ _ _ 1); lia.
  - f_equal. change (Z.pos p~0) with (2 * Z.pos p).
    apply (Z.div_unique _ _ _ 0); lia.
  - reflexivity.
Qed.

Lemma odd_eqb : forall a, Z.odd a = (a mod 2 =? 1).
Proof. intros a. rewrite <- Z.bit0_odd. apply Z.bit0_eqb. Qed.

(** [k + 1] shifts of an exact mantissa. *)
Lemma shr_iter :
  forall (m : Z) (k : nat),
    0 <= m ->
    Nat.iter (S k) SpecFloat.shr_1 (SpecFloat.Build_shr_record m false false)
    = SpecFloat.Build_shr_record (m / 2 ^ Z.of_nat (S k))
        (Z.odd (m / 2 ^ Z.of_nat k))
        (negb (m mod 2 ^ Z.of_nat k =? 0)).
Proof.
  intros m k Hm. induction k as [|k IH].
  - cbn [Nat.iter]. rewrite shr_1_nonneg by exact Hm.
    change (2 ^ Z.of_nat 1) with 2. change (2 ^ Z.of_nat 0) with 1.
    rewrite Z.div_1_r, Z.mod_1_r. reflexivity.
  - rewrite Nat.iter_succ, IH.
    assert (Hp : 0 < 2 ^ Z.of_nat k) by (apply Z.pow_pos_nonneg; lia).
    assert (Hq : 0 <= m / 2 ^ Z.of_nat (S k))
      by (apply Z.div_pos; [lia|apply Z.pow_pos_nonneg; lia]).
    rewrite shr_1_nonneg by exact Hq.
    assert (E2 : 2 ^ Z.of_nat (S k) = 2 ^ Z.of_nat k * 2).
    { rewrite Nat2Z.inj_succ, Z.pow_succ_r by lia. lia. }
    assert (E3 : 2 ^ Z.of_nat (S (S k)) = 2 ^ Z.of_nat (S k) * 2).
    { rewrite (Nat2Z.inj_succ (S k)), Z.pow_succ_r by lia. lia. }
    f_equal.
    + rewrite E3, Z.div_div by lia. reflexivity.
    + (* the sticky bit *)
      rewrite E2. rewrite Z.rem_mul_r by lia.
      pose proof (Z.mod_pos_bound m (2 ^ Z.of_nat k) Hp) as Hr.
      pose proof (Z.mod_pos_bound (m / 2 ^ Z.of_nat k) 2 ltac:(lia)) as Hb.
      rewrite odd_eqb.
      destruct (Z.eqb_spec (m mod 2 ^ Z.of_nat k) 0) as [E0|N0];
        destruct (Z.eqb_spec ((m / 2 ^ Z.of_nat k) mod 2) 1) as [E1|N1];
        cbn [negb orb];
        match goal with
        | |- _ = negb (?x =? 0) => destruct (Z.eqb_spec x 0)
        end; cbn [negb]; try reflexivity; nia.
Qed.

Lemma shr_round :
  forall (M E n : Z),
    0 <= M -> 0 < n ->
    exists rec,
      SpecFloat.shr (SpecFloat.Build_shr_record M false false) E n
      = (rec, E + n)
      /\ SpecFloat.shr_m rec = M / 2 ^ n
      /\ SpecFloat.round_nearest_even (SpecFloat.shr_m rec)
           (SpecFloat.loc_of_shr_record rec) = rne_div M n.
Proof.
  intros M E n HM Hn. destruct n as [|p|p]; try lia.
  cbn [SpecFloat.shr]. rewrite iter_pos_nat.
  destruct (Pos.to_nat p) as [|k] eqn:Ek; [lia|].
  assert (En : Z.pos p = Z.of_nat (S k)) by lia.
  rewrite En. rewrite shr_iter by exact HM.
  eexists. split; [reflexivity|]. cbn [SpecFloat.shr_m].
  split; [reflexivity|].
  assert (Hp : 0 < 2 ^ Z.of_nat k) by (apply Z.pow_pos_nonneg; lia).
  assert (E2 : 2 ^ Z.of_nat (S k) = 2 ^ Z.of_nat k * 2).
  { rewrite Nat2Z.inj_succ, Z.pow_succ_r by lia. lia. }
  unfold rne_div. cbv zeta.
  set (q := M / 2 ^ Z.of_nat (S k)).
  assert (Er : M mod 2 ^ Z.of_nat (S k)
               = M mod 2 ^ Z.of_nat k
                 + 2 ^ Z.of_nat k * ((M / 2 ^ Z.of_nat k) mod 2)).
  { rewrite E2. apply Z.rem_mul_r; lia. }
  rewrite Er, E2.
  pose proof (Z.mod_pos_bound M (2 ^ Z.of_nat k) Hp) as Hlow.
  pose proof (Z.mod_pos_bound (M / 2 ^ Z.of_nat k) 2 ltac:(lia)) as Hb.
  rewrite odd_eqb.
  set (low := M mod 2 ^ Z.of_nat k) in *.
  set (b := (M / 2 ^ Z.of_nat k) mod 2) in *.
  set (h := 2 ^ Z.of_nat k) in *.
  destruct (Z.eqb_spec b 1) as [B1|B0];
    destruct (Z.eqb_spec low 0) as [L0|L1];
    cbn [negb SpecFloat.loc_of_shr_record SpecFloat.round_nearest_even].
  - rewrite B1, L0.
    destruct (Z.ltb_spec (2 * (0 + h * 1)) (h * 2)); [lia|].
    destruct (Z.eqb_spec (2 * (0 + h * 1)) (h * 2)); [reflexivity|lia].
  - rewrite B1.
    destruct (Z.ltb_spec (2 * (low + h * 1)) (h * 2)); [lia|].
    destruct (Z.eqb_spec (2 * (low + h * 1)) (h * 2)); [lia|reflexivity].
  - assert (b = 0) by lia. subst b. rewrite H, L0.
    destruct (Z.ltb_spec (2 * (0 + h * 0)) (h * 2)); [reflexivity|lia].
  - assert (b = 0) by lia. rewrite H.
    destruct (Z.ltb_spec (2 * (low + h * 0)) (h * 2)); [reflexivity|lia].
Qed.

Lemma rne_div_scale :
  forall M n j, 0 <= n -> 0 <= j -> rne_div (M * 2 ^ j) (n + j) = rne_div M n.
Proof.
  intros M n j Hn Hj. unfold rne_div. cbv zeta.
  assert (Hpn : 0 < 2 ^ n) by (apply Z.pow_pos_nonneg; lia).
  assert (Hpj : 0 < 2 ^ j) by (apply Z.pow_pos_nonneg; lia).
  rewrite Z.pow_add_r by lia.
  rewrite Z.div_mul_cancel_r by lia.
  rewrite Z.mul_mod_distr_r by lia.
  set (r := M mod 2 ^ n). set (q := M / 2 ^ n).
  set (a := 2 ^ n) in *. set (c := 2 ^ j) in *.
  destruct (Z.ltb_spec (2 * (r * c)) (a * c));
    destruct (Z.ltb_spec (2 * r) a); try nia; try reflexivity.
  destruct (Z.eqb_spec (2 * (r * c)) (a * c));
    destruct (Z.eqb_spec (2 * r) a); try nia; reflexivity.
Qed.

(** ** Rounding a mantissa and an exponent to a binary64 number *)

Lemma fexp_53 : forall x, SpecFloat.fexp FloatOps.prec FloatOps.emax x = fexp53 x.
Proof. reflexivity. Qed.

Lemma huge_split : forall a b, 0 <= a -> 0 <= b -> a + b = 1024 + scale ->
  huge = 2 ^ a * 2 ^ b.
Proof.
  intros a b Ha Hb E. unfold huge. rewrite <- E. apply Z.pow_add_r; lia.
Qed.

Lemma signed_zero : forall s, signed s 0 = 0.
Proof. intros []; reflexivity. Qed.

Lemma sv_finite :
  forall s m e,
    sv (SpecFloat.S754_finite s m e) = signed s (Z.pos m * 2 ^ (e + scale)).
Proof. intros [] m e; reflexivity. Qed.

Lemma sv_infinity :
  forall s, sv (SpecFloat.S754_infinity s) = signed s huge.
Proof. intros []; reflexivity. Qed.

Lemma finish_sv :
  forall s m1 e1,
    0 <= m1 <= 2 ^ 53 -> -1074 <= e1 ->
    (971 < e1 -> 2 ^ 52 <= m1) ->
    is_nan_spec (finish s m1 e1) = false
    /\ sv (finish s m1 e1) = signed s (Z.min (m1 * 2 ^ (e1 + scale)) huge).
Proof.
  intros s m1 e1 [H0 H53] He Hbig.
  assert (Hh : 0 < huge) by (apply Z.pow_pos_nonneg; unfold scale; lia).
  assert (Hp : 0 < 2 ^ (e1 + scale)) by (apply pow_scale_pos; lia).
  unfold finish, SpecFloat.shr_fexp. rewrite fexp_53.
  cbn [SpecFloat.shr_record_of_loc].
  destruct m1 as [|p|p]; [| |lia].
  - (* the mantissa is zero *)
    cbn [SpecFloat.Zdigits2].
    assert (Hn : fexp53 (0 + e1) - e1 <= 0) by (unfold fexp53; lia).
    destruct (fexp53 (0 + e1) - e1) as [|n|n] eqn:En; try lia;
      cbn [SpecFloat.shr SpecFloat.shr_m]; split; try reflexivity;
      cbn [sv]; rewrite Z.mul_0_l, Z.min_l, signed_zero by lia; reflexivity.
  - cbn [SpecFloat.Zdigits2]. rewrite digits2_pos_log2.
    pose proof (Z.log2_spec (Z.pos p) ltac:(lia)) as [Hlo Hhi].
    destruct (Z.eq_dec (Z.pos p) (2 ^ 53)) as [E53|N53].
    + (* a carry out of the rounding *)
      assert (Hl : Z.log2 (Z.pos p) = 53) by (rewrite E53; reflexivity).
      rewrite Hl.
      replace (fexp53 (53 + 1 + e1) - e1) with 1 by (unfold fexp53; lia).
      destruct (shr_round (Z.pos p) e1 1 ltac:(lia) ltac:(lia))
        as (rec & -> & Hm & _).
      rewrite Hm, E53. change (2 ^ 53 / 2 ^ 1) with (Z.pos (2 ^ 52)).
      change (FloatOps.emax - FloatOps.prec) with 971.
      destruct (Z.leb_spec (e1 + 1) 971) as [Hle|Hgt].
      * split; [reflexivity|]. rewrite sv_finite. f_equal.
        replace (e1 + 1 + scale) with (1 + (e1 + scale)) by lia.
        rewrite (Z.pow_add_r 2 1 (e1 + scale)) by (unfold scale; lia).
        change (Z.pos (2 ^ 52)) with (2 ^ 52).
        change (2 ^ 53) with (2 ^ 52 * 2 ^ 1).
        rewrite Z.min_l; [lia|].
        rewrite (huge_split 53 (971 + scale)) by (unfold scale; lia).
        change (2 ^ 52 * 2 ^ 1) with (2 ^ 53).
        apply Z.mul_le_mono_nonneg_l; [lia|].
        apply Z.pow_le_mono_r; unfold scale; lia.
      * split; [reflexivity|]. rewrite sv_infinity. f_equal.
        rewrite Z.min_r; [reflexivity|].
        rewrite (huge_split 53 (971 + scale)) by (unfold scale; lia).
        apply Z.mul_le_mono_nonneg_l; [lia|].
        apply Z.pow_le_mono_r; unfold scale; lia.
    + assert (Hl : Z.log2 (Z.pos p) <= 52).
      { destruct (Z_le_gt_dec (Z.log2 (Z.pos p)) 52) as [|Hgt]; [assumption|].
        exfalso.
        assert (2 ^ 53 <= 2 ^ Z.log2 (Z.pos p))
          by (apply Z.pow_le_mono_r; lia).
        lia. }
      assert (Hn : fexp53 (Z.log2 (Z.pos p) + 1 + e1) - e1 <= 0)
        by (unfold fexp53; lia).
      change (FloatOps.emax - FloatOps.prec) with 971.
      assert (Hsv : forall e, e = e1 ->
        is_nan_spec (if e <=? 971 then SpecFloat.S754_finite s p e
                     else SpecFloat.S754_infinity s) = false
        /\ sv (if e <=? 971 then SpecFloat.S754_finite s p e
               else SpecFloat.S754_infinity s)
           = signed s (Z.min (Z.pos p * 2 ^ (e1 + scale)) huge)).
      { intros e ->. destruct (Z.leb_spec e1 971) as [Hle|Hgt].
        - split; [reflexivity|]. rewrite sv_finite. f_equal.
          rewrite Z.min_l; [reflexivity|].
          rewrite (huge_split 53 (971 + scale)) by (unfold scale; lia).
          assert (2 ^ (e1 + scale) <= 2 ^ (971 + scale))
            by (apply Z.pow_le_mono_r; unfold scale; lia).
          set (a := 2 ^ (e1 + scale)) in *. set (b := 2 ^ (971 + scale)) in *.
          set (h := 2 ^ 53) in *.
          assert (Z.pos p * a <= h * a)
            by (apply Z.mul_le_mono_nonneg_r; lia).
          assert (h * a <= h * b)
            by (apply Z.mul_le_mono_nonneg_l; lia).
          lia.
        - split; [reflexivity|]. rewrite sv_infinity. f_equal.
          rewrite Z.min_r; [reflexivity|].
          specialize (Hbig Hgt).
          rewrite (huge_split 52 (972 + scale)) by (unfold scale; lia).
          assert (2 ^ (972 + scale) <= 2 ^ (e1 + scale))
            by (apply Z.pow_le_mono_r; unfold scale; lia).
          set (a := 2 ^ (e1 + scale)) in *. set (b := 2 ^ (972 + scale)) in *.
          set (h := 2 ^ 52) in *.
          assert (0 < h) by (unfold h; lia).
          assert (h * b <= h * a)
            by (apply Z.mul_le_mono_nonneg_l; lia).
          assert (h * a <= Z.pos p * a)
            by (apply Z.mul_le_mono_nonneg_r; lia).
          lia. }
      destruct (fexp53 (Z.log2 (Z.pos p) + 1 + e1) - e1) as [|n|n] eqn:En;
        try lia; cbn [SpecFloat.shr SpecFloat.shr_m]; apply Hsv; reflexivity.
Qed.

Lemma ulp_exp_scaled :
  forall (m : positive) (E : Z),
    - scale <= E ->
    ulp_exp (Z.pos m * 2 ^ (E + scale))
    = fexp53 (Z.log2 (Z.pos m) + 1 + E) + scale.
Proof.
  intros m E HE. unfold ulp_exp, fexp53.
  rewrite Z.log2_mul_pow2 by lia. unfold scale. lia.
Qed.

Lemma round_aux_finish :
  forall s M E,
    SpecFloat.binary_round_aux FloatOps.prec FloatOps.emax s M E
      SpecFloat.loc_Exact
    = let '(mrs, e1) :=
        SpecFloat.shr_fexp FloatOps.prec FloatOps.emax M E
          SpecFloat.loc_Exact in
      finish s (SpecFloat.round_nearest_even (SpecFloat.shr_m mrs)
                  (SpecFloat.loc_of_shr_record mrs)) e1.
Proof. reflexivity. Qed.

Lemma round_aux_sv :
  forall s (m : positive) (E : Z),
    - scale <= E ->
    E + scale <= ulp_exp (Z.pos m * 2 ^ (E + scale)) ->
    is_nan_spec
      (SpecFloat.binary_round_aux FloatOps.prec FloatOps.emax s (Z.pos m) E
         SpecFloat.loc_Exact) = false
    /\ sv (SpecFloat.binary_round_aux FloatOps.prec FloatOps.emax s (Z.pos m) E
             SpecFloat.loc_Exact)
       = signed s (clip (Z.pos m * 2 ^ (E + scale))).
Proof.
  intros s m E HE Hn.
  rewrite round_aux_finish. unfold SpecFloat.shr_fexp.
  rewrite fexp_53. cbn [SpecFloat.shr_record_of_loc SpecFloat.Zdigits2].
  rewrite digits2_pos_log2.
  unfold clip, rnd. rewrite ulp_exp_scaled in * by exact HE.
  pose proof (Z.log2_spec (Z.pos m) ltac:(lia)) as [Hlo Hhi].
  pose proof (Z.log2_nonneg (Z.pos m)) as Hl0.
  set (d := Z.log2 (Z.pos m) + 1) in *.
  set (e1 := fexp53 (d + E)) in *.
  assert (He1 : -1074 <= e1) by (unfold e1, fexp53; lia).
  assert (Hd53 : d + E - 53 <= e1) by (unfold e1, fexp53; lia).
  destruct (Z.eq_dec (e1 - E) 0) as [E0|N0].
  - (* nothing to shift *)
    rewrite E0. cbn [SpecFloat.shr SpecFloat.shr_m
                     SpecFloat.loc_of_shr_record SpecFloat.round_nearest_even].
    assert (Ee : e1 = E) by lia.
    assert (Hm53 : Z.pos m < 2 ^ 53).
    { eapply Z.lt_le_trans; [exact Hhi|]. apply Z.pow_le_mono_r; lia. }
    destruct (finish_sv s (Z.pos m) E) as [Hnan Hsv]; [lia|lia| |].
    { intros Hbig. assert (d = 53) by (unfold e1, fexp53 in Ee; lia).
      replace 52 with (Z.log2 (Z.pos m)) by lia. exact Hlo. }
    split; [exact Hnan|]. rewrite Hsv. f_equal. f_equal.
    rewrite Ee. rewrite rne_div_exact by (unfold scale; lia). reflexivity.
  - assert (Hpos : 0 < e1 - E) by lia.
    destruct (shr_round (Z.pos m) E (e1 - E) ltac:(lia) Hpos)
      as (rec & -> & _ & Hr).
    rewrite Hr. replace (E + (e1 - E)) with e1 by lia.
    set (n := e1 - E) in *.
    assert (Hpn : 0 < 2 ^ n) by (apply Z.pow_pos_nonneg; lia).
    pose proof (rne_div_bounds (Z.pos m) n ltac:(lia)) as [Hb1 Hb2].
    assert (Hq0 : 0 <= Z.pos m / 2 ^ n) by (apply Z.div_pos; lia).
    assert (Hq53 : Z.pos m / 2 ^ n < 2 ^ 53).
    { apply Z.div_lt_upper_bound; [lia|].
      rewrite <- Z.pow_add_r by lia.
      eapply Z.lt_le_trans; [exact Hhi|]. apply Z.pow_le_mono_r; lia. }
    destruct (finish_sv s (rne_div (Z.pos m) n) e1) as [Hnan Hsv];
      [lia|lia| |].
    { intros Hbig. assert (Hn52 : n + 52 = Z.log2 (Z.pos m))
        by (unfold n, e1, fexp53 in *; lia).
      assert (2 ^ 52 <= Z.pos m / 2 ^ n); [|lia].
      apply Z.div_le_lower_bound; [lia|].
      rewrite <- Z.pow_add_r by lia. rewrite Hn52. exact Hlo. }
    split; [exact Hnan|]. rewrite Hsv. f_equal. f_equal.
    replace (e1 + scale) with (n + (E + scale)) at 2 by lia.
    rewrite rne_div_scale by lia. reflexivity.
Qed.

(** ** Properties of the rounding of scaled values *)

Lemma rnd_nonneg : forall v, 0 <= v -> 0 <= rnd v.
Proof.
  intros v Hv. unfold rnd.
  pose proof (ulp_exp_pos v) as Hg.
  pose proof (rne_div_bounds v (ulp_exp v) ltac:(lia)) as [Hb _].
  assert (Hp : 0 < 2 ^ ulp_exp v) by (apply Z.pow_pos_nonneg; lia).
  assert (0 <= v / 2 ^ ulp_exp v) by (apply Z.div_pos; lia).
  apply Z.mul_nonneg_nonneg; lia.
Qed.

Lemma huge_pos : 0 < huge.
Proof. apply Z.pow_pos_nonneg; unfold scale; lia. Qed.

Lemma clip_range : forall v, 0 <= v -> 0 <= clip v <= huge.
Proof.
  intros v Hv. unfold clip. pose proof (rnd_nonneg v Hv).
  pose proof huge_pos. lia.
Qed.

Lemma clip_mono : forall v1 v2, 0 <= v1 <= v2 -> clip v1 <= clip v2.
Proof.
  intros v1 v2 H. unfold clip. pose proof (rnd_mono v1 v2 H). lia.
Qed.

Lemma clip_zero : clip 0 = 0.
Proof. reflexivity. Qed.

(** A value that is a binary64 number rounds to itself. *)
Lemma rnd_fix :
  forall s m e,
    valid (SpecFloat.S754_finite s m e) ->
    rnd (Z.pos m * 2 ^ (e + scale)) = Z.pos m * 2 ^ (e + scale).
Proof.
  intros s m e H. pose proof (valid_finite _ _ _ H) as [Hc _].
  apply valid_finite_range in H. destruct H as (He & _ & _).
  unfold rnd. rewrite ulp_exp_scaled by (unfold scale; lia).
  unfold fexp53. rewrite <- Hc.
  rewrite rne_div_exact by (unfold scale; lia). reflexivity.
Qed.

Lemma clip_fix :
  forall s m e,
    valid (SpecFloat.S754_finite s m e) ->
    clip (Z.pos m * 2 ^ (e + scale)) = Z.pos m * 2 ^ (e + scale).
Proof.
  intros s m e H. unfold clip. rewrite (rnd_fix s) by exact H.
  pose proof (finite_positive _ _ _ H). lia.
Qed.

Lemma rnd_huge : rnd huge = huge.
Proof.
  unfold rnd, huge, ulp_exp. rewrite Z.log2_pow2 by (unfold scale; lia).
  replace (Z.max (1024 + scale + 1 - 53) 1074) with (972 + scale)
    by (unfold scale; lia).
  replace (1024 + scale) with (52 + (972 + scale)) by lia.
  rewrite (Z.pow_add_r 2 52 (972 + scale)) by (unfold scale; lia).
  rewrite rne_div_exact by (unfold scale; lia). reflexivity.
Qed.

Lemma clip_huge : forall v, huge <= v -> clip v = huge.
Proof.
  intros v Hv. unfold clip. pose proof huge_pos.
  pose proof (rnd_mono huge v ltac:(lia)) as Hm. rewrite rnd_huge in Hm. lia.
Qed.

Lemma sclip_mono : forall x y, x <= y -> sclip x <= sclip y.
Proof.
  intros x y H. unfold sclip.
  destruct (Z.ltb_spec x 0); destruct (Z.ltb_spec y 0).
  - pose proof (clip_mono (- y) (- x) ltac:(lia)). lia.
  - pose proof (clip_range (- x) ltac:(lia)).
    pose proof (clip_range y ltac:(lia)). lia.
  - lia.
  - apply clip_mono. lia.
Qed.

Lemma sclip_range : forall x, - huge <= sclip x <= huge.
Proof.
  intros x. unfold sclip. pose proof huge_pos.
  destruct (Z.ltb_spec x 0).
  - pose proof (clip_range (- x) ltac:(lia)). lia.
  - pose proof (clip_range x ltac:(lia)). lia.
Qed.

Lemma sclip_signed :
  forall s v, 0 <= v -> signed s (clip v) = sclip (signed s v).
Proof.
  intros s v Hv. unfold sclip, signed. destruct s.
  - destruct (Z.ltb_spec (- v) 0).
    + rewrite Z.opp_involutive. reflexivity.
    + assert (v = 0) by lia. subst v. reflexivity.
  - destruct (Z.ltb_spec v 0); [lia|reflexivity].
Qed.

Lemma sclip_sv :
  forall a, valid a -> sclip (sv a) = sv a.
Proof.
  intros [s|s| |s m e] H; cbn [sv].
  - reflexivity.
  - pose proof huge_pos. unfold sclip. destruct s.
    + destruct (Z.ltb_spec (- huge) 0); [|lia].
      rewrite Z.opp_involutive, clip_huge by lia. reflexivity.
    + destruct (Z.ltb_spec huge 0); [lia|]. apply clip_huge. lia.
  - reflexivity.
  - pose proof (finite_positive _ _ _ H).
    change (if s then - (Z.pos m * 2 ^ (e + scale))
            else Z.pos m * 2 ^ (e + scale))
      with (signed s (Z.pos m * 2 ^ (e + scale))).
    rewrite <- sclip_signed by lia. rewrite (clip_fix s) by exact H.
    reflexivity.
Qed.

Lemma sv_range : forall a, valid a -> - huge <= sv a <= huge.
Proof.
  intros a H. rewrite <- (sclip_sv a H). apply sclip_range.
Qed.

(** ** Alignment and normalisation *)

Lemma iter_xO :
  forall (m d : positive), Z.pos (Pos.iter xO m d) = Z.pos m * 2 ^ Z.pos d.
Proof.
  intros m d. induction d as [|d IH] using Pos.peano_ind.
  - cbn [Pos.iter]. rewrite Pos2Z.inj_xO. change (2 ^ 1) with 2. lia.
  - rewrite Pos.iter_succ, Pos2Z.inj_xO, IH, Pos2Z.inj_succ.
    rewrite Z.pow_succ_r by lia. lia.
Qed.

Lemma shl_align_spec :
  forall (m : positive) (e e' : Z),
    exists m1,
      SpecFloat.shl_align m e e' = (m1, Z.min e e')
      /\ Z.pos m1 = Z.pos m * 2 ^ (e - Z.min e e').
Proof.
  intros m e e'. unfold SpecFloat.shl_align.
  destruct (e' - e) as [|d|d] eqn:Ed.
  - exists m. rewrite Z.min_l by lia. split; [reflexivity|].
    rewrite Z.sub_diag. lia.
  - exists m. rewrite Z.min_l by lia. split; [reflexivity|].
    rewrite Z.sub_diag. lia.
  - exists (Pos.iter xO m d). rewrite Z.min_r by lia.
    split; [reflexivity|]. rewrite iter_xO. f_equal. f_equal. lia.
Qed.

Lemma binary_round_sv :
  forall s (m : positive) (e : Z),
    - scale <= e ->
    is_nan_spec (SpecFloat.binary_round FloatOps.prec FloatOps.emax s m e)
    = false
    /\ sv (SpecFloat.binary_round FloatOps.prec FloatOps.emax s m e)
       = signed s (clip (Z.pos m * 2 ^ (e + scale))).
Proof.
  intros s m e He. unfold SpecFloat.binary_round.
  rewrite fexp_53, digits2_pos_log2.
  destruct (shl_align_spec m e (fexp53 (Z.log2 (Z.pos m) + 1 + e)))
    as (m1 & -> & Hm1).
  set (e1 := Z.min e (fexp53 (Z.log2 (Z.pos m) + 1 + e))) in *.
  assert (He1 : - scale <= e1) by (unfold e1, fexp53, scale in *; lia).
  assert (Hv : Z.pos m1 * 2 ^ (e1 + scale) = Z.pos m * 2 ^ (e + scale)).
  { rewrite Hm1. rewrite <- Z.mul_assoc, <- Z.pow_add_r
      by (unfold e1, scale in *; lia).
    f_equal. f_equal. lia. }
  rewrite <- Hv. apply round_aux_sv; [exact He1|].
  rewrite Hv. rewrite ulp_exp_scaled by exact He. unfold e1. lia.
Qed.

Lemma binary_normalize_sv :
  forall (M e : Z) (sz : bool),
    - scale <= e ->
    is_nan_spec (SpecFloat.binary_normalize FloatOps.prec FloatOps.emax M e sz)
    = false
    /\ sv (SpecFloat.binary_normalize FloatOps.prec FloatOps.emax M e sz)
       = sclip (M * 2 ^ (e + scale)).
Proof.
  intros M e sz He.
  assert (Hp : 0 < 2 ^ (e + scale))
    by (apply Z.pow_pos_nonneg; unfold scale in *; lia).
  destruct M as [|m|m]; cbn [SpecFloat.binary_normalize].
  - split; reflexivity.
  - destruct (binary_round_sv false m e He) as [Hn Hs].
    split; [exact Hn|]. rewrite Hs. apply (sclip_signed false). lia.
  - destruct (binary_round_sv true m e He) as [Hn Hs].
    split; [exact Hn|]. rewrite Hs.
    rewrite (sclip_signed true) by lia. f_equal. unfold signed. lia.
Qed.

(** ** Sums, differences and products of finite numbers *)

Lemma sclip_opp : forall x, sclip (- x) = - sclip x.
Proof.
  intros x. unfold sclip.
  destruct (Z.ltb_spec (- x) 0); destruct (Z.ltb_spec x 0); try lia.
  - rewrite Z.opp_involutive. reflexivity.
  - assert (x = 0) by lia. subst x. reflexivity.
Qed.

Lemma aligned_value :
  forall (s : bool) (m : positive) (e ez : Z),
    ez <= e -> - scale <= ez ->
    SpecFloat.cond_Zopp s (Z.pos (fst (SpecFloat.shl_align m e ez)))
    * 2 ^ (ez + scale)
    = sv (SpecFloat.S754_finite s m e).
Proof.
  intros s m e ez Hle Hez.
  destruct (shl_align_spec m e ez) as (m1 & -> & Hm1).
  cbn [fst]. rewrite Z.min_r in Hm1 by lia.
  assert (Hv : Z.pos m1 * 2 ^ (ez + scale) = Z.pos m * 2 ^ (e + scale)).
  { rewrite Hm1. rewrite <- Z.mul_assoc, <- Z.pow_add_r
      by (unfold scale in *; lia).
    f_equal. f_equal. lia. }
  unfold SpecFloat.cond_Zopp. cbn [sv]. destruct s; lia.
Qed.

Lemma valid_exp :
  forall s m e, valid (SpecFloat.S754_finite s m e) -> -1074 <= e <= 971.
Proof. intros s m e H. apply valid_finite_range in H. lia. Qed.

Lemma SFadd_sv :
  forall a b,
    valid a -> valid b -> finite_spec a = true -> finite_spec b = true ->
    is_nan_spec (SpecFloat.SFadd FloatOps.prec FloatOps.emax a b) = false
    /\ sv (SpecFloat.SFadd FloatOps.prec FloatOps.emax a b)
       = sclip (sv a + sv b).
Proof.
  intros [sa|sa| |sa ma ea] [sb|sb| |sb mb eb] Va Vb Fa Fb;
    try discriminate; cbn [SpecFloat.SFadd].
  - destruct sa, sb; split; reflexivity.
  - split; [reflexivity|]. cbn [sv]. rewrite Z.add_0_l.
    symmetry. apply (sclip_sv (SpecFloat.S754_finite sb mb eb) Vb).
  - split; [reflexivity|]. cbn [sv]. rewrite Z.add_0_r.
    symmetry. apply (sclip_sv (SpecFloat.S754_finite sa ma ea) Va).
  - pose proof (valid_exp _ _ _ Va). pose proof (valid_exp _ _ _ Vb).
    destruct (binary_normalize_sv
                (SpecFloat.cond_Zopp sa
                   (Z.pos (fst (SpecFloat.shl_align ma ea (Z.min ea eb))))
                 + SpecFloat.cond_Zopp sb
                     (Z.pos (fst (SpecFloat.shl_align mb eb (Z.min ea eb)))))
                (Z.min ea eb) false) as [Hn Hs]; [unfold scale; lia|].
    split; [exact Hn|]. rewrite Hs. f_equal.
    rewrite Z.mul_add_distr_r.
    rewrite !aligned_value by (unfold scale; lia). reflexivity.
Qed.

Lemma SFsub_sv :
  forall a b,
    valid a -> valid b -> finite_spec a = true -> finite_spec b = true ->
    is_nan_spec (SpecFloat.SFsub FloatOps.prec FloatOps.emax a b) = false
    /\ sv (SpecFloat.SFsub FloatOps.prec FloatOps.emax a b)
       = sclip (sv a - sv b).
Proof.
  intros [sa|sa| |sa ma ea] [sb|sb| |sb mb eb] Va Vb Fa Fb;
    try discriminate; cbn [SpecFloat.SFsub].
  - destruct sa, sb; split; reflexivity.
  - split; [reflexivity|]. rewrite Z.sub_0_l, sclip_opp.
    rewrite (sclip_sv _ Vb). rewrite !sv_finite. destruct sb; cbn; lia.
  - split; [reflexivity|]. cbn [sv]. rewrite Z.sub_0_r.
    symmetry. apply (sclip_sv (SpecFloat.S754_finite sa ma ea) Va).
  - pose proof (valid_exp _ _ _ Va). pose proof (valid_exp _ _ _ Vb).
    destruct (binary_normalize_sv
                (SpecFloat.cond_Zopp sa
                   (Z.pos (fst (SpecFloat.shl_align ma ea (Z.min ea eb))))
                 - SpecFloat.cond_Zopp sb
                     (Z.pos (fst (SpecFloat.shl_align mb eb (Z.min ea eb)))))
                (Z.min ea eb) false) as [Hn Hs]; [unfold scale; lia|].
    split; [exact Hn|]. rewrite Hs. f_equal.
    rewrite Z.mul_sub_distr_r.
    rewrite !aligned_value by (unfold scale; lia). reflexivity.
Qed.

Lemma valid_log2 :
  forall s m e,
    valid (SpecFloat.S754_finite s m e) ->
    -1074 < e -> Z.log2 (Z.pos m) = 52.
Proof.
  intros s m e H He. apply valid_finite in H. lia.
Qed.

Lemma SFmul_sv :
  forall a b,
    valid a -> valid b -> finite_spec a = true -> finite_spec b = true ->
    is_nan_spec (SpecFloat.SFmul FloatOps.prec FloatOps.emax a b) = false
    /\ exists P,
         sv a * sv b = P * 2 ^ scale
         /\ sv (SpecFloat.SFmul FloatOps.prec FloatOps.emax a b) = sclip P.
Proof.
  intros [sa|sa| |sa ma ea] [sb|sb| |sb mb eb] Va Vb Fa Fb;
    try discriminate; cbn [SpecFloat.SFmul].
  - split; [reflexivity|]. exists 0. split; reflexivity.
  - split; [reflexivity|]. exists 0. split; reflexivity.
  - split; [reflexivity|]. exists 0. cbn [sv]. split; [lia|reflexivity].
  - pose proof (valid_exp _ _ _ Va) as Ha. pose proof (valid_exp _ _ _ Vb) as Hb.
    destruct (round_aux_sv (xorb sa sb) (ma * mb) (ea + eb)) as [Hn Hs].
    { unfold scale. lia. }
    { rewrite ulp_exp_scaled by (unfold scale; lia).
      assert (fexp53 (Z.log2 (Z.pos (ma * mb)) + 1 + (ea + eb)) >= ea + eb);
        [|lia].
      rewrite Pos2Z.inj_mul.
      pose proof (Z.log2_mul_below (Z.pos ma) (Z.pos mb) ltac:(lia) ltac:(lia))
        as Hl.
      pose proof (Z.log2_nonneg (Z.pos ma)). pose proof (Z.log2_nonneg (Z.pos mb)).
      unfold fexp53.
      destruct (Z_le_gt_dec ea (-1074)); destruct (Z_le_gt_dec eb (-1074)).
      - lia.
      - pose proof (valid_log2 _ _ _ Vb ltac:(lia)). lia.
      - pose proof (valid_log2 _ _ _ Va ltac:(lia)). lia.
      - pose proof (valid_log2 _ _ _ Va ltac:(lia)).
        pose proof (valid_log2 _ _ _ Vb ltac:(lia)). lia. }
    split; [exact Hn|].
    assert (Hp : 0 < 2 ^ (ea + eb + scale))
      by (apply Z.pow_pos_nonneg; unfold scale; lia).
    exists (signed (xorb sa sb) (Z.pos (ma * mb) * 2 ^ (ea + eb + scale))).
    split.
    + rewrite !sv_finite.
      assert (E : Z.pos ma * 2 ^ (ea + scale) * (Z.pos mb * 2 ^ (eb + scale))
                  = Z.pos (ma * mb) * 2 ^ (ea + eb + scale) * 2 ^ scale).
      { rewrite Pos2Z.inj_mul.
        replace (ea + eb + scale) with ((ea + scale) + eb) by lia.
        rewrite <- (Z.mul_assoc _ (2 ^ (ea + scale + eb))).
        rewrite <- (Z.pow_add_r 2 (ea + scale + eb) scale)
          by (unfold scale; lia).
        replace (ea + scale + eb + scale) with ((ea + scale) + (eb + scale))
          by lia.
        rewrite (Z.pow_add_r 2 (ea + scale) (eb + scale))
          by (unfold scale; lia).
        ring. }
      unfold signed. destruct sa, sb; cbn [xorb]; lia.
    + rewrite Hs. apply sclip_signed. lia.
Qed.

(** ** Binary64 numbers *)

Lemma Prim2SF_nan :
  forall x : float,
    is_nan_spec (FloatOps.Prim2SF x) = PrimFloat.is_nan x.
Proof.
  intros x. unfold FloatOps.Prim2SF.
  destruct (PrimFloat.is_nan x); [reflexivity|].
  destruct (PrimFloat.is_zero x); [reflexivity|].
  destruct (PrimFloat.is_infinity x); [reflexivity|].
  destruct (FloatOps.Z.frexp x) as [r e].
  destruct (SpecFloat.shr_fexp _ _ _ _ _) as [mrs e'].
  destruct (SpecFloat.shr_m mrs); reflexivity.
Qed.

Lemma Prim2SF_ok : forall x : float, valid (FloatOps.Prim2SF x).
Proof. intros x. apply FloatAxioms.Prim2SF_valid. Qed.

Lemma SFltb_nan_l :
  forall a b, is_nan_spec a = true -> SpecFloat.SFltb a b = false.
Proof. intros [| | |] b H; try discriminate. reflexivity. Qed.

Lemma SFltb_nan_r :
  forall a b, is_nan_spec b = true -> SpecFloat.SFltb a b = false.
Proof.
  intros a [| | |] H; try discriminate. destruct a; reflexivity.
Qed.

Lemma SFltb_sv :
  forall a b,
    valid a -> valid b -> is_nan_spec a = false -> is_nan_spec b = false ->
    SpecFloat.SFltb a b = (sv a <? sv b).
Proof.
  intros a b Va Vb Na Nb. unfold SpecFloat.SFltb.
  rewrite (SFcompare_sv a b Va Vb Na Nb). unfold Z.ltb.
  destruct (sv a ?= sv b); reflexivity.
Qed.

(** [x < y] is false: either one of them is NaN, or [y <= x]. *)
Lemma ltb_false_sv :
  forall x y : float,
    (x <? y)%float = false <->
    (PrimFloat.is_nan x = true \/ PrimFloat.is_nan y = true
     \/ sv (FloatOps.Prim2SF y) <= sv (FloatOps.Prim2SF x)).
Proof.
  intros x y. rewrite FloatAxioms.ltb_spec, <- !Prim2SF_nan.
  destruct (is_nan_spec (FloatOps.Prim2SF x)) eqn:Nx.
  - rewrite SFltb_nan_l by exact Nx. tauto.
  - destruct (is_nan_spec (FloatOps.Prim2SF y)) eqn:Ny.
    + rewrite SFltb_nan_r by exact Ny. tauto.
    + rewrite SFltb_sv by (assumption || apply Prim2SF_ok).
      rewrite Z.ltb_ge. split; [tauto|].
      intros [H|[H|H]]; [discriminate|discriminate|exact H].
Qed.

Lemma ltb_true_sv :
  forall x y : float,
    (x <? y)%float = true <->
    (PrimFloat.is_nan x = false /\ PrimFloat.is_nan y = false
     /\ sv (FloatOps.Prim2SF x) < sv (FloatOps.Prim2SF y)).
Proof.
  intros x y. rewrite FloatAxioms.ltb_spec, <- !Prim2SF_nan.
  destruct (is_nan_spec (FloatOps.Prim2SF x)) eqn:Nx.
  - rewrite SFltb_nan_l by exact Nx. split; [discriminate|].
    intros [H _]; discriminate.
  - destruct (is_nan_spec (FloatOps.Prim2SF y)) eqn:Ny.
    + rewrite SFltb_nan_r by exact Ny. split; [discriminate|].
      intros (_ & H & _); discriminate.
    + rewrite SFltb_sv by (assumption || apply Prim2SF_ok).
      rewrite Z.ltb_lt. tauto.
Qed.

Lemma b64_ltb_irrefl : forall x : float, (x <? x)%float = false.
Proof. intros x. apply ltb_false_sv. right. right. lia. Qed.

Lemma b64_ltb_trans :
  forall x y z : float,
    (x <? y)%float = true -> (y <? z)%float = true -> (x <? z)%float = true.
Proof.
  intros x y z H1 H2. apply ltb_true_sv in H1. apply ltb_true_sv in H2.
  apply ltb_true_sv. intuition lia.
Qed.

Lemma b64_leb_trans :
  forall x y z : float,
    PrimFloat.is_nan y = false ->
    (y <? x)%float = false -> (z <? y)%float = false ->
    (z <? x)%float = false.
Proof.
  intros x y z Ny H1 H2. apply ltb_false_sv in H1. apply ltb_false_sv in H2.
  apply ltb_false_sv.
  destruct H1 as [H1|[H1|H1]]; [congruence|tauto|].
  destruct H2 as [H2|[H2|H2]]; [tauto|congruence|].
  right. right. lia.
Qed.

Lemma b64_ltb_nan :
  forall x y : float,
    PrimFloat.is_nan x = true ->
    (x <? y)%float = false /\ (y <? x)%float = false.
Proof. intros x y H. split; apply ltb_false_sv; tauto. Qed.

(** Of two numbers, one is below the other or they compare equal. *)
Lemma b64_ltb_total :
  forall x y : float,
    PrimFloat.is_nan x = false -> PrimFloat.is_nan y = false ->
    (x <? y)%float = false -> (y <? x)%float = false ->
    sv (FloatOps.Prim2SF x) = sv (FloatOps.Prim2SF y).
Proof.
  intros x y Nx Ny H1 H2. apply ltb_false_sv in H1. apply ltb_false_sv in H2.
  destruct H1 as [H1|[H1|H1]]; try congruence.
  destruct H2 as [H2|[H2|H2]]; try congruence. lia.
Qed.

Lemma Prim2SF_zero : FloatOps.Prim2SF 0%float = SpecFloat.S754_zero false.
Proof. reflexivity. Qed.

(** NaN spreads through the operations. *)
Lemma SFadd_nan :
  forall a b,
    is_nan_spec (SpecFloat.SFadd FloatOps.prec FloatOps.emax a b) = false ->
    is_nan_spec a = false /\ is_nan_spec b = false.
Proof. intros [| | |] [| | |] H; try discriminate; split; reflexivity. Qed.

Lemma SFsub_nan :
  forall a b,
    is_nan_spec (SpecFloat.SFsub FloatOps.prec FloatOps.emax a b) = false ->
    is_nan_spec a = false /\ is_nan_spec b = false.
Proof. intros [| | |] [| | |] H; try discriminate; split; reflexivity. Qed.

Lemma SFmul_nan :
  forall a b,
    is_nan_spec (SpecFloat.SFmul FloatOps.prec FloatOps.emax a b) = false ->
    is_nan_spec a = false /\ is_nan_spec b = false.
Proof. intros [| | |] [| | |] H; try discriminate; split; reflexivity. Qed.

Lemma b64_add_nan :
  forall x y : float,
    PrimFloat.is_nan (x + y)%float = false ->
    PrimFloat.is_nan x = false /\ PrimFloat.is_nan y = false.
Proof.
  intros x y. rewrite <- !Prim2SF_nan, FloatAxioms.add_spec. apply SFadd_nan.
Qed.

Lemma b64_sub_nan :
  forall x y : float,
    PrimFloat.is_nan (x - y)%float = false ->
    PrimFloat.is_nan x = false /\ PrimFloat.is_nan y = false.
Proof.
  intros x y. rewrite <- !Prim2SF_nan, FloatAxioms.sub_spec. apply SFsub_nan.
Qed.

Lemma b64_mul_nan :
  forall x y : float,
    PrimFloat.is_nan (x * y)%float = false ->
    PrimFloat.is_nan x = false /\ PrimFloat.is_nan y = false.
Proof.
  intros x y. rewrite <- !Prim2SF_nan, FloatAxioms.mul_spec. apply SFmul_nan.
Qed.

(** ** Monotonicity of the operations *)

Lemma spec_cases :
  forall a,
    is_nan_spec a = false ->
    finite_spec a = true \/ exists s, a = SpecFloat.S754_infinity s.
Proof.
  intros [s|s| |s m e] H; try discriminate; eauto.
Qed.

Lemma finite_sv_lt :
  forall a, valid a -> finite_spec a = true -> - huge < sv a < huge.
Proof.
  intros [s|s| |s m e] V F; try discriminate.
  - cbn [sv]. pose proof huge_pos. lia.
  - pose proof (finite_positive _ _ _ V). cbn [sv]. destruct s; lia.
Qed.

Lemma SFadd_ge_l :
  forall a b,
    valid a -> valid b ->
    is_nan_spec (SpecFloat.SFadd FloatOps.prec FloatOps.emax a b) = false ->
    0 <= sv b ->
    sv a <= sv (SpecFloat.SFadd FloatOps.prec FloatOps.emax a b).
Proof.
  intros a b Va Vb Nr Hb.
  destruct (SFadd_nan a b Nr) as [Na Nb].
  destruct (spec_cases a Na) as [Fa|[sa ->]];
    destruct (spec_cases b Nb) as [Fb|[sb ->]].
  - destruct (SFadd_sv a b Va Vb Fa Fb) as [_ ->].
    rewrite <- (sclip_sv a Va) at 1. apply sclip_mono. lia.
  - assert (sb = false).
    { destruct sb; [|reflexivity]. cbn [sv] in Hb. pose proof huge_pos. lia. }
    subst sb.
    replace (SpecFloat.SFadd FloatOps.prec FloatOps.emax a
               (SpecFloat.S754_infinity false))
      with (SpecFloat.S754_infinity false)
      by (destruct a; try discriminate; reflexivity).
    cbn [sv]. pose proof (sv_range a Va). lia.
  - replace (SpecFloat.SFadd FloatOps.prec FloatOps.emax
               (SpecFloat.S754_infinity sa) b)
      with (SpecFloat.S754_infinity sa)
      by (destruct b; try discriminate; reflexivity).
    lia.
  - destruct sa, sb; try discriminate; cbn [SpecFloat.SFadd]; lia.
Qed.

Lemma SFadd_ge_r :
  forall a b,
    valid a -> valid b ->
    is_nan_spec (SpecFloat.SFadd FloatOps.prec FloatOps.emax a b) = false ->
    0 <= sv a ->
    sv b <= sv (SpecFloat.SFadd FloatOps.prec FloatOps.emax a b).
Proof.
  intros a b Va Vb Nr Ha.
  destruct (SFadd_nan a b Nr) as [Na Nb].
  destruct (spec_cases a Na) as [Fa|[sa ->]];
    destruct (spec_cases b Nb) as [Fb|[sb ->]].
  - destruct (SFadd_sv a b Va Vb Fa Fb) as [_ ->].
    rewrite <- (sclip_sv b Vb) at 1. apply sclip_mono. lia.
  - replace (SpecFloat.SFadd FloatOps.prec FloatOps.emax a
               (SpecFloat.S754_infinity sb))
      with (SpecFloat.S754_infinity sb)
      by (destruct a; try discriminate; reflexivity).
    lia.
  - assert (sa = false).
    { destruct sa; [|reflexivity]. cbn [sv] in Ha. pose proof huge_pos. lia. }
    subst sa.
    replace (SpecFloat.SFadd FloatOps.prec FloatOps.emax
               (SpecFloat.S754_infinity false) b)
      with (SpecFloat.S754_infinity false)
      by (destruct b; try discriminate; reflexivity).
    cbn [sv]. pose proof (sv_range b Vb). lia.
  - destruct sa, sb; try discriminate; cbn [SpecFloat.SFadd]; lia.
Qed.

(** [q - p <= q - s] when [s <= p]. *)
Lemma SFsub_mono :
  forall q p s,
    valid q -> valid p -> valid s ->
    is_nan_spec (SpecFloat.SFsub FloatOps.prec FloatOps.emax q p) = false ->
    is_nan_spec (SpecFloat.SFsub FloatOps.prec FloatOps.emax q s) = false ->
    sv s <= sv p ->
    sv (SpecFloat.SFsub FloatOps.prec FloatOps.emax q p)
    <= sv (SpecFloat.SFsub FloatOps.prec FloatOps.emax q s).
Proof.
  intros q p s Vq Vp Vs NA NB Hsp.
  pose proof huge_pos as Hh.
  destruct (SFsub_nan q p NA) as [Nq Np].
  destruct (SFsub_nan q s NB) as [_ Ns].
  destruct (spec_cases q Nq) as [Fq|[sq ->]].
  - destruct (spec_cases p Np) as [Fp|[sp ->]];
      destruct (spec_cases s Ns) as [Fs|[ss ->]].
    + destruct (SFsub_sv q p Vq Vp Fq Fp) as [_ ->].
      destruct (SFsub_sv q s Vq Vs Fq Fs) as [_ ->].
      apply sclip_mono. lia.
    + pose proof (finite_sv_lt p Vp Fp).
      destruct ss; cbn [sv] in Hsp; [|lia].
      destruct (SFsub_sv q p Vq Vp Fq Fp) as [_ ->].
      replace (SpecFloat.SFsub FloatOps.prec FloatOps.emax q
                 (SpecFloat.S754_infinity true))
        with (SpecFloat.S754_infinity false)
        by (destruct q; try discriminate; reflexivity).
      cbn [sv]. pose proof (sclip_range (sv q - sv p)). lia.
    + pose proof (finite_sv_lt s Vs Fs).
      destruct sp; cbn [sv] in Hsp; [lia|].
      destruct (SFsub_sv q s Vq Vs Fq Fs) as [_ ->].
      replace (SpecFloat.SFsub FloatOps.prec FloatOps.emax q
                 (SpecFloat.S754_infinity false))
        with (SpecFloat.S754_infinity true)
        by (destruct q; try discriminate; reflexivity).
      cbn [sv]. pose proof (sclip_range (sv q - sv s)). lia.
    + destruct sp, ss; cbn [sv] in Hsp; try lia;
        destruct q; try discriminate; cbn [SpecFloat.SFsub negb sv]; lia.
  - replace (SpecFloat.SFsub FloatOps.prec FloatOps.emax
               (SpecFloat.S754_infinity sq) p)
      with (SpecFloat.S754_infinity sq)
      by (destruct p as [| [] | |]; destruct sq; try discriminate; reflexivity).
    replace (SpecFloat.SFsub FloatOps.prec FloatOps.emax
               (SpecFloat.S754_infinity sq) s)
      with (SpecFloat.S754_infinity sq)
      by (destruct s as [| [] | |]; destruct sq; try discriminate; reflexivity).
    lia.
Qed.

(** The square of a number. *)
Lemma SFsq_finite :
  forall a,
    valid a -> finite_spec a = true ->
    is_nan_spec (SpecFloat.SFmul FloatOps.prec FloatOps.emax a a) = false
    /\ exists P,
         0 <= P /\ sv a * sv a = P * 2 ^ scale
         /\ sv (SpecFloat.SFmul FloatOps.prec FloatOps.emax a a) = clip P.
Proof.
  intros a Va Fa.
  assert (Hs : 0 < 2 ^ scale) by (apply Z.pow_pos_nonneg; unfold scale; lia).
  destruct (SFmul_sv a a Va Va Fa Fa) as [Hn (P & HP & Hsv)].
  split; [exact Hn|]. exists P.
  assert (HP0 : 0 <= P).
  { assert (0 <= P * 2 ^ scale) by (rewrite <- HP; nia). nia. }
  split; [exact HP0|]. split; [exact HP|].
  rewrite Hsv. unfold sclip.
  destruct (Z.ltb_spec P 0); [lia|reflexivity].
Qed.

Lemma SFsq_infinity :
  forall s,
    SpecFloat.SFmul FloatOps.prec FloatOps.emax
      (SpecFloat.S754_infinity s) (SpecFloat.S754_infinity s)
    = SpecFloat.S754_infinity false.
Proof. intros []; reflexivity. Qed.

Lemma SFsq_nonneg :
  forall a,
    valid a -> is_nan_spec a = false ->
    0 <= sv (SpecFloat.SFmul FloatOps.prec FloatOps.emax a a) <= huge.
Proof.
  intros a Va Na. pose proof huge_pos.
  destruct (spec_cases a Na) as [Fa|[sa ->]].
  - destruct (SFsq_finite a Va Fa) as [_ (P & HP0 & _ & ->)].
    apply clip_range. exact HP0.
  - rewrite SFsq_infinity. cbn [sv]. lia.
Qed.

(** The square grows with the distance from zero. *)
Lemma SFsq_mono :
  forall a b,
    valid a -> valid b ->
    is_nan_spec a = false -> is_nan_spec b = false ->
    (0 <= sv b <= sv a \/ sv a <= sv b <= 0) ->
    sv (SpecFloat.SFmul FloatOps.prec FloatOps.emax b b)
    <= sv (SpecFloat.SFmul FloatOps.prec FloatOps.emax a a).
Proof.
  intros a b Va Vb Na Nb Hab. pose proof huge_pos as Hh.
  assert (Hs : 0 < 2 ^ scale) by (apply Z.pow_pos_nonneg; unfold scale; lia).
  destruct (spec_cases a Na) as [Fa|[sa ->]].
  - assert (Fb : finite_spec b = true).
    { destruct (spec_cases b Nb) as [Fb|[sb ->]]; [exact Fb|].
      pose proof (finite_sv_lt a Va Fa). destruct sb; cbn [sv] in Hab; lia. }
    destruct (SFsq_finite a Va Fa) as [_ (Pa & Ha0 & HPa & ->)].
    destruct (SFsq_finite b Vb Fb) as [_ (Pb & Hb0 & HPb & ->)].
    apply clip_mono. split; [exact Hb0|].
    assert (sv b * sv b <= sv a * sv a) by nia.
    rewrite HPa, HPb in H. nia.
  - rewrite SFsq_infinity. cbn [sv].
    apply (SFsq_nonneg b Vb Nb).
Qed.

(** ** The laws of binary64 arithmetic that the searches rest on *)

Lemma sub_parts :
  forall x y : float,
    PrimFloat.is_nan (x - y)%float = false ->
    is_nan_spec (SpecFloat.SFsub FloatOps.prec FloatOps.emax
                   (FloatOps.Prim2SF x) (FloatOps.Prim2SF y)) = false.
Proof.
  intros x y H. rewrite <- Prim2SF_nan, FloatAxioms.sub_spec in H. exact H.
Qed.

Lemma b64_sq_nonneg :
  forall x : float, (x * x <? 0)%float = false.
Proof.
  intros x. apply ltb_false_sv.
  destruct (PrimFloat.is_nan (x * x)%float) eqn:N; [tauto|].
  right. right. rewrite Prim2SF_zero. cbn [sv].
  destruct (b64_mul_nan x x N) as [Nx _].
  rewrite FloatAxioms.mul_spec.
  apply SFsq_nonneg; [apply Prim2SF_ok|]. rewrite Prim2SF_nan. exact Nx.
Qed.

Lemma b64_add_le_l :
  forall x y : float,
    (y <? 0)%float = false -> (x + y <? x)%float = false.
Proof.
  intros x y H. apply ltb_false_sv.
  destruct (PrimFloat.is_nan (x + y)%float) eqn:N; [tauto|].
  destruct (b64_add_nan x y N) as [Nx Ny].
  right. right.
  apply ltb_false_sv in H. rewrite Prim2SF_zero in H. cbn [sv] in H.
  destruct H as [H|[H|H]]; [congruence|discriminate|].
  rewrite FloatAxioms.add_spec.
  apply SFadd_ge_l; try apply Prim2SF_ok; [|exact H].
  rewrite <- Prim2SF_nan, FloatAxioms.add_spec in N. exact N.
Qed.

Lemma b64_add_le_r :
  forall x y : float,
    (x <? 0)%float = false -> (x + y <? y)%float = false.
Proof.
  intros x y H. apply ltb_false_sv.
  destruct (PrimFloat.is_nan (x + y)%float) eqn:N; [tauto|].
  destruct (b64_add_nan x y N) as [Nx Ny].
  right. right.
  apply ltb_false_sv in H. rewrite Prim2SF_zero in H. cbn [sv] in H.
  destruct H as [H|[H|H]]; [congruence|discriminate|].
  rewrite FloatAxioms.add_spec.
  apply SFadd_ge_r; try apply Prim2SF_ok; [|exact H].
  rewrite <- Prim2SF_nan, FloatAxioms.add_spec in N. exact N.
Qed.

Lemma b64_sq_mono_below :
  forall q s p : float,
    (q - s <? 0)%float = true -> (p <? s)%float = false ->
    ((q - p) * (q - p) <? (q - s) * (q - s))%float = false.
Proof.
  intros q s p H1 H2. apply ltb_false_sv.
  destruct (PrimFloat.is_nan ((q - p) * (q - p))%float) eqn:NX; [tauto|].
  destruct (PrimFloat.is_nan ((q - s) * (q - s))%float) eqn:NY; [tauto|].
  right. right.
  destruct (b64_mul_nan _ _ NX) as [NA _].
  destruct (b64_mul_nan _ _ NY) as [NB _].
  destruct (b64_sub_nan _ _ NA) as [Nq Np].
  destruct (b64_sub_nan _ _ NB) as [_ Ns].
  apply ltb_true_sv in H1. destruct H1 as (_ & _ & H1).
  rewrite Prim2SF_zero in H1. cbn [sv] in H1.
  apply ltb_false_sv in H2. destruct H2 as [H2|[H2|H2]]; try congruence.
  rewrite !FloatAxioms.mul_spec.
  apply SFsq_mono; try apply Prim2SF_ok;
    try (rewrite Prim2SF_nan; assumption).
  right. split; [|lia].
  rewrite !FloatAxioms.sub_spec in *.
  apply SFsub_mono; try apply Prim2SF_ok; try assumption.
  - rewrite <- FloatAxioms.sub_spec, Prim2SF_nan. exact NA.
  - rewrite <- FloatAxioms.sub_spec, Prim2SF_nan. exact NB.
Qed.

Lemma b64_sq_mono_above :
  forall q s p : float,
    (q - s <? 0)%float = false -> (s <? p)%float = false ->
    ((q - p) * (q - p) <? (q - s) * (q - s))%float = false.
Proof.
  intros q s p H1 H2. apply ltb_false_sv.
  destruct (PrimFloat.is_nan ((q - p) * (q - p))%float) eqn:NX; [tauto|].
  destruct (PrimFloat.is_nan ((q - s) * (q - s))%float) eqn:NY; [tauto|].
  right. right.
  destruct (b64_mul_nan _ _ NX) as [NA _].
  destruct (b64_mul_nan _ _ NY) as [NB _].
  destruct (b64_sub_nan _ _ NA) as [Nq Np].
  destruct (b64_sub_nan _ _ NB) as [_ Ns].
  apply ltb_false_sv in H1. destruct H1 as [H1|[H1|H1]]; try congruence;
    [discriminate|].
  rewrite Prim2SF_zero in H1. cbn [sv] in H1.
  apply ltb_false_sv in H2. destruct H2 as [H2|[H2|H2]]; try congruence.
  rewrite !FloatAxioms.mul_spec.
  apply SFsq_mono; try apply Prim2SF_ok;
    try (rewrite Prim2SF_nan; assumption).
  left. split; [lia|].
  rewrite !FloatAxioms.sub_spec in *.
  apply SFsub_mono; try apply Prim2SF_ok; try assumption.
  - rewrite <- FloatAxioms.sub_spec, Prim2SF_nan. exact NB.
  - rewrite <- FloatAxioms.sub_spec, Prim2SF_nan. exact NA.
Qed.

(** ** Shifting a mantissa whose value is not exact *)

Lemma shr_iter_loc :
  forall (m : Z) (r0 s0 : bool) (k : nat),
    0 <= m ->
    Nat.iter (S k) SpecFloat.shr_1 (SpecFloat.Build_shr_record m r0 s0)
    = SpecFloat.Build_shr_record (m / 2 ^ Z.of_nat (S k))
        (Z.odd (m / 2 ^ Z.of_nat k))
        (negb (m mod 2 ^ Z.of_nat k =? 0) || (r0 || s0)).
Proof.
  intros m r0 s0 k Hm. induction k as [|k IH].
  - cbn [Nat.iter]. rewrite shr_1_nonneg by exact Hm.
    change (2 ^ Z.of_nat 1) with 2. change (2 ^ Z.of_nat 0) with 1.
    rewrite Z.div_1_r, Z.mod_1_r. reflexivity.
  - rewrite Nat.iter_succ, IH.
    assert (Hp : 0 < 2 ^ Z.of_nat k) by (apply Z.pow_pos_nonneg; lia).
    assert (Hq : 0 <= m / 2 ^ Z.of_nat (S k))
      by (apply Z.div_pos; [lia|apply Z.pow_pos_nonneg; lia]).
    rewrite shr_1_nonneg by exact Hq.
    assert (E2 : 2 ^ Z.of_nat (S k) = 2 ^ Z.of_nat k * 2).
    { rewrite Nat2Z.inj_succ, Z.pow_succ_r by lia. lia. }
    assert (E3 : 2 ^ Z.of_nat (S (S k)) = 2 ^ Z.of_nat (S k) * 2).
    { rewrite (Nat2Z.inj_succ (S k)), Z.pow_succ_r by lia. lia. }
    f_equal.
    + rewrite E3, Z.div_div by lia. reflexivity.
    + rewrite E2. rewrite Z.rem_mul_r by lia.
      pose proof (Z.mod_pos_bound m (2 ^ Z.of_nat k) Hp) as Hr.
      pose proof (Z.mod_pos_bound (m / 2 ^ Z.of_nat k) 2 ltac:(lia)) as Hb.
      rewrite odd_eqb.
      destruct (Z.eqb_spec (m mod 2 ^ Z.of_nat k) 0) as [E0|N0];
        destruct (Z.eqb_spec ((m / 2 ^ Z.of_nat k) mod 2) 1) as [E1|N1];
        cbn [negb orb];
        match goal with
        | |- _ = negb (?x =? 0) || _ => destruct (Z.eqb_spec x 0)
        end; cbn [negb orb]; try reflexivity; nia.
Qed.

Lemma record_of_loc_bits :
  forall m l,
    exists r0 s0,
      SpecFloat.shr_record_of_loc m l = SpecFloat.Build_shr_record m r0 s0
      /\ r0 || s0 = inexact l.
Proof.
  intros m [|[]]; cbn; eauto.
Qed.

Lemma shr_round_loc :
  forall (M E n : Z) (l : SpecFloat.location),
    0 <= M -> 0 < n ->
    exists rec,
      SpecFloat.shr (SpecFloat.shr_record_of_loc M l) E n = (rec, E + n)
      /\ SpecFloat.round_nearest_even (SpecFloat.shr_m rec)
           (SpecFloat.loc_of_shr_record rec) = rne_loc M (inexact l) n.
Proof.
  intros M E n l HM Hn. destruct n as [|p|p]; try lia.
  destruct (record_of_loc_bits M l) as (r0 & s0 & -> & Hi).
  cbn [SpecFloat.shr]. rewrite iter_pos_nat.
  destruct (Pos.to_nat p) as [|k] eqn:Ek; [lia|].
  assert (En : Z.pos p = Z.of_nat (S k)) by lia.
  rewrite En. rewrite shr_iter_loc by exact HM. rewrite Hi.
  eexists. split; [reflexivity|]. cbn [SpecFloat.shr_m].
  assert (Hp : 0 < 2 ^ Z.of_nat k) by (apply Z.pow_pos_nonneg; lia).
  assert (E2 : 2 ^ Z.of_nat (S k) = 2 ^ Z.of_nat k * 2).
  { rewrite Nat2Z.inj_succ, Z.pow_succ_r by lia. lia. }
  unfold rne_loc. cbv zeta.
  set (q := M / 2 ^ Z.of_nat (S k)).
  assert (Er : M mod 2 ^ Z.of_nat (S k)
               = M mod 2 ^ Z.of_nat k
                 + 2 ^ Z.of_nat k * ((M / 2 ^ Z.of_nat k) mod 2)).
  { rewrite E2. apply Z.rem_mul_r; lia. }
  rewrite Er, E2.
  pose proof (Z.mod_pos_bound M (2 ^ Z.of_nat k) Hp) as Hlow.
  pose proof (Z.mod_pos_bound (M / 2 ^ Z.of_nat k) 2 ltac:(lia)) as Hb.
  rewrite odd_eqb.
  set (low := M mod 2 ^ Z.of_nat k) in *.
  set (b := (M / 2 ^ Z.of_nat k) mod 2) in *.
  set (h := 2 ^ Z.of_nat k) in *.
  destruct (Z.eqb_spec b 1) as [B1|B0];
    destruct (Z.eqb_spec low 0) as [L0|L1];
    destruct (inexact l);
    cbn [negb orb andb SpecFloat.loc_of_shr_record
         SpecFloat.round_nearest_even].
  - rewrite B1, L0.
    destruct (Z.ltb_spec (2 * (0 + h * 1)) (h * 2)); [lia|].
    rewrite andb_false_r. reflexivity.
  - rewrite B1, L0.
    destruct (Z.ltb_spec (2 * (0 + h * 1)) (h * 2)); [lia|].
    destruct (Z.eqb_spec (2 * (0 + h * 1)) (h * 2)); [reflexivity|lia].
  - rewrite B1.
    destruct (Z.ltb_spec (2 * (low + h * 1)) (h * 2)); [lia|].
    rewrite andb_false_r. reflexivity.
  - rewrite B1.
    destruct (Z.ltb_spec (2 * (low + h * 1)) (h * 2)); [lia|].
    destruct (Z.eqb_spec (2 * (low + h * 1)) (h * 2)); [lia|reflexivity].
  - assert (Hb0 : b = 0) by lia. rewrite Hb0, L0.
    destruct (Z.ltb_spec (2 * (0 + h * 0)) (h * 2)); [reflexivity|lia].
  - assert (Hb0 : b = 0) by lia. rewrite Hb0, L0.
    destruct (Z.ltb_spec (2 * (0 + h * 0)) (h * 2)); [reflexivity|lia].
  - assert (Hb0 : b = 0) by lia. rewrite Hb0.
    destruct (Z.ltb_spec (2 * (low + h * 0)) (h * 2)); [reflexivity|lia].
  - assert (Hb0 : b = 0) by lia. rewrite Hb0.
    destruct (Z.ltb_spec (2 * (low + h * 0)) (h * 2)); [reflexivity|lia].
Qed.

(** ** Rounding of a square root *)

Lemma pick_bounds : forall W hh k, k <= pick W hh k <= k + 1.
Proof.
  intros W hh k. unfold pick.
  destruct (W <? hh); [lia|]. destruct (W =? hh); [|lia].
  destruct (Z.even k); lia.
Qed.

Lemma pick_mono :
  forall W1 W2 hh k, W1 <= W2 -> pick W1 hh k <= pick W2 hh k.
Proof.
  intros W1 W2 hh k H. unfold pick.
  destruct (Z.ltb_spec W1 hh); destruct (Z.ltb_spec W2 hh); try lia;
    destruct (Z.eqb_spec W1 hh); destruct (Z.eqb_spec W2 hh); try lia;
    destruct (Z.even k); lia.
Qed.

Lemma binade_step :
  forall r1 r2 g1 g2,
    0 <= g1 < g2 -> r1 <= 2 ^ 53 -> 2 ^ 52 <= r2 ->
    r1 * 2 ^ g1 <= r2 * 2 ^ g2.
Proof.
  intros r1 r2 g1 g2 Hg Hr1 Hr2.
  replace g2 with (g1 + (g2 - g1)) by lia.
  rewrite Z.pow_add_r by lia.
  assert (Hp : 0 < 2 ^ g1) by (apply Z.pow_pos_nonneg; lia).
  assert (Hd : 2 <= 2 ^ (g2 - g1)).
  { change 2 with (2 ^ 1) at 1. apply Z.pow_le_mono_r; lia. }
  set (d := 2 ^ (g2 - g1)) in *. set (p := 2 ^ g1) in *.
  change (2 ^ 53) with (2 * 2 ^ 52) in Hr1.
  set (h := 2 ^ 52) in *.
  assert (Hh : 0 < h) by (unfold h; lia).
  assert (S1 : r1 * p <= (2 * h) * p)
    by (apply Z.mul_le_mono_nonneg_r; lia).
  assert (S2 : 2 * h <= r2 * d) by nia.
  assert (S3 : (2 * h) * p <= (r2 * d) * p)
    by (apply Z.mul_le_mono_nonneg_r; lia).
  lia.
Qed.

Lemma sqrt_rnd_mono :
  forall W1 W2, 0 <= W1 <= W2 -> sqrt_rnd W1 <= sqrt_rnd W2.
Proof.
  intros W1 W2 [H1 H2]. unfold sqrt_rnd. cbv zeta.
  pose proof (Z.sqrt_le_mono W1 W2 H2) as Hs.
  pose proof (Z.sqrt_nonneg W1) as Hs1.
  set (s1 := Z.sqrt W1) in *. set (s2 := Z.sqrt W2) in *.
  pose proof (ulp_exp_mono s1 s2 ltac:(lia)) as Hg.
  pose proof (ulp_exp_pos s1) as Hg1.
  set (g1 := ulp_exp s1) in *. set (g2 := ulp_exp s2) in *.
  assert (Hp1 : 0 < 2 ^ g1) by (apply Z.pow_pos_nonneg; lia).
  assert (Hp2 : 0 < 2 ^ g2) by (apply Z.pow_pos_nonneg; lia).
  set (k1 := s1 / 2 ^ g1). set (k2 := s2 / 2 ^ g2).
  assert (Hk1 : 0 <= k1) by (apply Z.div_pos; lia).
  assert (Hk2 : 0 <= k2) by (apply Z.div_pos; lia).
  set (hh1 := (2 * k1 + 1) * 2 ^ (g1 - 1) * ((2 * k1 + 1) * 2 ^ (g1 - 1))).
  set (hh2 := (2 * k2 + 1) * 2 ^ (g2 - 1) * ((2 * k2 + 1) * 2 ^ (g2 - 1))).
  pose proof (pick_bounds W1 hh1 k1) as Hu1.
  pose proof (pick_bounds W2 hh2 k2) as Hu2.
  destruct (Z.eq_dec g1 g2) as [E|N].
  - apply Z.mul_le_mono_nonneg; try lia. 2:{ rewrite E. lia. }
    assert (Hk : k1 <= k2).
    { unfold k1, k2. rewrite <- E. apply Z.div_le_mono; lia. }
    destruct (Z.eq_dec k1 k2) as [Ek|Nk]; [|lia].
    assert (Eh : hh2 = hh1) by (unfold hh1, hh2; rewrite <- E, <- Ek; reflexivity).
    rewrite Eh, <- Ek. apply pick_mono. exact H2.
  - assert (Hlt : g1 < g2) by lia.
    apply binade_step; [lia| |].
    + pose proof (below_ulp s1 Hs1) as Hb. fold g1 in Hb.
      assert (k1 < 2 ^ 53); [|lia].
      apply Z.div_lt_upper_bound; [lia|].
      rewrite <- Z.pow_add_r by lia. exact Hb.
    + assert (Hg2 : g2 = Z.log2 s2 + 1 - 53)
        by (unfold g2, ulp_exp in *; lia).
      assert (Hv2 : 0 < s2).
      { destruct (Z.eq_dec s2 0) as [E0|]; [|lia].
        unfold g2, ulp_exp in Hlt. rewrite E0 in Hlt. cbn in Hlt. lia. }
      pose proof (Z.log2_spec s2 Hv2) as [Hlo _].
      assert (2 ^ 52 <= k2); [|lia].
      apply Z.div_le_lower_bound; [lia|].
      rewrite <- Z.pow_add_r by lia.
      replace (g2 + 52) with (Z.log2 s2) by lia. exact Hlo.
Qed.

Lemma sqrt_scaled_bounds :
  forall m' q r c,
    0 <= q -> m' = q * q + r -> 0 <= r <= 2 * q -> 0 < c ->
    q * c <= Z.sqrt (m' * c * c) < (q + 1) * c.
Proof.
  intros m' q r c Hq Hm Hr Hc.
  assert (HW : 0 <= m' * c * c) by nia.
  split.
  - apply Z.sqrt_le_square; nia.
  - apply Z.sqrt_lt_square; nia.
Qed.

Lemma log2_between :
  forall q j s0,
    0 < q -> 0 <= j -> q * 2 ^ j <= s0 < (q + 1) * 2 ^ j ->
    Z.log2 s0 = Z.log2 q + j.
Proof.
  intros q j s0 Hq Hj [Hlo Hhi].
  pose proof (Z.log2_spec q Hq) as [Ha Hb].
  pose proof (Z.log2_nonneg q) as Hl.
  assert (Hp : 0 < 2 ^ j) by (apply Z.pow_pos_nonneg; lia).
  apply Z.log2_unique; [lia|].
  rewrite Z.pow_succ_r, !Z.pow_add_r by lia.
  rewrite Z.pow_succ_r in Hb by lia.
  set (a := 2 ^ Z.log2 q) in *. set (p := 2 ^ j) in *.
  split; nia.
Qed.

Lemma sqrt_scaled_div :
  forall m' q r j n,
    0 <= q -> m' = q * q + r -> 0 <= r <= 2 * q -> 0 <= j -> 0 <= n ->
    Z.sqrt (m' * 2 ^ j * 2 ^ j) / 2 ^ (n + j) = q / 2 ^ n.
Proof.
  intros m' q r j n Hq Hm Hr Hj Hn.
  assert (Hp : 0 < 2 ^ j) by (apply Z.pow_pos_nonneg; lia).
  assert (Hpn : 0 < 2 ^ n) by (apply Z.pow_pos_nonneg; lia).
  pose proof (sqrt_scaled_bounds m' q r (2 ^ j) Hq Hm Hr Hp) as [Hlo Hhi].
  rewrite Z.add_comm, Z.pow_add_r by lia.
  rewrite <- Z.div_div by lia. f_equal.
  symmetry.
  apply (Z.div_unique _ _ _ (Z.sqrt (m' * 2 ^ j * 2 ^ j) - q * 2 ^ j)); lia.
Qed.

Lemma sqrt_pick_shift :
  forall m' q r j n,
    1 <= q -> m' = q * q + r -> 0 <= r <= 2 * q -> 0 <= j -> 1 <= n ->
    pick (m' * 2 ^ j * 2 ^ j)
      ((2 * (q / 2 ^ n) + 1) * 2 ^ (n + j - 1)
       * ((2 * (q / 2 ^ n) + 1) * 2 ^ (n + j - 1)))
      (q / 2 ^ n)
    = rne_loc q (negb (r =? 0)) n.
Proof.
  intros m' q r j n Hq Hm Hr Hj Hn.
  assert (Hc : 0 < 2 ^ j) by (apply Z.pow_pos_nonneg; lia).
  assert (Hp : 0 < 2 ^ (n - 1)) by (apply Z.pow_pos_nonneg; lia).
  assert (EP : 2 ^ n = 2 * 2 ^ (n - 1)).
  { replace n with (Z.succ (n - 1)) at 1 by lia.
    apply Z.pow_succ_r. lia. }
  assert (Eh : 2 ^ (n + j - 1) = 2 ^ (n - 1) * 2 ^ j).
  { replace (n + j - 1) with ((n - 1) + j) by lia. apply Z.pow_add_r; lia. }
  unfold rne_loc, pick. cbv zeta. rewrite Eh, EP.
  pose proof (Z.div_mod q (2 * 2 ^ (n - 1)) ltac:(lia)) as Hdm.
  pose proof (Z.mod_pos_bound q (2 * 2 ^ (n - 1)) ltac:(lia)) as Hrem.
  set (k := q / (2 * 2 ^ (n - 1))) in *.
  set (rem := q mod (2 * 2 ^ (n - 1))) in *.
  set (p := 2 ^ (n - 1)) in *. set (c := 2 ^ j) in *.
  assert (Hk : 0 <= k) by (unfold k; apply Z.div_pos; lia).
  set (H := 2 * p * k + p).
  assert (EH : (2 * k + 1) * (p * c) * ((2 * k + 1) * (p * c))
               = H * H * (c * c)) by (unfold H; ring).
  rewrite EH.
  assert (EW : m' * c * c = m' * (c * c)) by ring.
  rewrite EW.
  assert (Hcc : 0 < c * c) by nia.
  assert (Hq' : q = H - p + rem) by (unfold H; lia).
  destruct (Z.ltb_spec (2 * rem) (2 * p)) as [L|G].
  - (* below the point half way *)
    assert (m' < H * H) by nia.
    destruct (Z.ltb_spec (m' * (c * c)) (H * H * (c * c))); [reflexivity|].
    exfalso. nia.
  - destruct (Z.eqb_spec (2 * rem) (2 * p)) as [E|N].
    + assert (q = H) by lia.
      destruct (Z.eqb_spec r 0) as [R0|R1]; cbn [negb andb].
      * assert (m' = H * H) by nia.
        destruct (Z.ltb_spec (m' * (c * c)) (H * H * (c * c))); [nia|].
        destruct (Z.eqb_spec (m' * (c * c)) (H * H * (c * c)));
          [reflexivity|nia].
      * assert (H * H < m') by nia.
        destruct (Z.ltb_spec (m' * (c * c)) (H * H * (c * c))); [nia|].
        destruct (Z.eqb_spec (m' * (c * c)) (H * H * (c * c)));
          [nia|reflexivity].
    + cbn [andb].
      assert (H * H < m') by nia.
      destruct (Z.ltb_spec (m' * (c * c)) (H * H * (c * c))); [nia|].
      destruct (Z.eqb_spec (m' * (c * c)) (H * H * (c * c)));
        [nia|reflexivity].
Qed.

Lemma sqrt_pick_noshift :
  forall m' q r j,
    1 <= q -> m' = q * q + r -> 0 <= r <= 2 * q -> 1 <= j ->
    pick (m' * 2 ^ j * 2 ^ j)
      ((2 * q + 1) * 2 ^ (j - 1) * ((2 * q + 1) * 2 ^ (j - 1))) q
    = if r <=? q then q else q + 1.
Proof.
  intros m' q r j Hq Hm Hr Hj.
  assert (Hp : 0 < 2 ^ (j - 1)) by (apply Z.pow_pos_nonneg; lia).
  assert (EP : 2 ^ j = 2 * 2 ^ (j - 1)).
  { replace j with (Z.succ (j - 1)) at 1 by lia.
    apply Z.pow_succ_r. lia. }
  rewrite EP. set (c := 2 ^ (j - 1)) in *.
  unfold pick.
  assert (EW : m' * (2 * c) * (2 * c) = (4 * m') * (c * c)) by ring.
  assert (EH : (2 * q + 1) * c * ((2 * q + 1) * c)
               = ((2 * q + 1) * (2 * q + 1)) * (c * c)) by ring.
  rewrite EW, EH.
  assert (Hcc : 0 < c * c) by nia.
  destruct (Z.leb_spec r q) as [L|G].
  - assert (4 * m' < (2 * q + 1) * (2 * q + 1)) by nia.
    destruct (Z.ltb_spec (4 * m' * (c * c))
                ((2 * q + 1) * (2 * q + 1) * (c * c))); [reflexivity|nia].
  - assert ((2 * q + 1) * (2 * q + 1) < 4 * m') by nia.
    destruct (Z.ltb_spec (4 * m' * (c * c))
                ((2 * q + 1) * (2 * q + 1) * (c * c))); [nia|].
    destruct (Z.eqb_spec (4 * m' * (c * c))
                ((2 * q + 1) * (2 * q + 1) * (c * c))); [nia|reflexivity].
Qed.

(** The square root of a value has half its digits. *)
Lemma log2_sqrt :
  forall m' q r,
    1 <= q -> m' = q * q + r -> 0 <= r <= 2 * q ->
    Z.log2 q = Z.div2 (Z.log2 m').
Proof.
  intros m' q r Hq Hm Hr.
  pose proof (Z.log2_spec q ltac:(lia)) as [Ha Hb].
  pose proof (Z.log2_nonneg q) as Hl.
  set (a := Z.log2 q) in *.
  assert (Hlo : 2 * a <= Z.log2 m').
  { apply Z.log2_le_pow2; [nia|].
    replace (2 * a) with (a + a) by lia. rewrite Z.pow_add_r by lia. nia. }
  assert (Hhi : Z.log2 m' < 2 * a + 2).
  { apply Z.log2_lt_pow2; [nia|].
    replace (2 * a + 2) with (Z.succ a + Z.succ a) by lia.
    rewrite Z.pow_add_r by lia. nia. }
  rewrite Z.div2_div.
  pose proof (Z.div_mod (Z.log2 m') 2 ltac:(lia)) as Hd.
  pose proof (Z.mod_pos_bound (Z.log2 m') 2 ltac:(lia)) as Hb2.
  lia.
Qed.

(** [binary_round_aux] is a shift to the format, a rounding to nearest
    even and [finish]. *)
Lemma round_aux_finish_loc :
  forall s M E l,
    SpecFloat.binary_round_aux FloatOps.prec FloatOps.emax s M E l
    = let '(mrs, e1) :=
        SpecFloat.shr_fexp FloatOps.prec FloatOps.emax M E l in
      finish s (SpecFloat.round_nearest_even (SpecFloat.shr_m mrs)
                  (SpecFloat.loc_of_shr_record mrs)) e1.
Proof. reflexivity. Qed.

Lemma loc_of_record_of_loc :
  forall m l,
    SpecFloat.loc_of_shr_record (SpecFloat.shr_record_of_loc m l) = l
    /\ SpecFloat.shr_m (SpecFloat.shr_record_of_loc m l) = m.
Proof. intros m [|[]]; split; reflexivity. Qed.

(** The square root of a positive number is the rounding [sqrt_rnd] of
    the root of its scaled value. *)
Lemma SFsqrt_sv :
  forall (m : positive) (e : Z),
    valid (SpecFloat.S754_finite false m e) ->
    is_nan_spec (SpecFloat.SFsqrt FloatOps.prec FloatOps.emax
                   (SpecFloat.S754_finite false m e)) = false
    /\ sv (SpecFloat.SFsqrt FloatOps.prec FloatOps.emax
             (SpecFloat.S754_finite false m e))
       = Z.min (sqrt_rnd (Z.pos m * 2 ^ (e + scale) * 2 ^ scale)) huge.
Proof.
  intros m e V.
  pose proof (valid_finite_range _ _ _ V) as (He & Hm53 & _).
  pose proof (Z.log2_spec (Z.pos m) ltac:(lia)) as [Hmlo Hmhi].
  pose proof (Z.log2_nonneg (Z.pos m)) as Hml0.
  assert (Hml : Z.log2 (Z.pos m) <= 52).
  { destruct (Z_le_gt_dec (Z.log2 (Z.pos m)) 52) as [|Hgt]; [assumption|].
    exfalso.
    assert (2 ^ 53 <= 2 ^ Z.log2 (Z.pos m)) by (apply Z.pow_le_mono_r; lia).
    lia. }
  cbn [SpecFloat.SFsqrt]. unfold SpecFloat.SFsqrt_core_binary.
  rewrite fexp_53. cbn [SpecFloat.Zdigits2]. rewrite digits2_pos_log2.
  set (d := Z.log2 (Z.pos m) + 1) in *.
  set (e' := Z.min (fexp53 (Z.div2 (d + e + 1))) (Z.div2 e)).
  assert (He'1 : e' <= fexp53 (Z.div2 (d + e + 1))) by (unfold e'; lia).
  assert (He'2 : 2 * e' <= e).
  { assert (2 * Z.div2 e <= e) by (rewrite Z.div2_div; apply Z.mul_div_le; lia).
    unfold e'. lia. }
  assert (He'3 : -1074 <= e').
  { assert (-537 <= Z.div2 e)
      by (rewrite Z.div2_div; apply Z.div_le_lower_bound; lia).
    unfold e', fexp53. lia. }
  set (m' := match e - 2 * e' with
             | 0 => Z.pos m
             | Z.pos _ => Z.shiftl (Z.pos m) (e - 2 * e')
             | Z.neg _ => 0
             end).
  assert (Em' : m' = Z.pos m * 2 ^ (e - 2 * e')).
  { unfold m'. destruct (e - 2 * e') as [|p|p] eqn:Es; try lia.
    - rewrite Z.shiftl_mul_pow2 by lia. reflexivity. }
  assert (Hm'pos : 1 <= m').
  { rewrite Em'.
    assert (0 < 2 ^ (e - 2 * e')) by (apply Z.pow_pos_nonneg; lia). nia. }
  pose proof (Z.sqrtrem_spec m' ltac:(lia)) as Hsq.
  destruct (Z.sqrtrem m') as [q r] eqn:Esq.
  destruct Hsq as [Hqr Hr].
  assert (Hq : 1 <= q) by nia.
  rewrite round_aux_finish_loc. unfold SpecFloat.shr_fexp. rewrite fexp_53.
  destruct q as [|pq|pq] eqn:Eq; try lia. rewrite <- Eq in *.
  assert (Edq : SpecFloat.Zdigits2 q = Z.log2 q + 1)
    by (rewrite Eq; cbn [SpecFloat.Zdigits2]; apply digits2_pos_log2).
  rewrite Edq.
  (* the exponent of the result *)
  assert (Elq : Z.log2 q = Z.div2 (Z.log2 (Z.pos m) + (e - 2 * e'))).
  { rewrite (log2_sqrt m' q r Hq Hqr Hr). rewrite Em'.
    rewrite Z.log2_mul_pow2 by lia. f_equal. lia. }
  assert (Ee1 : Z.log2 q + 1 + e' = Z.div2 (d + e + 1)).
  { rewrite Elq. unfold d. rewrite !Z.div2_div.
    replace (Z.log2 (Z.pos m) + 1 + e + 1)
      with ((Z.log2 (Z.pos m) + (e - 2 * e')) + (1 + e') * 2) by lia.
    rewrite Z.div_add by lia. lia. }
  rewrite Ee1.
  set (e1 := fexp53 (Z.div2 (d + e + 1))) in *.
  assert (He1 : -1074 <= e1) by (unfold e1, fexp53; lia).
  assert (He1' : e1 <= 971).
  { assert (Z.div2 (d + e + 1) <= 512).
    { rewrite Z.div2_div.
      pose proof (Z.div_mod (d + e + 1) 2 ltac:(lia)).
      pose proof (Z.mod_pos_bound (d + e + 1) 2 ltac:(lia)).
      unfold d in *. lia. }
    unfold e1, fexp53. lia. }
  set (n := e1 - e') in *.
  assert (En : n = e1 - e') by reflexivity. clearbody n.
  set (j := e' + scale).
  assert (Hj : 1 <= j) by (unfold j, scale; lia).
  (* the scaled value *)
  assert (EW : Z.pos m * 2 ^ (e + scale) * 2 ^ scale = m' * 2 ^ j * 2 ^ j).
  { rewrite Em'. rewrite <- !Z.mul_assoc. f_equal.
    rewrite <- !Z.pow_add_r by (unfold j, scale; lia).
    f_equal. unfold j. lia. }
  rewrite EW.
  assert (Hc : 0 < 2 ^ j) by (apply Z.pow_pos_nonneg; lia).
  pose proof (sqrt_scaled_bounds m' q r (2 ^ j) ltac:(lia) Hqr Hr Hc)
    as Hs0.
  assert (Eg : ulp_exp (Z.sqrt (m' * 2 ^ j * 2 ^ j)) = n + j).
  { unfold ulp_exp.
    rewrite (log2_between q j _ ltac:(lia) ltac:(lia) Hs0).
    unfold j, e1, fexp53, scale in *. rewrite <- Ee1 in *. lia. }
  assert (Hn : 0 <= n) by lia.
  assert (Ek : Z.sqrt (m' * 2 ^ j * 2 ^ j) / 2 ^ (n + j) = q / 2 ^ n)
    by (apply (sqrt_scaled_div m' q r); lia).
  assert (Esr : sqrt_rnd (m' * 2 ^ j * 2 ^ j)
                = pick (m' * 2 ^ j * 2 ^ j)
                    ((2 * (q / 2 ^ n) + 1) * 2 ^ (n + j - 1)
                     * ((2 * (q / 2 ^ n) + 1) * 2 ^ (n + j - 1)))
                    (q / 2 ^ n) * 2 ^ (n + j)).
  { unfold sqrt_rnd. cbv zeta. rewrite Eg, Ek. reflexivity. }
  rewrite Esr.
  (* the mantissa before rounding is below 2^53 *)
  pose proof (Z.log2_spec q ltac:(lia)) as [Hqlo Hqhi].
  pose proof (Z.log2_nonneg q) as Hql0.
  assert (Hpn : 0 < 2 ^ n) by (apply Z.pow_pos_nonneg; lia).
  assert (Hk53 : q / 2 ^ n < 2 ^ 53).
  { apply Z.div_lt_upper_bound; [lia|].
    rewrite <- Z.pow_add_r by lia.
    eapply Z.lt_le_trans; [exact Hqhi|]. apply Z.pow_le_mono_r; [lia|].
    unfold e1, fexp53 in *. rewrite <- Ee1 in *. lia. }
  assert (Hk0 : 0 <= q / 2 ^ n) by (apply Z.div_pos; lia).
  pose proof (pick_bounds (m' * 2 ^ j * 2 ^ j)
                ((2 * (q / 2 ^ n) + 1) * 2 ^ (n + j - 1)
                 * ((2 * (q / 2 ^ n) + 1) * 2 ^ (n + j - 1)))
                (q / 2 ^ n)) as Hpick.
  assert (Hfin : forall m1,
            m1 = pick (m' * 2 ^ j * 2 ^ j)
                   ((2 * (q / 2 ^ n) + 1) * 2 ^ (n + j - 1)
                    * ((2 * (q / 2 ^ n) + 1) * 2 ^ (n + j - 1)))
                   (q / 2 ^ n) ->
            is_nan_spec (finish false m1 e1) = false
            /\ sv (finish false m1 e1)
               = Z.min (pick (m' * 2 ^ j * 2 ^ j)
                          ((2 * (q / 2 ^ n) + 1) * 2 ^ (n + j - 1)
                           * ((2 * (q / 2 ^ n) + 1) * 2 ^ (n + j - 1)))
                          (q / 2 ^ n) * 2 ^ (n + j)) huge).
  { intros m1 ->.
    destruct (finish_sv false
                (pick (m' * 2 ^ j * 2 ^ j)
                   ((2 * (q / 2 ^ n) + 1) * 2 ^ (n + j - 1)
                    * ((2 * (q / 2 ^ n) + 1) * 2 ^ (n + j - 1)))
                   (q / 2 ^ n)) e1) as [Hnan Hsv]; [lia|lia|lia|].
    split; [exact Hnan|]. rewrite Hsv. cbn [signed].
    replace (e1 + scale) with (n + j) by (unfold j; lia). reflexivity. }
  destruct (Z.eq_dec n 0) as [N0|N1].
  - (* no shift *)
    assert (Ee : e1 = e') by lia.
    rewrite N0 in Hfin |- *. cbn [SpecFloat.shr].
    destruct (loc_of_record_of_loc q
                (if r =? 0 then SpecFloat.loc_Exact
                 else SpecFloat.loc_Inexact (if r <=? q then Lt else Gt)))
      as [-> ->].
    rewrite <- Ee. apply Hfin.
    rewrite Z.pow_0_r, Z.div_1_r. rewrite Z.add_0_l.
    rewrite (sqrt_pick_noshift m' q r j Hq Hqr Hr Hj).
    destruct (Z.eqb_spec r 0) as [R0|R1];
      destruct (Z.leb_spec r q); cbn [SpecFloat.round_nearest_even];
      try reflexivity; lia.
  - destruct (shr_round_loc q e' n
                (if r =? 0 then SpecFloat.loc_Exact
                 else SpecFloat.loc_Inexact (if r <=? q then Lt else Gt))
                ltac:(lia) ltac:(lia))
      as (rec & -> & Hrne).
    rewrite Hrne. replace (e' + n) with e1 by lia.
    apply Hfin.
    rewrite (sqrt_pick_shift m' q r j n Hq Hqr Hr ltac:(lia) ltac:(lia)).
    f_equal. destruct (Z.eqb_spec r 0); reflexivity.
Qed.

Lemma sqrt_rnd_zero : sqrt_rnd 0 = 0.
Proof. reflexivity. Qed.

Lemma sqrt_rnd_nonneg : forall W, 0 <= W -> 0 <= sqrt_rnd W.
Proof.
  intros W H. rewrite <- sqrt_rnd_zero. apply sqrt_rnd_mono. lia.
Qed.

(** The rounded square root grows with its argument. *)
Lemma sqrt_sv_mono :
  forall v w, 0 <= v <= w -> w <= huge -> sqrt_sv v <= sqrt_sv w.
Proof.
  intros v w H Hw. unfold sqrt_sv.
  assert (Hs : 0 < 2 ^ scale) by (apply Z.pow_pos_nonneg; unfold scale; lia).
  destruct (Z.eqb_spec w huge) as [->|Nw].
  - destruct (Z.eqb_spec v huge); lia.
  - destruct (Z.eqb_spec v huge) as [->|Nv]; [lia|].
    assert (sqrt_rnd (v * 2 ^ scale) <= sqrt_rnd (w * 2 ^ scale))
      by (apply sqrt_rnd_mono; nia).
    lia.
Qed.

(** A square root that is a number is the root of a number that is not
    negative. *)
Lemma SFsqrt_value :
  forall a,
    valid a ->
    is_nan_spec (SpecFloat.SFsqrt FloatOps.prec FloatOps.emax a) = false ->
    is_nan_spec a = false /\ 0 <= sv a
    /\ sv (SpecFloat.SFsqrt FloatOps.prec FloatOps.emax a) = sqrt_sv (sv a).
Proof.
  intros [s|s| |s m e] V N.
  - cbn. repeat split; try lia.
  - destruct s; [discriminate|]. cbn [SpecFloat.SFsqrt sv is_nan_spec].
    pose proof huge_pos. repeat split; try lia.
  - discriminate.
  - destruct s; [discriminate|].
    destruct (SFsqrt_sv m e V) as [_ Hsv]. rewrite Hsv.
    pose proof (finite_sv_lt _ V eq_refl) as Hlt.
    pose proof (finite_positive _ _ _ V) as Hpos.
    rewrite sv_finite in *. cbn [signed] in *.
    repeat split; try lia.
    unfold sqrt_sv. destruct (Z.eqb_spec (Z.pos m * 2 ^ (e + scale)) huge); [lia|].
    reflexivity.
Qed.

(** [sqrt] is monotone, NaN included: when [y < x] is false, so is
    [sqrt y < sqrt x]. *)
Lemma b64_sqrt_mono :
  forall x y : float,
    (y <? x)%float = false ->
    (PrimFloat.sqrt y <? PrimFloat.sqrt x)%float = false.
Proof.
  intros x y H. apply ltb_false_sv.
  destruct (PrimFloat.is_nan (PrimFloat.sqrt y)) eqn:Ny; [tauto|].
  destruct (PrimFloat.is_nan (PrimFloat.sqrt x)) eqn:Nx; [tauto|].
  right. right.
  rewrite <- Prim2SF_nan, FloatAxioms.sqrt_spec in Nx, Ny.
  rewrite !FloatAxioms.sqrt_spec.
  unfold FloatAxioms.SF64sqrt in *.
  destruct (SFsqrt_value _ (Prim2SF_ok x) Nx) as (Nx' & Hx0 & ->).
  destruct (SFsqrt_value _ (Prim2SF_ok y) Ny) as (Ny' & Hy0 & ->).
  apply ltb_false_sv in H. rewrite <- !Prim2SF_nan in H.
  destruct H as [H|[H|H]]; try congruence.
  apply sqrt_sv_mono; [lia|]. apply sv_range, Prim2SF_ok.
Qed.

(** ** Numbers and the largest finite value *)

Lemma b64_ltb_number :
  forall x y : float,
    (x <? y)%float = true ->
    PrimFloat.is_nan x = false /\ PrimFloat.is_nan y = false.
Proof.
  intros x y H. apply ltb_true_sv in H. tauto.
Qed.

Lemma sv_d_max : 0 < sv (FloatOps.Prim2SF (@d_max binary64)).
Proof.
  assert (E : FloatOps.Prim2SF (@d_max binary64)
              = SpecFloat.S754_finite false (2 ^ 53 - 1) 971)
    by (vm_compute; reflexivity).
  pose proof (Prim2SF_ok (@d_max binary64)) as V. rewrite E in *.
  pose proof (finite_positive _ _ _ V) as Hpos.
  rewrite sv_finite. cbn [signed]. apply Hpos.
Qed.

(** The numbers are the values below [DBL_MAX] or above zero. *)
Lemma b64_number :
  forall x : float,
    ((x <? (@d_max binary64)) || (0 <? x))%float = negb (PrimFloat.is_nan x).
Proof.
  intros x. destruct (PrimFloat.is_nan x) eqn:N; cbn [negb].
  - apply orb_false_iff. split; apply ltb_false_sv; tauto.
  - apply orb_true_iff.
    pose proof sv_d_max as Hm.
    assert (Nm : PrimFloat.is_nan (@d_max binary64) = false) by reflexivity.
    assert (N0 : PrimFloat.is_nan 0%float = false) by reflexivity.
    destruct (Z_lt_le_dec (sv (FloatOps.Prim2SF x))
                (sv (FloatOps.Prim2SF (@d_max binary64)))) as [Hlt|Hge].
    + left. apply ltb_true_sv. tauto.
    + right. apply ltb_true_sv. rewrite Prim2SF_zero. cbn [sv].
      repeat split; try assumption. lia.
Qed.

(** The square root of a number that is not negative is a number. *)
Lemma SFsqrt_number :
  forall a,
    valid a -> is_nan_spec a = false -> 0 <= sv a ->
    is_nan_spec (SpecFloat.SFsqrt FloatOps.prec FloatOps.emax a) = false.
Proof.
  intros [s|s| |s m e] V N H; try discriminate.
  - reflexivity.
  - destruct s; [|reflexivity]. cbn [sv] in H. pose proof huge_pos. lia.
  - destruct s.
    + pose proof (finite_positive _ _ _ V) as [Hp _]. rewrite sv_finite in H.
      cbn [signed] in H. lia.
    + apply (SFsqrt_sv m e V).
Qed.

(** The square root of a number below [DBL_MAX] is below [DBL_MAX]. *)
Lemma b64_sqrt_below_max :
  forall x : float,
    (x <? 0)%float = false -> (x <? (@d_max binary64))%float = true ->
    (PrimFloat.sqrt x <? (@d_max binary64))%float = true.
Proof.
  intros x H0 Hm.
  apply ltb_true_sv in Hm. destruct Hm as (Nx & Nm & Hlt).
  apply ltb_false_sv in H0. rewrite Prim2SF_zero in H0. cbn [sv] in H0.
  assert (Hx0 : 0 <= sv (FloatOps.Prim2SF x)).
  { destruct H0 as [H0|[H0|H0]]; [congruence|discriminate|exact H0]. }
  assert (Hroot : (PrimFloat.sqrt (@d_max binary64) <? (@d_max binary64))%float = true)
    by (vm_compute; reflexivity).
  apply ltb_true_sv in Hroot. destruct Hroot as (Nr & _ & Hr).
  rewrite <- Prim2SF_nan in Nx, Nr.
  rewrite FloatAxioms.sqrt_spec in Nr, Hr.
  unfold FloatAxioms.SF64sqrt in *.
  pose proof (SFsqrt_number _ (Prim2SF_ok x) Nx Hx0) as Ns.
  destruct (SFsqrt_value _ (Prim2SF_ok x) Ns) as (_ & _ & Ex).
  destruct (SFsqrt_value _ (Prim2SF_ok (@d_max binary64)) Nr) as (_ & _ & Em).
  pose proof (sv_range _ (Prim2SF_ok (@d_max binary64))) as Hrange.
  pose proof (sqrt_sv_mono _ _ (conj Hx0 (Z.lt_le_incl _ _ Hlt))
                ltac:(lia)) as Hmono.
  apply ltb_true_sv. rewrite <- !Prim2SF_nan.
  rewrite FloatAxioms.sqrt_spec. unfold FloatAxioms.SF64sqrt.
  rewrite <- Prim2SF_nan in Nm.
  repeat split; try assumption. lia.
Qed.

(** * Evaluation on IEEE binary64 *)

Section OnBinary64.
#[local] Existing Instance binary64.
#[local] Existing Instance isort.

(** C1, at a failing input: built with [leaf_size = 2], the tree for two
    items is a single leaf holding the first item; item ["b"] is not
    reachable from the root. *)
Theorem buildTree_leaf_keeps_first_item_only :
  exists t,
    KDTree_new two_points 2 = Returns t
    /\ root t = Node [0%float] "a" 0 nullptr nullptr
    /\ node_count t = 1
    /\ ~ Permutation (items (root t)) two_points.
Proof.
  eexists. split; [reflexivity|]. cbn.
  repeat split; try reflexivity.
  intro P. apply Permutation_length in P. discriminate P.
Qed.

(** C2, at a failing input: the nearest neighbour of [[1]] among the two
    points is ["b"] at distance 0 with [leaf_size = 1] and ["a"] at
    distance 1 with [leaf_size = 2]. *)
Theorem nearest_depends_on_leaf_size :
  (t <- KDTree_new two_points 1 ;; nearest t [1%float])
    = Returns (0%float, "b")
  /\ (t <- KDTree_new two_points 2 ;; nearest t [1%float])
    = Returns (1%float, "a")
  /\ (t <- KDTree_new two_points 1 ;; kNearest t [1%float] 1)
    = Returns [(0%float, "b")]
  /\ (t <- KDTree_new two_points 2 ;; kNearest t [1%float] 1)
    = Returns [(1%float, "a")].
Proof. repeat split; vm_compute; reflexivity. Qed.

(** C3, at a failing input: built with [leaf_size = 10], the leaf size of
    the interactive mode of [experiment.cpp], the tree for the two points
    answers the query [[1]] with ["a"] at distance 1, and the linear
    scanner answers it with ["b"] at distance 0: the texts differ, and the
    scanner's item is strictly nearer. *)
Theorem nearest_disagrees_with_linear_scan :
  exists t kd lin,
    KDTree_new two_points 10 = Returns t
    /\ nearest t [1%float] = Returns kd
    /\ linear_nearest (LinearSearch_new two_points) [1%float] = Returns lin
    /\ kd = (1%float, "a") /\ lin = (0%float, "b")
    /\ snd kd <> snd lin
    /\ d_ltb (fst lin) (fst kd) = true.
Proof.
  eexists. eexists. eexists.
  split; [vm_compute; reflexivity|].
  split; [vm_compute; reflexivity|].
  split; [vm_compute; reflexivity|].
  repeat split. discriminate.
Qed.

(** C4, counterexample: on the tree built from the empty dataset [nearest]
    returns a (distance, text) pair. *)
Lemma nearest_on_empty_tree_returns_a_pair :
  (t <- KDTree_new [] 1 ;; nearest t [1%float])
    = Returns (PrimFloat.sqrt 0x1.fffffffffffffp+1023%float, "").
Proof. reflexivity. Qed.

(** C5, at a failing input: with [k = 0] on a one-item index the search
    reads the top of the empty queue. *)
Theorem kNearest_zero_reads_empty_queue :
  (t <- KDTree_new [item "a" [0%float]] 1 ;; kNearest t [0%float] 0)
    = Undefined
  /\ (t <- KDTree_new [] 1 ;; kNearest t [0%float] 0) = Returns [].
Proof. split; reflexivity. Qed.

(** With [leaf_size = 3] a request for 10 neighbours among 3 items yields
    one result. *)
Lemma kNearest_large_leaf_returns_one :
  (t <- KDTree_new
          [item "a" [0%float]; item "b" [1%float]; item "c" [2%float]] 3 ;;
   kNearest t [0%float] 10)
    = Returns [(0%float, "a")].
Proof. vm_compute. reflexivity. Qed.

(** C9, counterexample: the empty index records dimension 0; a query of
    dimension 3 is answered by both operations without any failure. *)
Lemma mismatched_query_is_answered :
  exists t,
    KDTree_new [] 1 = Returns t
    /\ size [1%float; 2%float; 3%float] <> dimensions t
    /\ nearest t [1%float; 2%float; 3%float]
       = Returns (PrimFloat.sqrt 0x1.fffffffffffffp+1023%float, "")
    /\ kNearest t [1%float; 2%float; 3%float] 2 = Returns [].
Proof.
  eexists. split; [reflexivity|]. cbn. repeat split; discriminate.
Qed.

End OnBinary64.

(** * Properties that hold for every arithmetic *)

Section AnyArithmetic.
Context {D : Double} {Srt : StdSort}.

(** C4, amended: on the tree built from the empty dataset, with any leaf
    size and for any query, [nearest] returns the square root of the
    largest finite double and the empty text. *)
Theorem nearest_on_empty_dataset :
  forall (leaf_size : Z) (query : Point),
    (t <- KDTree_new [] leaf_size ;; nearest t query)
      = Returns (d_sqrt d_max, "").
Proof. intros. reflexivity. Qed.

(** C9, amended: the query operations make no dimension check.  On an
    index without nodes a query of any dimension is answered
    ([nearest] by the initial best pair, [kNearest] by the empty
    sequence); on an index with nodes a query whose size differs from the
    size of the root point breaks the size precondition of the first
    distance computation. *)
Theorem query_dimension_is_not_checked :
  forall (t : KDTree) (query : Point) (k : Z),
    match root t with
    | nullptr =>
        nearest t query = Returns (d_sqrt d_max, "")
        /\ kNearest t query k = Returns []
    | Node point _ _ _ _ =>
        if size query =? size point then True
        else nearest t query = Undefined /\ kNearest t query k = Undefined
    end.
Proof.
  intros [r ls dims cnt] query k. cbn [root].
  destruct r as [|point txt axis l r].
  - split; reflexivity.
  - destruct (size query =? size point) eqn:E; [exact I|].
    unfold nearest, kNearest; cbn [root nearestNeighbor kNearestNeighbors].
    unfold squaredNorm_diff. rewrite E. split; reflexivity.
Qed.

End AnyArithmetic.

(** * The seed of the token generator *)

Lemma hashString_loop_range :
  forall str hash,
    0 <= hash < 2 ^ 64 -> 0 <= hashString_loop str hash < 2 ^ 64.
Proof.
  induction str as [|c rest IH]; intros hash Hh; cbn [hashString_loop].
  - exact Hh.
  - apply IH. unfold wrap_size_t. apply Z.mod_pos_bound. lia.
Qed.

Lemma hashString_loop_polynomial :
  forall str hash,
    wrap_size_t (hashString_loop str hash)
    = wrap_size_t (hash * 31 ^ size (bytes str) + polynomial31 (bytes str)).
Proof.
  induction str as [|c rest IH]; intros hash.
  - cbn. f_equal. lia.
  - cbn [hashString_loop]. rewrite IH.
    unfold bytes; cbn [list_ascii_of_string map polynomial31].
    fold (bytes rest). unfold wrap_size_t.
    set (n := size (bytes rest)).
    assert (Hn : size (unsigned_char c :: bytes rest) = n + 1).
    { unfold n, size. cbn [List.length]. lia. }
    rewrite Hn, Z.pow_add_r by (unfold n, size; lia).
    rewrite Z.add_mod by lia.
    rewrite Z.mul_mod by lia.
    rewrite Z.mod_mod by lia.
    rewrite (Z.add_mod (hash * 31 mod 2 ^ 64)) by lia.
    rewrite Z.mod_mod by lia.
    rewrite <- (Z.add_mod (hash * 31)) by lia.
    rewrite <- Z.mul_mod by lia.
    rewrite <- Z.add_mod by lia.
    f_equal. lia.
Qed.

Lemma hashString_is_rolling_hash :
  forall str, hashString str = rolling_hash str.
Proof.
  intros str. unfold hashString, rolling_hash.
  rewrite <- (Z.mod_small (hashString_loop str 0) (2 ^ 64)).
  - fold (wrap_size_t (hashString_loop str 0)).
    rewrite hashString_loop_polynomial. f_equal.
  - apply hashString_loop_range. lia.
Qed.

(** C6, counterexample: for the token ["a"] (byte 97) the generator is
    seeded with 139, which is 42 + 97, and not with 42 XOR 97, which is 75. *)
Lemma rng_seed_is_not_xor :
  rng_seed "a" = 139
  /\ Z.lxor seed (rolling_hash "a") = 75
  /\ rng_seed "a" <> Z.lxor seed (rolling_hash "a").
Proof. repeat split. vm_compute. discriminate. Qed.

(** C6, amended: for every token the generator is seeded with
    [global_seed + h(token)], the sum wrapping at the width of [size_t],
    where [h] is the polynomial rolling hash with multiplier 31 over the
    unsigned byte values of the token, wrapping at the same width. *)
Theorem rng_seed_is_sum :
  forall token : string,
    rng_seed token = (seed + rolling_hash token) mod 2 ^ 64
    /\ rolling_hash token = polynomial31 (bytes token) mod 2 ^ 64.
Proof.
  intros token. split; [|reflexivity].
  unfold rng_seed. rewrite hashString_is_rolling_hash. reflexivity.
Qed.

(** * The interfaces are inhabited *)

Lemma binary64_number :
  forall x : float, @d_number binary64 x = negb (PrimFloat.is_nan x).
Proof. intros x. apply b64_number. Qed.

Lemma binary64_number_true :
  forall x : float,
    @d_number binary64 x = true <-> PrimFloat.is_nan x = false.
Proof.
  intros x. rewrite binary64_number. apply negb_true_iff.
Qed.

(** Binary64 satisfies the laws the search proofs rest on. *)
Lemma binary64_laws : DoubleLaws binary64.
Proof.
  constructor; cbn [binary64 double d_zero d_add d_sub d_mul d_ltb d_sqrt d_max];
    intros; rewrite ?binary64_number_true in *.
  - apply b64_ltb_irrefl.
  - eapply b64_ltb_trans; eassumption.
  - eapply b64_leb_trans; eassumption.
  - eapply b64_ltb_number; eassumption.
  - reflexivity.
  - apply b64_add_nan; assumption.
  - apply b64_sub_nan; assumption.
  - apply b64_mul_nan; assumption.
  - apply b64_sq_nonneg.
  - apply b64_add_le_l; assumption.
  - apply b64_add_le_r; assumption.
  - apply b64_sq_mono_below; assumption.
  - apply b64_sq_mono_above; assumption.
  - apply b64_sqrt_mono; assumption.
  - apply b64_sqrt_below_max; assumption.
  - split; reflexivity.
Qed.

Section InsertionSortLaws.
Context {A : Type} (less : A -> A -> bool).

Lemma insert_sorted_perm :
  forall x l, Permutation (insert_sorted less x l) (x :: l).
Proof.
  induction l as [|y r IH]; cbn.
  - reflexivity.
  - destruct (less x y).
    + reflexivity.
    + rewrite IH. apply perm_swap.
Qed.

Lemma insertion_sort_perm :
  forall l, Permutation (insertion_sort less l) l.
Proof.
  induction l as [|x l IH]; cbn.
  - constructor.
  - rewrite insert_sorted_perm. constructor. exact IH.
Qed.

Lemma insert_sorted_sorted :
  forall x l,
    strict_weak less (x :: l) ->
    StronglySorted (fun a b => less b a = false) l ->
    StronglySorted (fun a b => less b a = false) (insert_sorted less x l).
Proof.
  induction l as [|y r IH]; intros Hok Hs; cbn.
  - repeat constructor.
  - apply StronglySorted_inv in Hs. destruct Hs as [Hr Hy].
    pose proof Hok as (Hirr & Htr & Hntr).
    destruct (less x y) eqn:E.
    + assert (Hyx : less y x = false).
      { destruct (less y x) eqn:E'; [|reflexivity].
        rewrite <- (Hirr x) by (left; reflexivity). symmetry.
        apply (Htr x y x); cbn; auto. }
      constructor.
      * constructor; assumption.
      * constructor; [exact Hyx|].
        rewrite Forall_forall in *. intros z Hz.
        apply (Hntr x y z); cbn; auto.
    + constructor.
      * apply IH; [|exact Hr].
        destruct Hok as (H1 & H2 & H3).
        split; [|split]; intros; [apply H1|eapply H2|eapply H3];
          try eassumption;
          match goal with
          | H : In _ (x :: r) |- In _ (x :: y :: r) =>
              destruct H as [<-|H]; [left; reflexivity|right; right; exact H]
          end.
      * rewrite Forall_forall in *. intros z Hz.
        apply (Permutation_in _ (insert_sorted_perm x r)) in Hz.
        destruct Hz as [<-|Hz]; [exact E | apply Hy; exact Hz].
Qed.

Lemma insertion_sort_sorted :
  forall l,
    strict_weak less l ->
    StronglySorted (fun a b => less b a = false) (insertion_sort less l).
Proof.
  induction l as [|x l IH]; intros Hok; cbn.
  - constructor.
  - apply insert_sorted_sorted.
    + destruct Hok as (H1 & H2 & H3).
      assert (Hin : forall z, In z (x :: insertion_sort less l) -> In z (x :: l)).
      { intros z [<-|Hz]; [left; reflexivity|].
        right. apply (Permutation_in _ (insertion_sort_perm l)). exact Hz. }
      split; [|split]; intros; [apply H1|eapply H2|eapply H3];
        try eassumption; auto.
    + apply IH. destruct Hok as (H1 & H2 & H3).
      split; [|split]; intros; [apply H1|eapply H2|eapply H3];
        try eassumption; right; assumption.
Qed.

End InsertionSortLaws.

Lemma isort_laws : SortLaws isort.
Proof.
  constructor; intros; cbn.
  - apply insertion_sort_perm.
  - apply insertion_sort_sorted. assumption.
Qed.

(** * Index ranges *)

Lemma in_range_true :
  forall i n, 0 <= i < n -> (0 <=? i) && (i <? n) = true.
Proof.
  intros i n Hi. apply andb_true_iff.
  split; [apply Z.leb_le|apply Z.ltb_lt]; lia.
Qed.

(** * Order of the results of [kNearest] *)

Section QueueOrder.
Context {D : Double} {L : DoubleLaws D}.

Lemma d_ltb_asym : forall x y, d_ltb x y = true -> d_ltb y x = false.
Proof.
  intros x y H. destruct (d_ltb y x) eqn:E; [|reflexivity].
  rewrite <- (ltb_irrefl x). symmetry. eapply ltb_trans; eassumption.
Qed.

Lemma string_ltb_asym :
  forall s1 s2, String.ltb s1 s2 = true -> String.ltb s2 s1 = false.
Proof.
  unfold String.ltb. intros s1 s2 H.
  rewrite String.compare_antisym.
  destruct (String.compare s1 s2); cbn; congruence.
Qed.

Lemma pair_less_asym :
  forall a b, pair_less a b = true -> pair_less b a = false.
Proof.
  unfold pair_less. intros [a1 a2] [b1 b2]; cbn [fst snd]. intros H.
  destruct (d_ltb a1 b1) eqn:E1.
  - rewrite (d_ltb_asym _ _ E1). reflexivity.
  - cbn in H. apply andb_true_iff in H. destruct H as [H1 H2].
    apply negb_true_iff in H1. rewrite H1. cbn.
    apply string_ltb_asym. exact H2.
Qed.

Lemma pq_push_descending :
  forall e pq, descending pq -> descending (pq_push e pq).
Proof.
  unfold descending. induction pq as [|x r IH]; intros Hs; cbn.
  - repeat constructor.
  - apply Sorted_inv in Hs. destruct Hs as [Hr Hx].
    destruct (pair_less x e) eqn:E.
    + constructor; [constructor; assumption|].
      constructor. apply pair_less_asym. exact E.
    + constructor; [apply IH; exact Hr|].
      destruct r as [|y r']; cbn.
      * constructor. exact E.
      * apply HdRel_inv in Hx.
        destruct (pair_less y e); constructor; assumption.
Qed.

Lemma pq_pop_descending :
  forall pq pq', descending pq -> pq_pop pq = Returns pq' -> descending pq'.
Proof.
  unfold descending. intros [|x r] pq' Hs H; [discriminate|].
  injection H as <-. apply Sorted_inv in Hs. apply Hs.
Qed.

Lemma kNearestNeighbors_descending :
  forall node query k pq pq',
    descending pq ->
    kNearestNeighbors node query pq k = Returns pq' ->
    descending pq'.
Proof.
  induction node as [|point txt axis l IHl r IHr]; intros query k pq pq' Hs H.
  - injection H as <-. exact Hs.
  - cbn [kNearestNeighbors] in H.
    destruct (squaredNorm_diff query point) as [dist| |]; try discriminate.
    cbn [bind] in H.
    match type of H with
    | bind ?m _ = _ => destruct m as [pq1| |] eqn:E1; try discriminate
    end.
    cbn [bind] in H.
    assert (Hs1 : descending pq1).
    { destruct (pq_size pq <? k).
      - injection E1 as <-. apply pq_push_descending. exact Hs.
      - destruct (pq_top pq) as [top| |]; try discriminate.
        cbn [bind] in E1. destruct (d_ltb dist (fst top)).
        + destruct (pq_pop pq) as [pq0| |] eqn:E0; try discriminate.
          injection E1 as <-. apply pq_push_descending.
          eapply pq_pop_descending; eassumption.
        + injection E1 as <-. exact Hs. }
    destruct (coeff query axis) as [qa| |]; try discriminate.
    destruct (coeff point axis) as [pa| |]; try discriminate.
    cbn [bind] in H.
    set (diff := d_sub qa pa) in *.
    destruct (d_ltb diff d_zero).
    + destruct (kNearestNeighbors l query pq1 k) as [pq2| |] eqn:E2;
        try discriminate.
      cbn [bind] in H. apply IHl in E2; [|exact Hs1].
      match type of H with
      | (if ?c then _ else _) = _ => destruct c
      end.
      * eapply IHr; [exact E2 | exact H].
      * injection H as <-. exact E2.
    + destruct (kNearestNeighbors r query pq1 k) as [pq2| |] eqn:E2;
        try discriminate.
      cbn [bind] in H. apply IHr in E2; [|exact Hs1].
      match type of H with
      | (if ?c then _ else _) = _ => destruct c
      end.
      * eapply IHl; [exact E2 | exact H].
      * injection H as <-. exact E2.
Qed.

Lemma drain_map :
  forall pq result,
    drain pq result
    = result ++ map (fun item => (d_sqrt (fst item), snd item)) pq.
Proof.
  induction pq as [|x r IH]; intros result; cbn.
  - rewrite app_nil_r. reflexivity.
  - rewrite IH, <- app_assoc. reflexivity.
Qed.

Lemma StronglySorted_snoc :
  forall (A : Type) (R : A -> A -> Prop) l x,
    StronglySorted R l -> Forall (fun y => R y x) l ->
    StronglySorted R (l ++ [x]).
Proof.
  intros A R. induction l as [|y l IH]; intros x Hs Hx; cbn.
  - repeat constructor.
  - apply StronglySorted_inv in Hs. destruct Hs as [Hl Hy].
    inversion Hx; subst.
    constructor; [apply IH; assumption|].
    apply Forall_app. split; [exact Hy|]. repeat constructor. assumption.
Qed.

Lemma StronglySorted_rev :
  forall (A : Type) (R : A -> A -> Prop) l,
    StronglySorted R l -> StronglySorted (fun a b => R b a) (rev l).
Proof.
  intros A R. induction l as [|x l IH]; intros Hs; cbn.
  - constructor.
  - apply StronglySorted_inv in Hs. destruct Hs as [Hl Hx].
    apply StronglySorted_snoc; [apply IH; exact Hl|].
    apply Forall_rev. exact Hx.
Qed.

Lemma Sorted_through :
  forall (A : Type) (P : A -> Prop) (R : A -> A -> Prop),
    (forall a b c, P b -> R a b -> R b c -> R a c) ->
    forall l, Forall P l -> Sorted R l -> StronglySorted R l.
Proof.
  intros A P R Htr. induction l as [|a l IH]; intros HP Hs.
  - constructor.
  - apply Sorted_inv in Hs. destruct Hs as [Hs Hd].
    inversion HP as [|? ? Pa Pl]; subst.
    specialize (IH Pl Hs). constructor; [exact IH|].
    destruct Hd as [|b l' Hab]; [constructor|].
    apply StronglySorted_inv in IH. destruct IH as [_ Hb].
    inversion Pl; subst.
    constructor; [exact Hab|].
    rewrite Forall_forall in *. intros c Hc.
    eapply Htr; [|exact Hab|apply Hb; exact Hc]. assumption.
Qed.

Lemma StronglySorted_map :
  forall (A B : Type) (R : A -> A -> Prop) (S : B -> B -> Prop) (f : A -> B),
    (forall a b, R a b -> S (f a) (f b)) ->
    forall l, StronglySorted R l -> StronglySorted S (map f l).
Proof.
  intros A B R S f Hf. induction l as [|a l IH]; intros Hs; cbn.
  - constructor.
  - apply StronglySorted_inv in Hs. destruct Hs as [Hl Ha].
    constructor; [apply IH; exact Hl|].
    apply Forall_map. eapply Forall_impl; [|exact Ha].
    intros b. apply Hf.
Qed.

(** A queue of numbers in descending order: no entry is below a later
    one. *)
Lemma descending_numbers :
  forall pq,
    Forall (fun e => d_number (fst e) = true) pq ->
    descending pq ->
    StronglySorted (fun a b => d_ltb (fst a) (fst b) = false) pq.
Proof.
  intros pq Hn Hs.
  apply (Sorted_through _ (fun e => d_number (fst e) = true)); [|exact Hn|].
  - intros a b c Pb Hab Hbc. exact (leb_trans _ _ _ Pb Hbc Hab).
  - clear Hn. induction Hs as [|x r Hr IH Hx]; constructor.
    + exact IH.
    + destruct Hx as [|y r' Hxy]; constructor.
      unfold pair_less in Hxy. apply orb_false_iff in Hxy. apply Hxy.
Qed.

Lemma descending_distances :
  forall pq,
    Forall (fun e => d_number (fst e) = true) pq ->
    descending pq ->
    StronglySorted (fun a b => d_ltb a b = false)
      (map (fun item => d_sqrt (fst item)) pq).
Proof.
  intros pq Hn Hs.
  apply (StronglySorted_map _ _ (fun a b => d_ltb (fst a) (fst b) = false)).
  - intros a b Hab. apply sqrt_mono. exact Hab.
  - apply descending_numbers; assumption.
Qed.

Lemma pq_push_In :
  forall e e' (pq : priority_queue),
    In e' (pq_push e pq) -> e' = e \/ In e' pq.
Proof.
  induction pq as [|x r IH]; cbn [pq_push]; intros H.
  - destruct H as [<-|[]]. left. reflexivity.
  - destruct (pair_less x e).
    + destruct H as [<-|H]; [left; reflexivity|right; exact H].
    + destruct H as [<-|H]; [right; left; reflexivity|].
      destruct (IH H) as [->|Hr]; [left; reflexivity|right; right; exact Hr].
Qed.

(** Every entry of the queue after the search was there before, or is the
    squared distance and the text of an item below the node. *)
Lemma kNearestNeighbors_entries :
  forall node query k pq pq',
    kNearestNeighbors node query pq k = Returns pq' ->
    forall e, In e pq' ->
      In e pq \/ exists x, In x (items node) /\ e = candidate query x.
Proof.
  induction node as [|point txt axis l IHl r IHr]; intros query k pq pq' H.
  - injection H as <-. intros e He. left. exact He.
  - cbn [kNearestNeighbors] in H. unfold squaredNorm_diff in H.
    destruct (size query =? size point); [|discriminate].
    cbn [bind] in H. fold (sqd query point) in H.
    match type of H with
    | bind ?m _ = _ => destruct m as [pq1| |] eqn:E1; try discriminate
    end.
    cbn [bind] in H.
    assert (H1 : forall e, In e pq1 ->
                 In e pq \/ e = candidate query (node_item point txt)).
    { intros e He. destruct (pq_size pq <? k).
      - injection E1 as <-. apply pq_push_In in He.
        destruct He as [->|He]; [right; reflexivity|left; exact He].
      - destruct pq as [|top pq0]; [discriminate|].
        cbn [pq_top pq_pop bind] in E1.
        destruct (d_ltb (sqd query point) (fst top)).
        + injection E1 as <-. apply pq_push_In in He.
          destruct He as [->|He]; [right; reflexivity|left; right; exact He].
        + injection E1 as <-. left. exact He. }
    destruct (coeff query axis) as [qa| |]; try discriminate.
    destruct (coeff point axis) as [pa| |]; try discriminate.
    cbn [bind] in H.
    assert (Hboth : forall first second pq2,
      (forall e, In e pq2 ->
         In e pq1 \/ exists x, In x (items first) /\ e = candidate query x) ->
      (forall pq3, kNearestNeighbors second query pq2 k = Returns pq3 ->
         forall e, In e pq3 ->
           In e pq2 \/ exists x, In x (items second) /\ e = candidate query x) ->
      forall pq3,
        pq3 = pq2 \/ kNearestNeighbors second query pq2 k = Returns pq3 ->
        forall e, In e pq3 ->
          In e pq \/ exists x,
            (In x (items first) \/ x = node_item point txt
             \/ In x (items second)) /\ e = candidate query x).
    { intros first second pq2 Hfirst Hsecond pq3 H3 e He.
      assert (He2 : In e pq2 \/ exists x,
                 In x (items second) /\ e = candidate query x).
      { destruct H3 as [->|H3]; [left; exact He|].
        exact (Hsecond pq3 H3 e He). }
      destruct He2 as [He2|(x & Hx & ->)];
        [|right; exists x; split; [tauto|reflexivity]].
      destruct (Hfirst e He2) as [He1|(x & Hx & ->)];
        [|right; exists x; split; [tauto|reflexivity]].
      destruct (H1 e He1) as [He0| ->]; [left; exact He0|].
      right. exists (node_item point txt). split; [tauto|reflexivity]. }
    intros e He. cbn [items].
    destruct (d_ltb (d_sub qa pa) d_zero).
    + destruct (kNearestNeighbors l query pq1 k) as [pq2| |] eqn:E2;
        try discriminate.
      cbn [bind] in H.
      assert (H3 : pq' = pq2 \/ kNearestNeighbors r query pq2 k = Returns pq').
      { match type of H with
        | (if ?c then _ else _) = _ => destruct c
        end; [right; exact H|left; injection H as <-; reflexivity]. }
      destruct (Hboth l r pq2 (IHl _ _ _ _ E2) (IHr query k pq2) pq' H3 e He)
        as [H0|(x & Hx & ->)]; [left; exact H0|].
      right. exists x. split; [|reflexivity].
      apply in_or_app. cbn [In]. unfold node_item in Hx.
      destruct Hx as [Hx|[->|Hx]]; auto.
    + destruct (kNearestNeighbors r query pq1 k) as [pq2| |] eqn:E2;
        try discriminate.
      cbn [bind] in H.
      assert (H3 : pq' = pq2 \/ kNearestNeighbors l query pq2 k = Returns pq').
      { match type of H with
        | (if ?c then _ else _) = _ => destruct c
        end; [right; exact H|left; injection H as <-; reflexivity]. }
      destruct (Hboth r l pq2 (IHr _ _ _ _ E2) (IHl query k pq2) pq' H3 e He)
        as [H0|(x & Hx & ->)]; [left; exact H0|].
      right. exists x. split; [|reflexivity].
      apply in_or_app. cbn [In]. unfold node_item in Hx.
      destruct Hx as [Hx|[->|Hx]]; auto.
Qed.

Lemma coeff_defined :
  forall (p : Point) i,
    0 <= i < size p -> exists x, coeff p i = Returns x.
Proof.
  intros p i Hi. unfold coeff. rewrite in_range_true by exact Hi.
  destruct (nth_error p (Z.to_nat i)) as [x|] eqn:E; [eauto|].
  apply nth_error_None in E. unfold size in Hi. lia.
Qed.

Lemma well_dimensioned_node :
  forall dim point txt axis l r,
    well_dimensioned dim (Node point txt axis l r) = true ->
    size point = dim /\ 0 <= axis < dim
    /\ well_dimensioned dim l = true /\ well_dimensioned dim r = true.
Proof.
  intros dim point txt axis l r H. cbn in H.
  repeat (apply andb_true_iff in H; destruct H as [H ?]).
  apply Z.eqb_eq in H. repeat split; try assumption.
  - apply Z.leb_le. assumption.
  - apply Z.ltb_lt. assumption.
Qed.

Lemma kNearestNeighbors_returns :
  forall node query k pq,
    1 <= k ->
    well_dimensioned (size query) node = true ->
    exists pq', kNearestNeighbors node query pq k = Returns pq'.
Proof.
  induction node as [|point txt axis l IHl r IHr]; intros query k pq Hk Hwd.
  - cbn. eauto.
  - apply well_dimensioned_node in Hwd.
    destruct Hwd as (Hsz & Hax & Hwl & Hwr).
    cbn [kNearestNeighbors]. unfold squaredNorm_diff.
    rewrite Hsz, Z.eqb_refl. cbn [bind].
    match goal with
    | |- exists _, bind ?m _ = _ => assert (E1 : exists pq1, m = Returns pq1)
    end.
    { destruct (pq_size pq <? k) eqn:Ek; [eauto|].
      destruct pq as [|x pq0].
      - apply Z.ltb_ge in Ek. unfold pq_size, to_int, size in Ek.
        cbn in Ek. lia.
      - cbn. match goal with |- context [if ?c then _ else _] => destruct c end;
          eauto. }
    destruct E1 as [pq1 ->]. cbn [bind].
    destruct (coeff_defined query axis) as [qa ->]; [lia|].
    destruct (coeff_defined point axis) as [pa ->]; [lia|].
    cbn [bind].
    destruct (d_ltb (d_sub qa pa) d_zero).
    + destruct (IHl query k pq1 Hk Hwl) as [pq2 ->]. cbn [bind].
      match goal with |- context [if ?c then _ else _] => destruct c end;
        eauto.
    + destruct (IHr query k pq1 Hk Hwr) as [pq2 ->]. cbn [bind].
      match goal with |- context [if ?c then _ else _] => destruct c end;
        eauto.
Qed.

Lemma kNearestNeighbors_fuel :
  forall node query k pq, kNearestNeighbors node query pq k <> OutOfFuel.
Proof.
  induction node as [|point txt axis l IHl r IHr]; intros query k pq.
  - discriminate.
  - cbn [kNearestNeighbors]. unfold squaredNorm_diff, coeff.
    destruct (size query =? size point); [|discriminate]. cbn [bind].
    match goal with
    | |- bind ?m _ <> _ =>
        assert (E1 : m <> OutOfFuel);
        [|destruct m as [pq1| |]; try discriminate; try congruence]
    end.
    { destruct (pq_size pq <? k); [discriminate|].
      destruct pq as [|x pq0]; [discriminate|]. cbn.
      destruct (d_ltb _ _); discriminate. }
    cbn [bind].
    destruct ((0 <=? axis) && (axis <? size query)); [|discriminate].
    destruct (nth_error query (Z.to_nat axis)); [|discriminate]. cbn [bind].
    destruct ((0 <=? axis) && (axis <? size point)); [|discriminate].
    destruct (nth_error point (Z.to_nat axis)); [|discriminate]. cbn [bind].
    destruct (d_ltb _ d_zero).
    + specialize (IHl query k pq1).
      destruct (kNearestNeighbors l query pq1 k); try discriminate;
        try congruence.
      cbn [bind].
      match goal with |- context [if ?c then _ else _] => destruct c end;
        [apply IHr | discriminate].
    + specialize (IHr query k pq1).
      destruct (kNearestNeighbors r query pq1 k); try discriminate;
        try congruence.
      cbn [bind].
      match goal with |- context [if ?c then _ else _] => destruct c end;
        [apply IHl | discriminate].
Qed.

(** C7, amended: when no squared distance from the query to a point of
    the tree is NaN, the distances of the sequence that [kNearest] returns
    never decrease from one element to a later one; [kNearest] returns for
    every tree whose points have the dimension of the query and every
    [k >= 1]. *)
Theorem kNearest_distances_ascend :
  forall (t : KDTree) (query : Point) (k : Z),
    Forall (fun x => d_number (sqd query (embedding x)) = true)
      (items (root t)) ->
    match kNearest t query k with
    | Returns result =>
        StronglySorted (fun a b => d_ltb b a = false) (map fst result)
    | Undefined =>
        k <= 0 \/ well_dimensioned (size query) (root t) = false
    | OutOfFuel => False
    end.
Proof.
  intros t query k Hnum. unfold kNearest.
  destruct (kNearestNeighbors (root t) query [] k) as [pq| |] eqn:E;
    cbn [bind].
  - rewrite drain_map. cbn [app].
    rewrite <- map_rev, map_map. cbn [fst].
    rewrite map_rev. apply StronglySorted_rev.
    apply descending_distances.
    + rewrite Forall_forall in *. intros e He.
      destruct (kNearestNeighbors_entries _ _ _ _ _ E e He)
        as [[]|(x & Hx & ->)].
      cbn [candidate fst]. apply Hnum. exact Hx.
    + eapply kNearestNeighbors_descending; [|exact E]. constructor.
  - destruct (Z_le_gt_dec k 0) as [Hk|Hk]; [left; exact Hk|].
    destruct (well_dimensioned (size query) (root t)) eqn:Hwd;
      [|right; reflexivity].
    destruct (kNearestNeighbors_returns (root t) query k [] ltac:(lia) Hwd)
      as [pq' E'].
    congruence.
  - exact (kNearestNeighbors_fuel _ _ _ _ E).
Qed.

End QueueOrder.

(** * The constructor and the caller's dataset *)

Section Frame.
Context {D : Double} {Srt : StdSort}.

Lemma store_last :
  forall (m : memory) x y, store (m ++ [x]) (List.length m) y = m ++ [y].
Proof.
  induction m as [|z m IH]; intros x y; cbn.
  - reflexivity.
  - rewrite IH. reflexivity.
Qed.

Lemma load_fresh :
  forall (m : memory) v, load (m ++ [Some v]) (List.length m) = Returns v.
Proof.
  intros m v. unfold load.
  rewrite nth_error_app2, Nat.sub_diag by lia. reflexivity.
Qed.

Lemma load_released :
  forall (m : memory) a, load (m ++ [None]) a = load m a.
Proof.
  intros m a. unfold load.
  destruct (Nat.lt_ge_cases a (List.length m)) as [Hlt|Hge].
  - rewrite nth_error_app1 by exact Hlt. reflexivity.
  - rewrite nth_error_app2 by exact Hge.
    replace (nth_error m a) with (@None (option (list DataItem)))
      by (symmetry; apply nth_error_None; exact Hge).
    destruct (a - List.length m)%nat as [|[|n]]; reflexivity.
Qed.

Lemma vec_at_fuel : forall v i, vec_at v i <> OutOfFuel.
Proof.
  intros v i. unfold vec_at.
  destruct ((0 <=? i) && (i <? size v)); [|discriminate].
  destruct (nth_error v (Z.to_nat i)); discriminate.
Qed.

Lemma sort_range_fuel :
  forall data start end_ axis, sort_range data start end_ axis <> OutOfFuel.
Proof.
  intros data start end_ axis. unfold sort_range.
  destruct ((0 <=? start) && (start <=? end_) && (end_ <=? size data));
    [|discriminate].
  match goal with
  | |- (if ?c then _ else _) <> _ => destruct c; discriminate
  end.
Qed.

(** The fuel the constructor hands to [buildTree] is never used up,
    whatever the vector holds. *)
Lemma buildTree_fuel :
  forall fuel ls dims data count depth start end_,
    (Z.to_nat (end_ - start) < fuel)%nat ->
    buildTree fuel ls dims data count depth start end_ <> OutOfFuel.
Proof.
  induction fuel as [|fuel IH];
    intros ls dims data count depth start end_ Hf; [lia|].
  cbn [buildTree].
  destruct (start >=? end_) eqn:Ese; [discriminate|].
  rewrite Z.geb_leb in Ese. apply Z.leb_gt in Ese.
  destruct (end_ - start <=? ls).
  - pose proof (vec_at_fuel data start).
    destruct (vec_at data start); cbn [bind]; [discriminate|discriminate|congruence].
  - unfold int_rem. destruct (dims =? 0); cbn [bind]; [discriminate|].
    pose proof (sort_range_fuel data start end_ (Z.rem depth dims)).
    destruct (sort_range data start end_ (Z.rem depth dims)) as [data1| |];
      cbn [bind]; [|discriminate|congruence].
    cbv zeta.
    assert (Hq : Z.quot (end_ - start) 2 = (end_ - start) / 2)
      by (apply Z.quot_div_nonneg; lia).
    rewrite Hq.
    assert (Hlt : (end_ - start) / 2 < end_ - start)
      by (apply Z.div_lt; lia).
    assert (Hge : 0 <= (end_ - start) / 2) by (apply Z.div_pos; lia).
    pose proof (vec_at_fuel data1 (start + (end_ - start) / 2)).
    destruct (vec_at data1 _) as [pivot| |]; cbn [bind];
      [|discriminate|congruence].
    match goal with
    | |- bind ?b _ <> _ =>
        assert (E1 : b <> OutOfFuel) by (apply IH; lia);
        destruct b as [[l [data2 count2]]| |]; cbn [bind];
          [|discriminate|congruence]
    end.
    match goal with
    | |- bind ?b _ <> _ =>
        assert (E2 : b <> OutOfFuel) by (apply IH; lia);
        destruct b as [[r [data3 count3]]| |]; cbn [bind];
          [discriminate|discriminate|congruence]
    end.
Qed.

Lemma KDTree_ctor_fuel :
  forall (m : memory) (data : nat) (leaf_size : Z),
    KDTree_ctor m data leaf_size <> OutOfFuel.
Proof.
  intros m data leaf_size. unfold KDTree_ctor.
  destruct (load m data) as [v| |] eqn:E; try discriminate.
  - cbn [bind]. destruct v as [|d0 v]; [discriminate|].
    unfold alloc. rewrite load_fresh. cbn [bind].
    match goal with
    | |- bind ?b _ <> _ =>
        assert (E1 : b <> OutOfFuel) by (apply buildTree_fuel; lia);
        destruct b as [[r [copy' count]]| |]; cbn [bind];
          [discriminate|discriminate|congruence]
    end.
  - unfold load in E. destruct (nth_error m data) as [[?|]|]; discriminate.
Qed.

(** C10: when the constructor returns, every vector the caller could read
    before the call reads the same afterwards, the dataset passed by
    reference among them: the items are sorted in [data_copy], which lives
    at an address of its own and is released on return. *)
Theorem constructor_leaves_dataset_unchanged :
  forall (m : memory) (data : nat) (leaf_size : Z) (t : KDTree) (m' : memory),
    KDTree_ctor m data leaf_size = Returns (t, m') ->
    forall a, load m' a = load m a.
Proof.
  intros m data leaf_size t m' H a. unfold KDTree_ctor in H.
  destruct (load m data) as [v| |]; try discriminate. cbn [bind] in H.
  destruct v as [|d0 v].
  - injection H as _ <-. reflexivity.
  - unfold alloc in H.
    destruct (load (m ++ [Some (d0 :: v)]) (List.length m)) as [copy| |];
      try discriminate.
    cbn [bind] in H.
    destruct (buildTree _ _ _ _ _ _ _ _) as [[r [copy' count]]| |];
      try discriminate.
    cbn [bind] in H. injection H as _ <-.
    rewrite !store_last. apply load_released.
Qed.

End Frame.

(** * Construction *)

Section Construction.
Context {D : Double} {Srt : StdSort} {SL : SortLaws Srt}.

Lemma size_app : forall (A : Type) (u v : list A), size (u ++ v) = size u + size v.
Proof. intros. unfold size. rewrite length_app. lia. Qed.

Lemma size_cons : forall (A : Type) (x : A) v, size (x :: v) = 1 + size v.
Proof. intros. unfold size. cbn [List.length]. lia. Qed.

Lemma size_nonneg : forall (A : Type) (v : list A), 0 <= size v.
Proof. intros. unfold size. lia. Qed.

Lemma vec_at_middle :
  forall pre (x : DataItem) post, vec_at (pre ++ x :: post) (size pre) = Returns x.
Proof.
  intros pre x post. unfold vec_at.
  rewrite size_app, size_cons.
  pose proof (size_nonneg _ pre). pose proof (size_nonneg _ post).
  rewrite in_range_true by lia.
  unfold size. rewrite Nat2Z.id, nth_error_app2 by lia.
  rewrite Nat.sub_diag. reflexivity.
Qed.

Lemma slice_middle :
  forall (A : Type) (pre s post : list A),
    firstn (Z.to_nat (size pre + size s - size pre))
           (skipn (Z.to_nat (size pre)) (pre ++ s ++ post)) = s.
Proof.
  intros A pre s post. unfold size.
  replace (Z.of_nat (List.length pre) + Z.of_nat (List.length s)
           - Z.of_nat (List.length pre)) with (Z.of_nat (List.length s)) by lia.
  rewrite !Nat2Z.id.
  rewrite skipn_app, skipn_all, Nat.sub_diag. cbn [skipn app].
  rewrite firstn_app, firstn_all, Nat.sub_diag. cbn [firstn].
  apply app_nil_r.
Qed.

Lemma axis_in_range_uniform :
  forall dim axis s,
    uniform dim s -> 0 <= axis < dim ->
    forallb (axis_in_range axis) s = true.
Proof.
  intros dim axis s Hu Hax. apply forallb_forall. intros x Hx.
  unfold uniform in Hu. rewrite Forall_forall in Hu.
  unfold axis_in_range. rewrite (Hu x Hx).
  apply in_range_true. exact Hax.
Qed.

Lemma sort_range_middle :
  forall dim axis pre s post,
    uniform dim s -> 0 <= axis < dim ->
    sort_range (pre ++ s ++ post) (size pre) (size pre + size s) axis
    = Returns (pre ++ std_sort (axis_less axis) s ++ post).
Proof.
  intros dim axis pre s post Hu Hax. unfold sort_range.
  pose proof (size_nonneg _ pre). pose proof (size_nonneg _ s).
  pose proof (size_nonneg _ post).
  replace ((0 <=? size pre) && (size pre <=? size pre + size s)
           && (size pre + size s <=? size (pre ++ s ++ post)))
    with true
    by (symmetry; rewrite !size_app, !andb_true_iff; repeat split;
        apply Z.leb_le; lia).
  rewrite slice_middle.
  rewrite (axis_in_range_uniform dim axis s Hu Hax).
  rewrite andb_false_r.
  do 2 f_equal.
  - unfold size. rewrite Nat2Z.id, firstn_app, firstn_all, Nat.sub_diag.
    cbn [firstn]. apply app_nil_r.
  - f_equal. unfold size. rewrite <- Nat2Z.inj_add, Nat2Z.id.
    rewrite app_assoc, skipn_app, <- length_app, skipn_all, Nat.sub_diag.
    reflexivity.
Qed.

Lemma split_at :
  forall (A : Type) (l : list A) (k : nat),
    (k < List.length l)%nat ->
    exists sl x sr, l = sl ++ x :: sr /\ List.length sl = k.
Proof.
  intros A l k Hk.
  destruct (skipn k l) as [|x sr] eqn:E.
  - apply (f_equal (@List.length A)) in E. rewrite length_skipn in E.
    cbn in E. lia.
  - exists (firstn k l), x, sr. split.
    + rewrite <- E. symmetry. apply firstn_skipn.
    + apply firstn_length_le. lia.
Qed.

Lemma StronglySorted_around :
  forall (A : Type) (R : A -> A -> Prop) sl x sr,
    StronglySorted R (sl ++ x :: sr) ->
    Forall (fun y => R y x) sl /\ Forall (R x) sr.
Proof.
  intros A R. induction sl as [|y sl IH]; intros x sr Hs; cbn in Hs.
  - apply StronglySorted_inv in Hs. split; [constructor|apply Hs].
  - apply StronglySorted_inv in Hs. destruct Hs as [Hs Hy].
    destruct (IH _ _ Hs) as [H1 H2]. split; [|exact H2].
    constructor; [|exact H1].
    rewrite Forall_forall in Hy. apply Hy. apply in_elt.
Qed.

Lemma comparable_incl :
  forall s s', incl s' s -> comparable s -> comparable s'.
Proof.
  intros s s' H Hc axis l Hl. apply Hc.
  intros y Hy. apply H, Hl. exact Hy.
Qed.

Lemma node_item_eta :
  forall x : DataItem, node_item (embedding x) (text x) = x.
Proof. intros []. reflexivity. Qed.

Lemma uniform_perm :
  forall dim u v, Permutation u v -> uniform dim v -> uniform dim u.
Proof.
  unfold uniform. intros dim u v P H.
  eapply Permutation_Forall; [apply Permutation_sym; exact P|exact H].
Qed.

(** [buildTree] on the slice [s] of the vector [pre ++ s ++ post].  The
    shape of the tree and the items it holds depend on the sizes of the
    slices only; the tree is ordered when the comparators order the
    slice. *)
Lemma buildTree_spec :
  forall (ls dims : Z), 1 <= dims ->
  forall fuel data count depth start end_ pre s post,
    data = pre ++ s ++ post -> start = size pre -> end_ = size pre + size s ->
    (List.length s < fuel)%nat -> 0 <= depth -> uniform dims s ->
    exists node s',
      buildTree fuel ls dims data count depth start end_
      = Returns (node, (pre ++ s' ++ post, count + size (items node)))
      /\ Permutation s' s
      /\ well_dimensioned dims node = true
      /\ incl (items node) s
      /\ (comparable s -> kd_ordered node)
      /\ (ls <= 1 -> Permutation (items node) s).
Proof.
  intros ls dims Hd.
  induction fuel as [|fuel IH];
    intros data count depth start end_ pre s post -> -> -> Hf Hdep Hu;
    [lia|].
  cbn [buildTree]. rewrite Z.geb_leb.
  pose proof (size_nonneg _ pre) as Hpre.
  destruct s as [|x s0].
  - exists nullptr, []. cbn [items].
    change (size (@nil DataItem)) with 0. rewrite !Z.add_0_r, Z.leb_refl.
    repeat split; try constructor.
    intros y Hy. exact Hy.
  - pose proof (size_nonneg _ s0) as Hs0.
    replace (size pre + size (x :: s0) <=? size pre) with false
      by (symmetry; apply Z.leb_gt; rewrite size_cons; lia).
    replace (size pre + size (x :: s0) - size pre) with (size (x :: s0)) by lia.
    destruct (size (x :: s0) <=? ls) eqn:Els.
    + (* a leaf *)
      cbn [app]. rewrite vec_at_middle. cbn [bind].
      exists (Node (embedding x) (text x) 0 nullptr nullptr), (x :: s0).
      cbn [items app]. fold (node_item (embedding x) (text x)).
      rewrite node_item_eta.
      inversion Hu as [|? ? Hx Hu0]; subst.
      split; [|split; [|split; [|split; [|split]]]].
      * reflexivity.
      * reflexivity.
      * cbn [well_dimensioned]. rewrite Z.eqb_refl.
        replace (0 <? size (embedding x)) with true
          by (symmetry; apply Z.ltb_lt; lia).
        reflexivity.
      * intros y [<-|[]]. left. reflexivity.
      * intros _. cbn. repeat split; constructor.
      * intros Hls. apply Z.leb_le in Els. rewrite size_cons in Els.
        destruct s0 as [|y s0]; [reflexivity|].
        rewrite size_cons in Els. pose proof (size_nonneg _ s0). lia.
    + (* a split *)
      apply Z.leb_gt in Els.
      assert (Hax : 0 <= Z.rem depth dims < dims)
        by (apply Z.rem_bound_pos; lia).
      unfold int_rem.
      replace (dims =? 0) with false by (symmetry; apply Z.eqb_neq; lia).
      cbn [bind].
      rewrite (sort_range_middle dims _ pre (x :: s0) post Hu Hax).
      cbn [bind]. cbv zeta.
      set (axis := Z.rem depth dims) in *.
      set (s := x :: s0) in *.
      pose proof (sort_perm _ (axis_less axis) s) as Hperm.
      pose proof (sort_sorted _ (axis_less axis) s) as Hsorted.
      pose proof (Permutation_length Hperm) as Hlen.
      assert (Hn : (1 <= List.length s)%nat) by (unfold s; cbn; lia).
      assert (Hq : Z.quot (size s) 2 = size s / 2)
        by (apply Z.quot_div_nonneg; unfold size; lia).
      rewrite Hq.
      destruct (split_at _ (std_sort (axis_less axis) s)
                  (Z.to_nat (size s / 2)))
        as (sl & pivot & sr & Hsplit & Hk).
      { rewrite Hlen. unfold size.
        apply Nat2Z.inj_lt. rewrite Z2Nat.id by (apply Z.div_pos; lia).
        apply Z.div_lt_upper_bound; lia. }
      rewrite Hsplit in *.
      assert (Hmid : size s / 2 = size sl).
      { unfold size at 2. rewrite Hk.
        rewrite Z2Nat.id; [reflexivity|]. apply Z.div_pos; unfold size; lia. }
      rewrite Hmid.
      assert (Hsizes : size s = size sl + 1 + size sr).
      { unfold size. rewrite <- Hlen, length_app. cbn [List.length]. lia. }
      pose proof (size_nonneg _ sl) as Hsl0.
      pose proof (size_nonneg _ sr) as Hsr0.
      assert (Hu' : uniform dims (sl ++ pivot :: sr))
        by (eapply uniform_perm; eassumption).
      assert (Husl : uniform dims sl)
        by (unfold uniform in *; apply Forall_app in Hu'; apply Hu').
      assert (Hupiv : size (embedding pivot) = dims).
      { unfold uniform in Hu'. apply Forall_app in Hu'.
        destruct Hu' as [_ Hu']. inversion Hu'; assumption. }
      assert (Husr : uniform dims sr).
      { unfold uniform in *. apply Forall_app in Hu'.
        destruct Hu' as [_ Hu']. inversion Hu'; assumption. }
      replace (pre ++ (sl ++ pivot :: sr) ++ post)
        with ((pre ++ sl) ++ pivot :: (sr ++ post))
        by (rewrite <- !app_assoc; reflexivity).
      replace (size pre + size sl) with (size (pre ++ sl))
        by (apply size_app).
      rewrite vec_at_middle. cbn [bind]. rewrite size_app.
      destruct (IH ((pre ++ sl) ++ pivot :: sr ++ post) (count + 1)
                  (depth + 1) (size pre) (size pre + size sl)
                  pre sl (pivot :: sr ++ post))
        as (nl & sl' & El & Pl & Wl & Il & Kl & Fl);
        [rewrite <- app_assoc; reflexivity | reflexivity | reflexivity
        | unfold size in *; lia | lia | exact Husl |].
      rewrite El. cbn [bind].
      pose proof (Permutation_length Pl) as Hlenl.
      destruct (IH (pre ++ sl' ++ pivot :: sr ++ post)
                  (count + 1 + size (items nl))
                  (depth + 1) (size pre + size sl + 1) (size pre + size s)
                  (pre ++ sl' ++ [pivot]) sr post)
        as (nr & sr' & Er & Pr & Wr & Ir & Kr & Fr);
        [rewrite <- !app_assoc; reflexivity
        | rewrite !size_app; unfold size in *; cbn [List.length]; lia
        | rewrite !size_app; unfold size in *; cbn [List.length]; lia
        | unfold size in *; lia | lia | exact Husr |].
      rewrite Er. cbn [bind].
      exists (Node (embedding pivot) (text pivot) axis nl nr),
             (sl' ++ pivot :: sr').
      cbn [items]. fold (node_item (embedding pivot) (text pivot)).
      rewrite node_item_eta.
      assert (Pall : Permutation (sl' ++ pivot :: sr') s).
      { rewrite <- Hperm. apply Permutation_app; [exact Pl|].
        constructor. exact Pr. }
      split; [|split; [|split; [|split; [|split]]]].
      * do 2 f_equal. f_equal.
        -- rewrite <- !app_assoc. reflexivity.
        -- rewrite size_app, size_cons. lia.
      * exact Pall.
      * cbn [well_dimensioned]. rewrite Hupiv, Z.eqb_refl, Wl, Wr.
        cbn [andb]. rewrite in_range_true by exact Hax. reflexivity.
      * intros y Hy. apply (Permutation_in _ Hperm).
        apply in_app_or in Hy. apply in_or_app.
        destruct Hy as [Hy|[<-|Hy]].
        -- left. apply Il. exact Hy.
        -- right. left. reflexivity.
        -- right. right. apply Ir. exact Hy.
      * intros Hc. cbn [kd_ordered]. rewrite node_item_eta.
        specialize (Hsorted (Hc axis s (incl_refl s))).
        apply StronglySorted_around in Hsorted.
        destruct Hsorted as [Hleft Hright].
        assert (Hin : incl (sl ++ pivot :: sr) s)
          by (intros y Hy; apply (Permutation_in _ Hperm); exact Hy).
        split; [|split; [|split]].
        -- rewrite Forall_forall in *.
           intros y Hy. apply Hleft. apply Il. exact Hy.
        -- rewrite Forall_forall in *.
           intros y Hy. apply Hright. apply Ir. exact Hy.
        -- apply Kl. apply (comparable_incl s); [|exact Hc].
           intros y Hy. apply Hin. apply in_or_app. left. exact Hy.
        -- apply Kr. apply (comparable_incl s); [|exact Hc].
           intros y Hy. apply Hin. apply in_or_app. right. right. exact Hy.
      * intros Hls. rewrite <- Hperm.
        apply Permutation_app; [apply Fl; exact Hls|].
        constructor. apply Fr. exact Hls.
Qed.

Lemma to_int_small : forall z, 0 <= z <= INT_MAX -> to_int z = z.
Proof.
  unfold to_int, INT_MAX. intros z Hz. rewrite Z.mod_small; lia.
Qed.

(** The constructor on a dataset of uniform dimension, read through the
    address the caller passes: it returns, and the tree is well formed. *)
Lemma KDTree_ctor_spec :
  forall (m : memory) (a : nat) (ls dims : Z) (dataset : list DataItem),
    load m a = Returns dataset ->
    1 <= dims <= INT_MAX -> size dataset <= INT_MAX ->
    uniform dims dataset ->
    exists t m',
      KDTree_ctor m a ls = Returns (t, m')
      /\ well_dimensioned dims (root t) = true
      /\ (comparable dataset -> kd_ordered (root t))
      /\ incl (items (root t)) dataset
      /\ (ls <= 1 -> Permutation (items (root t)) dataset)
      /\ node_count t = size (items (root t)).
Proof.
  intros m a ls dims dataset Hload Hd Hn Hu.
  unfold KDTree_ctor. rewrite Hload. cbn [bind].
  destruct dataset as [|d0 rest].
  - eexists. eexists. split; [reflexivity|]. cbn.
    repeat split; try constructor. intros y Hy. exact Hy.
  - unfold alloc. rewrite load_fresh. cbn [bind].
    assert (Hd0 : size (embedding d0) = dims) by (inversion Hu; assumption).
    rewrite Hd0, (to_int_small dims) by lia.
    rewrite (to_int_small (size (d0 :: rest)))
      by (pose proof (size_nonneg _ (d0 :: rest)); lia).
    destruct (buildTree_spec ls dims ltac:(lia)
                (S (Z.to_nat (size (d0 :: rest)))) (d0 :: rest) 0 0 0
                (size (d0 :: rest)) [] (d0 :: rest) [])
      as (node & s' & E & P & W & I & K & F);
      [rewrite app_nil_r; reflexivity | reflexivity | reflexivity
      | unfold size; rewrite Nat2Z.id; lia | lia | exact Hu |].
    rewrite E. cbn [bind].
    eexists. eexists. split; [reflexivity|]. cbn [root node_count].
    split; [exact W|]. split; [exact K|]. split; [exact I|].
    split; [exact F|]. lia.
Qed.

(** The same for a dataset held by the caller. *)
Lemma KDTree_new_spec :
  forall (ls dims : Z) (dataset : list DataItem),
    1 <= dims <= INT_MAX -> size dataset <= INT_MAX ->
    uniform dims dataset ->
    exists t,
      KDTree_new dataset ls = Returns t
      /\ well_dimensioned dims (root t) = true
      /\ (comparable dataset -> kd_ordered (root t))
      /\ incl (items (root t)) dataset
      /\ (ls <= 1 -> Permutation (items (root t)) dataset)
      /\ node_count t = size (items (root t)).
Proof.
  intros ls dims dataset Hd Hn Hu.
  destruct (KDTree_ctor_spec [Some dataset] 0 ls dims dataset
              eq_refl Hd Hn Hu) as (t & m' & E & H).
  exists t. split; [|exact H].
  unfold KDTree_new. rewrite E. reflexivity.
Qed.

End Construction.

(** * Nearest-neighbour search *)

Section Search.
Context {D : Double} {L : DoubleLaws D}.

Local Notation "x <== y" := (d_ltb y x = false) (at level 70).

Lemma d_le_refl : forall x, x <== x.
Proof. apply ltb_irrefl. Qed.

Lemma d_le_trans :
  forall x y z, d_number y = true -> x <== y -> y <== z -> x <== z.
Proof. intros x y z. apply leb_trans. Qed.

Lemma d_lt_le : forall x y, d_ltb x y = true -> x <== y.
Proof. intros x y. apply d_ltb_asym. Qed.

(** A NaN is below nothing and nothing is below it. *)
Lemma d_le_nan_l : forall x y, d_number x = false -> x <== y.
Proof.
  intros x y N. destruct (d_ltb y x) eqn:E; [|reflexivity].
  apply ltb_number in E. destruct E as [_ E]. congruence.
Qed.

Lemma d_le_nan_r : forall x y, d_number y = false -> x <== y.
Proof.
  intros x y N. destruct (d_ltb y x) eqn:E; [|reflexivity].
  apply ltb_number in E. destruct E as [E _]. congruence.
Qed.

Lemma number_zero : d_number d_zero = true.
Proof. unfold d_number. rewrite zero_below_max. reflexivity. Qed.

Lemma number_max : d_number d_max = true.
Proof. unfold d_number. rewrite zero_below_max. apply orb_true_r. Qed.

Lemma number_below : forall x y, d_ltb x y = true -> d_number x = true.
Proof. intros x y H. apply (ltb_number _ _ H). Qed.

Lemma d_le_lt_trans :
  forall x y z,
    d_number x = true -> x <== y -> d_ltb y z = true -> d_ltb x z = true.
Proof.
  intros x y z N H1 H2. destruct (d_ltb x z) eqn:E; [reflexivity|].
  rewrite (leb_trans _ _ _ N E H1) in H2. discriminate.
Qed.

(** A sum of squares that is a number was a number all along. *)
Lemma sum_sq_diff_number_acc :
  forall q p acc,
    d_number (sum_sq_diff q p acc) = true -> d_number acc = true.
Proof.
  induction q as [|x q IH]; intros p acc H; cbn in H; [exact H|].
  destruct p as [|y p]; [exact H|].
  apply IH in H. apply add_number in H. apply H.
Qed.

Lemma sum_sq_diff_number_coord :
  forall a q p acc,
    d_number (sum_sq_diff q p acc) = true ->
    (a < List.length q)%nat -> (a < List.length p)%nat ->
    d_number (d_mul (d_sub (nth a q d_zero) (nth a p d_zero))
                    (d_sub (nth a q d_zero) (nth a p d_zero))) = true.
Proof.
  induction a as [|a IH]; intros q p acc H Hq Hp;
    destruct q as [|x q]; destruct p as [|y p]; cbn in Hq, Hp; try lia;
    cbn [nth sum_sq_diff] in *.
  - apply sum_sq_diff_number_acc in H. apply add_number in H. apply H.
  - apply (IH q p _ H); lia.
Qed.

(** The coordinates behind a squared distance that is a number are
    numbers. *)
Lemma sum_sq_diff_number_coords :
  forall q p acc,
    d_number (sum_sq_diff q p acc) = true ->
    List.length q = List.length p ->
    Forall (fun c => d_number c = true) p.
Proof.
  induction q as [|x q IH]; intros p acc H Hlen;
    destruct p as [|y p]; cbn in Hlen; try lia; [constructor|].
  cbn [sum_sq_diff] in H. constructor.
  - apply sum_sq_diff_number_acc in H. apply add_number in H.
    destruct H as [_ H]. apply mul_number in H. destruct H as [H _].
    apply sub_number in H. apply H.
  - apply (IH p _ H). lia.
Qed.

Lemma sum_sq_diff_ge_acc :
  forall q p acc, d_zero <== acc -> acc <== sum_sq_diff q p acc.
Proof.
  induction q as [|x q IH]; intros p acc Hacc; cbn.
  - apply d_le_refl.
  - destruct p as [|y p]; [apply d_le_refl|].
    set (t := d_mul (d_sub x y) (d_sub x y)).
    destruct (d_number (sum_sq_diff q p (d_add acc t))) eqn:N;
      [|apply d_le_nan_r; exact N].
    pose proof (sum_sq_diff_number_acc _ _ _ N) as N1.
    pose proof (add_number _ _ N1) as [Na _].
    assert (Ht : acc <== d_add acc t) by (apply add_le_l, sq_nonneg).
    apply (d_le_trans _ _ _ N1 Ht). apply IH.
    exact (d_le_trans _ _ _ Na Hacc Ht).
Qed.

Lemma sum_sq_diff_ge_coord :
  forall a q p acc,
    d_zero <== acc ->
    (a < List.length q)%nat -> (a < List.length p)%nat ->
    d_mul (d_sub (nth a q d_zero) (nth a p d_zero))
          (d_sub (nth a q d_zero) (nth a p d_zero))
    <== sum_sq_diff q p acc.
Proof.
  induction a as [|a IH]; intros q p acc Hacc Hq Hp;
    destruct q as [|x q]; destruct p as [|y p]; cbn in Hq, Hp; try lia;
    cbn [nth sum_sq_diff];
    set (t := d_mul (d_sub x y) (d_sub x y));
    (destruct (d_number (sum_sq_diff q p (d_add acc t))) eqn:N;
      [|apply d_le_nan_r; exact N]);
    pose proof (sum_sq_diff_number_acc _ _ _ N) as N1;
    pose proof (add_number _ _ N1) as [Na _];
    assert (Ht : acc <== d_add acc t) by (apply add_le_l, sq_nonneg);
    assert (H0 : d_zero <== d_add acc t)
      by exact (d_le_trans _ _ _ Na Hacc Ht).
  - apply (d_le_trans _ _ _ N1); [|apply sum_sq_diff_ge_acc; exact H0].
    apply add_le_r. exact Hacc.
  - apply IH; [exact H0|lia|lia].
Qed.

(** A squared distance is not below zero. *)
Lemma sqd_nonneg : forall q p, d_zero <== sqd q p.
Proof. intros q p. apply sum_sq_diff_ge_acc. apply d_le_refl. Qed.

Lemma coeff_nth :
  forall (p : Point) i,
    0 <= i < size p -> coeff p i = Returns (nth (Z.to_nat i) p d_zero).
Proof.
  intros p i Hi. unfold coeff. rewrite in_range_true by exact Hi.
  rewrite (nth_error_nth' p d_zero); [reflexivity|].
  unfold size in Hi. lia.
Qed.

(** The plane test is sound: a point on the far side of the splitting
    plane is at least as far from the query as the plane is. *)
Lemma far_side_bound :
  forall dims axis (q p : Point) (txt : string) (x : DataItem),
    size q = dims -> size (embedding x) = dims -> 0 <= axis < dims ->
    let diff := d_sub (nth (Z.to_nat axis) q d_zero)
                      (nth (Z.to_nat axis) p d_zero) in
    (if d_ltb diff d_zero
     then axis_less axis x (node_item p txt) = false
     else axis_less axis (node_item p txt) x = false) ->
    d_mul diff diff <== sqd q (embedding x).
Proof.
  intros dims axis q p txt x Hq Hx Hax diff Hside.
  destruct (d_number (sqd q (embedding x))) eqn:N;
    [|apply d_le_nan_r; exact N].
  assert (Hcoord :
    d_mul (d_sub (nth (Z.to_nat axis) q d_zero)
                 (nth (Z.to_nat axis) (embedding x) d_zero))
          (d_sub (nth (Z.to_nat axis) q d_zero)
                 (nth (Z.to_nat axis) (embedding x) d_zero))
    <== sqd q (embedding x)).
  { apply sum_sq_diff_ge_coord; [apply d_le_refl| |]; unfold size in *; lia. }
  assert (Ncoord :
    d_number
      (d_mul (d_sub (nth (Z.to_nat axis) q d_zero)
                    (nth (Z.to_nat axis) (embedding x) d_zero))
             (d_sub (nth (Z.to_nat axis) q d_zero)
                    (nth (Z.to_nat axis) (embedding x) d_zero))) = true).
  { apply (sum_sq_diff_number_coord _ _ _ _ N); unfold size in *; lia. }
  apply (d_le_trans _ _ _ Ncoord); [|exact Hcoord].
  unfold axis_less in Hside. cbn [embedding node_item] in Hside.
  destruct (d_ltb diff d_zero) eqn:Ed.
  - apply sq_mono_below; assumption.
  - apply sq_mono_above; assumption.
Qed.

Lemma well_dimensioned_uniform :
  forall dims node,
    well_dimensioned dims node = true -> uniform dims (items node).
Proof.
  unfold uniform.
  induction node as [|point txt axis l IHl r IHr]; intros Hwd.
  - constructor.
  - apply well_dimensioned_node in Hwd.
    destruct Hwd as (Hsz & _ & Hwl & Hwr). cbn [items].
    apply Forall_app. split; [apply IHl; exact Hwl|].
    constructor; [exact Hsz | apply IHr; exact Hwr].
Qed.

Lemma search_post_number :
  forall dist cands best best',
    numbers dist cands -> d_number (fst best) = true ->
    search_post dist cands best best' -> d_number (fst best') = true.
Proof.
  intros dist cands best best' Hn Hb (_ & _ & [->|(x & Hx & ->)]);
    [exact Hb|]. apply Hn. exact Hx.
Qed.

(** Visiting the near child and then, when the plane test asks for it, the
    far child. *)
Lemma visit_children :
  forall (first second : NodePtr) (q : Point) (plane : double)
         (best1 : double * string),
    d_number plane = true -> d_number (fst best1) = true ->
    numbers (fun x => sqd q (embedding x)) (items first) ->
    numbers (fun x => sqd q (embedding x)) (items second) ->
    (forall best, d_number (fst best) = true -> exists best',
        nearestNeighbor first q best = Returns best'
        /\ search_post (fun x => sqd q (embedding x)) (items first) best best') ->
    (forall best, d_number (fst best) = true -> exists best',
        nearestNeighbor second q best = Returns best'
        /\ search_post (fun x => sqd q (embedding x)) (items second) best best') ->
    (forall x, In x (items second) -> plane <== sqd q (embedding x)) ->
    exists best',
      (best2 <- nearestNeighbor first q best1 ;;
       if d_ltb plane (fst best2)
       then nearestNeighbor second q best2
       else Returns best2) = Returns best'
      /\ search_post (fun x => sqd q (embedding x))
           (items first ++ items second) best1 best'.
Proof.
  intros first second q plane best1 Np Nb Nf Ns Hfirst Hsecond Hfar.
  destruct (Hfirst best1 Nb) as (best2 & -> & Hpost2).
  pose proof (search_post_number _ _ _ _ Nf Nb Hpost2) as N2.
  destruct Hpost2 as (Hmin2 & Hle2 & Hfrom2).
  cbn [bind].
  destruct (d_ltb plane (fst best2)) eqn:Eplane.
  - destruct (Hsecond best2 N2) as (best3 & -> & Hmin3 & Hle3 & Hfrom3).
    exists best3. split; [reflexivity|]. split; [|split].
    + intros x Hx. apply in_app_or in Hx. destruct Hx as [Hx|Hx].
      * apply (d_le_trans _ _ _ N2); [exact Hle3 | apply Hmin2; exact Hx].
      * apply Hmin3. exact Hx.
    + exact (d_le_trans _ _ _ N2 Hle3 Hle2).
    + destruct Hfrom3 as [->|(x & Hx & ->)].
      * destruct Hfrom2 as [->|(x & Hx & ->)]; [left; reflexivity|].
        right. exists x. split; [apply in_or_app; left; exact Hx|reflexivity].
      * right. exists x. split; [apply in_or_app; right; exact Hx|reflexivity].
  - exists best2. split; [reflexivity|]. split; [|split].
    + intros x Hx. apply in_app_or in Hx. destruct Hx as [Hx|Hx].
      * apply Hmin2. exact Hx.
      * apply (d_le_trans _ _ _ Np); [exact Eplane | apply Hfar; exact Hx].
    + exact Hle2.
    + destruct Hfrom2 as [->|(x & Hx & ->)]; [left; reflexivity|].
      right. exists x. split; [apply in_or_app; left; exact Hx|reflexivity].
Qed.

(** [nearestNeighbor] on an ordered tree of the query's dimension, none of
    whose points is at a NaN squared distance, ends with the smallest
    squared distance among the start and the items. *)
Lemma nearestNeighbor_spec :
  forall dims (q : Point) node,
    size q = dims ->
    well_dimensioned dims node = true ->
    kd_ordered node ->
    numbers (fun x => sqd q (embedding x)) (items node) ->
    forall best, d_number (fst best) = true -> exists best',
      nearestNeighbor node q best = Returns best'
      /\ search_post (fun x => sqd q (embedding x)) (items node) best best'.
Proof.
  intros dims q node Hq.
  induction node as [|point txt axis l IHl r IHr];
    intros Hwd Hord Hnum best Nb.
  - exists best. split; [reflexivity|]. split; [|split].
    + intros x [].
    + apply d_le_refl.
    + left. reflexivity.
  - pose proof (well_dimensioned_uniform _ _ Hwd) as Hunif.
    apply well_dimensioned_node in Hwd.
    destruct Hwd as (Hsz & Hax & Hwl & Hwr).
    destruct Hord as (Hleft & Hright & Hol & Hor).
    assert (Nl : numbers (fun x => sqd q (embedding x)) (items l)).
    { intros x Hx. apply Hnum. cbn [items]. apply in_or_app. left. exact Hx. }
    assert (Nr : numbers (fun x => sqd q (embedding x)) (items r)).
    { intros x Hx. apply Hnum. cbn [items]. apply in_or_app.
      right. right. exact Hx. }
    assert (Npt : d_number (sqd q point) = true).
    { apply (Hnum (node_item point txt)). cbn [items]. apply in_elt. }
    specialize (IHl Hwl Hol Nl). specialize (IHr Hwr Hor Nr).
    cbn [items] in Hunif. unfold uniform in Hunif.
    apply Forall_app in Hunif. destruct Hunif as [Hul Hur].
    apply Forall_cons_iff in Hur. destruct Hur as [_ Hur].
    rewrite Forall_forall in Hleft, Hright, Hul, Hur.
    cbn [nearestNeighbor]. unfold squaredNorm_diff.
    rewrite Hq, Hsz, Z.eqb_refl. cbn [bind].
    rewrite (coeff_nth q axis) by lia.
    rewrite (coeff_nth point axis) by lia.
    cbn [bind]. fold (sqd q point).
    set (dist := sqd q point) in *.
    set (best1 := if d_ltb dist (fst best) then (dist, txt) else best).
    set (diff := d_sub (nth (Z.to_nat axis) q d_zero)
                       (nth (Z.to_nat axis) point d_zero)).
    assert (Nplane : d_number (d_mul diff diff) = true).
    { apply (sum_sq_diff_number_coord _ _ _ _ Npt); unfold size in *; lia. }
    assert (Hb1 : fst best1 <== dist /\ fst best1 <== fst best
                  /\ (best1 = best \/ best1 = (dist, txt))).
    { unfold best1. destruct (d_ltb dist (fst best)) eqn:E; cbn [fst].
      - split; [apply d_le_refl|]. split; [apply d_lt_le; exact E|].
        right. reflexivity.
      - split; [exact E|]. split; [apply d_le_refl|]. left. reflexivity. }
    destruct Hb1 as (Hb1d & Hb1b & Hb1c).
    assert (Nb1 : d_number (fst best1) = true).
    { destruct Hb1c as [-> | ->]; [exact Nb|exact Npt]. }
    assert (Hfar : forall x,
      In x (items (if d_ltb diff d_zero then r else l)) ->
      d_mul diff diff <== sqd q (embedding x)).
    { intros x Hx.
      apply (far_side_bound dims axis q point txt x Hq); [|lia|].
      - destruct (d_ltb diff d_zero); [apply Hur|apply Hul]; exact Hx.
      - fold diff. destruct (d_ltb diff d_zero);
          [apply Hright|apply Hleft]; exact Hx. }
    assert (Hvisit : exists best',
      (best2 <- nearestNeighbor (if d_ltb diff d_zero then l else r) q best1 ;;
       if d_ltb (d_mul diff diff) (fst best2)
       then nearestNeighbor (if d_ltb diff d_zero then r else l) q best2
       else Returns best2) = Returns best'
      /\ search_post (fun x => sqd q (embedding x))
           (items (if d_ltb diff d_zero then l else r)
            ++ items (if d_ltb diff d_zero then r else l)) best1 best').
    { apply visit_children; try assumption;
        destruct (d_ltb diff d_zero); assumption. }
    destruct Hvisit as (best' & -> & Hmin & Hle & Hfrom).
    exists best'. split; [reflexivity|].
    assert (Hsub : forall x,
      In x (items l) \/ In x (items r) <->
      In x (items (if d_ltb diff d_zero then l else r)
            ++ items (if d_ltb diff d_zero then r else l))).
    { intros x. rewrite in_app_iff.
      destruct (d_ltb diff d_zero); tauto. }
    split; [|split].
    + intros x Hx. apply in_app_or in Hx.
      destruct Hx as [Hx|[<-|Hx]].
      * apply Hmin. apply Hsub. left. exact Hx.
      * cbn [embedding]. exact (d_le_trans _ _ _ Nb1 Hle Hb1d).
      * apply Hmin. apply Hsub. right. exact Hx.
    + exact (d_le_trans _ _ _ Nb1 Hle Hb1b).
    + destruct Hfrom as [->|(x & Hx & ->)].
      * destruct Hb1c as [-> | ->]; [left; reflexivity|].
        right. exists (node_item point txt).
        split; [apply in_elt|reflexivity].
      * right. exists x. split; [|reflexivity].
        apply Hsub in Hx. apply in_or_app.
        destruct Hx as [Hx|Hx]; [left; exact Hx|right; right; exact Hx].
Qed.

(** The loop of the linear scanner ends with the smallest distance among
    the start and the items, when no distance is a NaN. *)
Lemma linear_loop_spec :
  forall dims (q : Point),
    size q = dims ->
    forall dataset best,
      uniform dims dataset ->
      numbers (fun x => d_sqrt (sqd q (embedding x))) dataset ->
      d_number (fst best) = true ->
      exists best',
        linear_loop q dataset best = Returns best'
        /\ search_post (fun x => d_sqrt (sqd q (embedding x))) dataset
             best best'.
Proof.
  intros dims q Hq.
  induction dataset as [|it rest IH]; intros best Hu Hnum Nb.
  - exists best. split; [reflexivity|]. split; [|split].
    + intros x [].
    + apply d_le_refl.
    + left. reflexivity.
  - inversion Hu as [|? ? Hit Hrest]; subst.
    cbn [linear_loop]. unfold linear_step, norm_diff, squaredNorm_diff.
    rewrite Hit, Z.eqb_refl. cbn [bind]. fold (sqd q (embedding it)).
    pose proof (Hnum it (or_introl eq_refl)) as Nit. cbv beta in Nit.
    set (dist := d_sqrt (sqd q (embedding it))) in *.
    assert (Hstep : exists best1,
      (if d_ltb dist (fst best) then Returns (dist, text it)
       else Returns best) = Returns best1
      /\ fst best1 <== dist /\ fst best1 <== fst best
      /\ (best1 = best \/ best1 = (dist, text it))).
    { destruct (d_ltb dist (fst best)) eqn:E; eexists;
        (split; [reflexivity|]); cbn [fst].
      - split; [apply d_le_refl|]. split; [apply d_lt_le; exact E|].
        right. reflexivity.
      - split; [exact E|]. split; [apply d_le_refl|]. left. reflexivity. }
    destruct Hstep as (best1 & -> & Hb1d & Hb1b & Hb1c). cbn [bind].
    assert (Nb1 : d_number (fst best1) = true).
    { destruct Hb1c as [-> | ->]; [exact Nb|exact Nit]. }
    destruct (IH best1 Hrest) as (best' & -> & Hmin & Hle & Hfrom);
      [intros x Hx; apply Hnum; right; exact Hx | exact Nb1 |].
    exists best'. split; [reflexivity|]. split; [|split].
    + intros x [<-|Hx].
      * exact (d_le_trans _ _ _ Nb1 Hle Hb1d).
      * apply Hmin. exact Hx.
    + exact (d_le_trans _ _ _ Nb1 Hle Hb1b).
    + destruct Hfrom as [->|(x & Hx & ->)].
      * destruct Hb1c as [-> | ->]; [left; reflexivity|].
        right. exists it. split; [left; reflexivity|reflexivity].
      * right. exists x. split; [right; exact Hx|reflexivity].
Qed.

(** Squared distances below [DBL_MAX] are numbers with square roots below
    [DBL_MAX], and the coordinates behind them are numbers. *)
Lemma below_max_numbers :
  forall (q : Point) (dataset : list DataItem),
    (forall x, In x dataset -> d_ltb (sqd q (embedding x)) d_max = true) ->
    numbers (fun x => sqd q (embedding x)) dataset
    /\ numbers (fun x => d_sqrt (sqd q (embedding x))) dataset
    /\ forall x, In x dataset ->
         d_ltb (d_sqrt (sqd q (embedding x))) d_max = true.
Proof.
  intros q dataset H.
  assert (H' : forall x, In x dataset ->
             d_ltb (d_sqrt (sqd q (embedding x))) d_max = true).
  { intros x Hx. apply sqrt_below_max; [apply sqd_nonneg|apply H; exact Hx]. }
  split; [|split].
  - intros x Hx. exact (number_below _ _ (H x Hx)).
  - intros x Hx. exact (number_below _ _ (H' x Hx)).
  - exact H'.
Qed.

Lemma numbers_numeric :
  forall dims (q : Point) (dataset : list DataItem),
    size q = dims -> uniform dims dataset ->
    numbers (fun x => sqd q (embedding x)) dataset ->
    numeric dataset.
Proof.
  intros dims q dataset Hq Hu Hn. unfold numeric, uniform in *.
  rewrite Forall_forall in *. intros x Hx.
  apply (sum_sq_diff_number_coords q _ d_zero); [apply Hn; exact Hx|].
  specialize (Hu x Hx). unfold size in *. lia.
Qed.

(** On items without NaN coordinates the comparators of [buildTree] are
    strict weak orderings. *)
Lemma numeric_comparable :
  forall dataset, numeric dataset -> comparable dataset.
Proof.
  intros dataset Hn axis l Hl. unfold numeric in Hn.
  rewrite Forall_forall in Hn.
  unfold strict_weak, axis_less. repeat split; intros.
  - apply ltb_irrefl.
  - eapply ltb_trans; eassumption.
  - eapply leb_trans; [|eassumption|eassumption].
    match goal with
    | H : In ?y l |- d_number (nth _ (embedding ?y) _) = true =>
        specialize (Hn y (Hl y H))
    end.
    rewrite Forall_forall in Hn.
    match goal with
    | |- d_number (nth ?n ?v _) = true =>
        destruct (nth_in_or_default n v d_zero) as [Hin| ->];
        [apply Hn; exact Hin|apply number_zero]
    end.
Qed.

End Search.

(** * The tree against the linear scanner *)

Section Oracle.
Context {D : Double} {L : DoubleLaws D} {Srt : StdSort} {SL : SortLaws Srt}.

(** With a leaf size up to 1 (1 is the default of the constructor), on a
    dataset of one dimension and a query of that dimension with squared
    distances below [DBL_MAX], the tree and the linear scanner both
    answer, and they return the same text or distances that compare
    equal. *)
Lemma default_leaf_size_agrees_with_linear_scan :
  forall (leaf_size dims : Z) (dataset : list DataItem) (query : Point),
    leaf_size <= 1 ->
    1 <= dims <= INT_MAX -> size dataset <= INT_MAX ->
    uniform dims dataset ->
    size query = dims ->
    (forall x, In x dataset -> d_ltb (sqd query (embedding x)) d_max = true) ->
    exists t kd lin,
      KDTree_new dataset leaf_size = Returns t
      /\ nearest t query = Returns kd
      /\ linear_nearest (LinearSearch_new dataset) query = Returns lin
      /\ (snd kd = snd lin
          \/ (d_ltb (fst kd) (fst lin) = false
              /\ d_ltb (fst lin) (fst kd) = false)).
Proof.
  intros ls dims dataset query Hls Hd Hn Hu Hq Hrange.
  destruct (below_max_numbers query dataset Hrange) as (Nsq & Nrt & Hroot).
  destruct (KDTree_new_spec ls dims dataset Hd Hn Hu)
    as (t & Et & W & K & _ & F & _).
  specialize (F Hls).
  specialize (K (numeric_comparable _
                   (numbers_numeric dims query dataset Hq Hu Nsq))).
  assert (Nt : numbers (fun x => sqd query (embedding x)) (items (root t))).
  { intros x Hx. apply Nsq. apply (Permutation_in _ F). exact Hx. }
  destruct (nearestNeighbor_spec dims query (root t) Hq W K Nt (d_max, "")
              number_max) as (bk & Ek & Hmin & _ & Hfrom).
  destruct (linear_loop_spec dims query Hq dataset (d_max, "") Hu Nrt
              number_max) as (bl & El & Lmin & _ & Lfrom).
  exists t, (d_sqrt (fst bk), snd bk), bl.
  split; [exact Et|].
  split; [unfold nearest; rewrite Ek; reflexivity|].
  split; [exact El|].
  cbn [fst snd].
  destruct Hfrom as [->|(x & Hx & ->)]; destruct Lfrom as [->|(y & Hy & ->)];
    cbn [fst snd] in *.
  - left. reflexivity.
  - exfalso. apply (Permutation_in _ (Permutation_sym F)) in Hy.
    specialize (Hmin y Hy). apply (Permutation_in _ F) in Hy.
    rewrite (Hrange y Hy) in Hmin. discriminate.
  - exfalso. apply (Permutation_in _ F) in Hx.
    specialize (Lmin x Hx). cbv beta in Lmin.
    rewrite (Hroot x Hx) in Lmin. discriminate.
  - right. split.
    + apply Lmin. apply (Permutation_in _ F). exact Hx.
    + apply sqrt_mono. apply Hmin.
      apply (Permutation_in _ (Permutation_sym F)). exact Hy.
Qed.


Lemma pq_push_size :
  forall e (pq : priority_queue), size (pq_push e pq) = size pq + 1.
Proof.
  induction pq as [|x r IH]; cbn [pq_push].
  - reflexivity.
  - destruct (pair_less x e); rewrite !size_cons; [|rewrite IH]; lia.
Qed.

Lemma kNearestNeighbors_size :
  forall node query k pq pq',
    k <= INT_MAX -> size pq <= k ->
    kNearestNeighbors node query pq k = Returns pq' ->
    size pq' = Z.min k (size pq + size (items node)).
Proof.
  induction node as [|point txt axis l IHl r IHr];
    intros query k pq pq' Hk Hpq H.
  - injection H as <-. cbn [items]. change (size (@nil DataItem)) with 0. lia.
  - cbn [kNearestNeighbors] in H.
    destruct (squaredNorm_diff query point) as [dist| |]; try discriminate.
    cbn [bind] in H.
    match type of H with
    | bind ?m _ = _ => destruct m as [pq1| |] eqn:E1; try discriminate
    end.
    cbn [bind] in H.
    pose proof (size_nonneg _ pq) as Hpq0.
    assert (Hsz : forall p : priority_queue,
               0 <= size p <= k -> pq_size p = size p).
    { intros p Hp. apply to_int_small. lia. }
    assert (H1 : size pq1 = Z.min k (size pq + 1)).
    { rewrite (Hsz pq) in E1 by lia.
      destruct (size pq <? k) eqn:Ek.
      - apply Z.ltb_lt in Ek. injection E1 as <-. rewrite pq_push_size. lia.
      - apply Z.ltb_ge in Ek. destruct pq as [|x pq0]; [discriminate|].
        cbn [pq_top pq_pop bind] in E1. rewrite size_cons in *.
        destruct (d_ltb dist (fst x)); injection E1 as <-;
          rewrite ?pq_push_size, ?size_cons; lia. }
    destruct (coeff query axis) as [qa| |]; try discriminate.
    destruct (coeff point axis) as [pa| |]; try discriminate.
    cbn [bind] in H. cbn [items]. rewrite size_app, size_cons.
    pose proof (size_nonneg _ (items l)) as Hl0.
    pose proof (size_nonneg _ (items r)) as Hr0.
    destruct (d_ltb (d_sub qa pa) d_zero).
    + destruct (kNearestNeighbors l query pq1 k) as [pq2| |] eqn:E2;
        try discriminate.
      cbn [bind] in H. apply IHl in E2; [|lia|lia].
      rewrite (Hsz pq2) in H by (pose proof (size_nonneg _ pq2); lia).
      match type of H with
      | (if ?c || ?d then _ else _) = _ => destruct c; cbn [orb] in H
      end.
      * apply IHr in H; lia.
      * destruct (size pq2 <? k) eqn:Ek.
        -- apply IHr in H; lia.
        -- apply Z.ltb_ge in Ek. injection H as <-. lia.
    + destruct (kNearestNeighbors r query pq1 k) as [pq2| |] eqn:E2;
        try discriminate.
      cbn [bind] in H. apply IHr in E2; [|lia|lia].
      rewrite (Hsz pq2) in H by (pose proof (size_nonneg _ pq2); lia).
      match type of H with
      | (if ?c || ?d then _ else _) = _ => destruct c; cbn [orb] in H
      end.
      * apply IHl in H; lia.
      * destruct (size pq2 <? k) eqn:Ek.
        -- apply IHl in H; lia.
        -- apply Z.ltb_ge in Ek. injection H as <-. lia.
Qed.


End Oracle.

(** * Runs on sample data *)

Section RunsOnBinary64.
#[local] Existing Instance binary64.
#[local] Existing Instance isort.

(** [buildTree] reorders the vector it is given: here the two items are
    swapped into ascending order of their coordinate. *)
Lemma buildTree_sorts_its_vector :
  buildTree 3 1 1 unsorted_points 0 0 0 2
  = Returns (Node [1%float] "b" 0
               (Node [0%float] "a" 0 nullptr nullptr) nullptr,
             (two_points, 2)).
Proof. reflexivity. Qed.

Lemma constructor_leaves_dataset_unchanged_witness :
  exists t,
    KDTree_ctor [Some unsorted_points] 0 1
    = Returns (t, [Some unsorted_points; None])
    /\ load [Some unsorted_points; None] 0 = load [Some unsorted_points] 0.
Proof.
  eexists. split; [reflexivity|].
  exact (constructor_leaves_dataset_unchanged
           [Some unsorted_points] 0 1 _ _ eq_refl 0).
Defined.

(** In binary64, on five points and the query [[2.25]], the tree and the
    linear scanner return the same pair, and the three nearest neighbours
    come in ascending order of distance. *)
Lemma searches_on_five_floats :
  (t <- KDTree_new five_floats 1 ;; nearest t [2.25%float])
    = Returns (0.25%float, "c")
  /\ linear_nearest (LinearSearch_new five_floats) [2.25%float]
    = Returns (0.25%float, "c")
  /\ (t <- KDTree_new five_floats 1 ;; kNearest t [2.25%float] 3)
    = Returns [(0.25%float, "c"); (0.75%float, "d"); (1.25%float, "b")].
Proof. repeat split; vm_compute; reflexivity. Qed.

End RunsOnBinary64.

Section WitnessesOnBinary64.
#[local] Existing Instance binary64.
#[local] Existing Instance isort.

Lemma five_floats_tree_built :
  KDTree_new five_floats 1 = Returns five_floats_tree.
Proof. vm_compute. reflexivity. Qed.

Lemma kNearest_distances_ascend_witness :
  kNearest five_floats_tree [2.25%float] 3
  = Returns [(0.25%float, "c"); (0.75%float, "d"); (1.25%float, "b")]
  /\ StronglySorted (fun a b : float => (b <? a)%float = false)
       [0.25%float; 0.75%float; 1.25%float].
Proof.
  split; [vm_compute; reflexivity|].
  refine (kNearest_distances_ascend (L := binary64_laws)
            five_floats_tree [2.25%float] 3 _).
  repeat constructor.
Defined.

(** With a NaN among the coordinates the distances that [kNearest]
    returns need not ascend: here they are 5, NaN and 4. *)
Lemma kNearest_distances_descend_past_a_nan :
  exists t,
    KDTree_new nan_points 1 = Returns t
    /\ kNearest t [0%float; 0%float] 3
       = Returns [(5%float, "a"); (nan, "b"); (4%float, "c")]
    /\ ~ StronglySorted (fun a b : float => (b <? a)%float = false)
           (map fst [(5%float, "a"); (nan, "b"); (4%float, "c")]).
Proof.
  eexists. split; [vm_compute; reflexivity|].
  split; [vm_compute; reflexivity|].
  cbn [map fst]. intros H.
  apply StronglySorted_inv in H. destruct H as [_ H].
  apply Forall_inv_tail, Forall_inv in H. vm_compute in H. discriminate.
Qed.

Lemma default_leaf_size_on_five_floats :
  exists t kd lin,
    KDTree_new five_floats 1 = Returns t
    /\ nearest t [2.25%float] = Returns kd
    /\ linear_nearest (LinearSearch_new five_floats) [2.25%float] = Returns lin
    /\ (snd kd = snd lin
        \/ ((fst kd <? fst lin)%float = false
            /\ (fst lin <? fst kd)%float = false)).
Proof.
  apply (default_leaf_size_agrees_with_linear_scan
           (L := binary64_laws) (SL := isort_laws)
           1 1 five_floats [2.25%float]).
  - lia.
  - unfold INT_MAX. lia.
  - vm_compute. discriminate.
  - repeat constructor.
  - reflexivity.
  - intros x Hx. cbn in Hx.
    repeat (destruct Hx as [<-|Hx]; [vm_compute; reflexivity|]).
    destruct Hx.
Qed.

End WitnessesOnBinary64.

(** * More on construction *)

Section NodeCount.
Context {D : Double} {Srt : StdSort}.

Lemma buildTree_count :
  forall fuel ls dims data count depth start end_ node data' count',
    buildTree fuel ls dims data count depth start end_
    = Returns (node, (data', count')) ->
    count' = count + size (items node).
Proof.
  induction fuel as [|fuel IH];
    intros ls dims data count depth start end_ node data' count' H;
    [discriminate|].
  cbn [buildTree] in H.
  destruct (start >=? end_).
  - injection H as <- _ <-. cbn. lia.
  - destruct (end_ - start <=? ls).
    + destruct (vec_at data start) as [it| |]; try discriminate.
      cbn [bind] in H. injection H as <- _ <-. cbn. lia.
    + destruct (int_rem depth dims) as [axis| |]; try discriminate.
      cbn [bind] in H.
      destruct (sort_range data start end_ axis) as [data1| |];
        try discriminate.
      cbn [bind] in H. cbv zeta in H.
      destruct (vec_at data1 _) as [pivot| |]; try discriminate.
      cbn [bind] in H.
      destruct (buildTree fuel ls dims data1 _ _ _ _)
        as [[l [data2 count2]]| |] eqn:El; try discriminate.
      cbn [bind] in H.
      destruct (buildTree fuel ls dims data2 _ _ _ _)
        as [[r [data3 count3]]| |] eqn:Er; try discriminate.
      cbn [bind] in H. injection H as <- _ <-.
      apply IH in El. apply IH in Er. cbn [items].
      unfold size in *. rewrite length_app. cbn [List.length]. lia.
Qed.

(** X1: whenever the constructor returns, [getNodeCount] is the number of
    nodes of the tree, for every dataset and every leaf size. *)
Theorem getNodeCount_counts_nodes :
  forall (m : memory) (a : nat) (leaf_size : Z) (t : KDTree) (m' : memory),
    KDTree_ctor m a leaf_size = Returns (t, m') ->
    getNodeCount t = size (items (root t)).
Proof.
  intros m a ls t m' H. unfold KDTree_ctor in H.
  destruct (load m a) as [v| |]; try discriminate. cbn [bind] in H.
  destruct v as [|d0 v].
  - injection H as <- _. reflexivity.
  - unfold alloc in H.
    destruct (load _ _) as [copy| |]; try discriminate. cbn [bind] in H.
    destruct (buildTree _ _ _ _ _ _ _ _) as [[r [copy' count]]| |] eqn:E;
      try discriminate.
    cbn [bind] in H. injection H as <- _.
    apply buildTree_count in E. cbn. lia.
Qed.

End NodeCount.

Section Shapes.
Context {D : Double} {Srt : StdSort} {SL : SortLaws Srt}.







End Shapes.

Section OrderedTrees.
Context {D : Double} {L : DoubleLaws D} {Srt : StdSort} {SL : SortLaws Srt}.

(** X3: for a dataset of one dimension [1 <= dims] none of whose
    coordinates is a NaN, and every leaf size, the constructor returns a
    tree that holds only items of the dataset, whose points all have the
    dimension of the dataset, and in which no item left of a node exceeds
    the node on the node's axis and no item right of it is below the
    node. *)
Theorem tree_is_ordered :
  forall (leaf_size dims : Z) (dataset : list DataItem),
    1 <= dims <= INT_MAX -> size dataset <= INT_MAX ->
    uniform dims dataset -> numeric dataset ->
    exists t,
      KDTree_new dataset leaf_size = Returns t
      /\ incl (items (root t)) dataset
      /\ well_dimensioned dims (root t) = true
      /\ kd_ordered (root t).
Proof.
  intros ls dims dataset Hd Hn Hu Hnum.
  destruct (KDTree_new_spec ls dims dataset Hd Hn Hu)
    as (t & Et & W & K & I & _ & _).
  exists t. repeat split; try assumption.
  apply K. apply numeric_comparable. exact Hnum.
Qed.

End OrderedTrees.


(** * More on the searches *)

Section MoreSearch.
Context {D : Double} {L : DoubleLaws D}.


End MoreSearch.

Section SelfRetrieval.
Context {D : Double} {L : DoubleLaws D}.
Context {Srt : StdSort} {SL : SortLaws Srt}.


End SelfRetrieval.

Section LinearScan.
Context {D : Double} {L : DoubleLaws D}.

Lemma d_lt_le_trans :
  forall x y z,
    d_number z = true ->
    d_ltb x y = true -> d_ltb z y = false -> d_ltb x z = true.
Proof.
  intros x y z N Hxy Hyz. destruct (d_ltb x z) eqn:E; [reflexivity|].
  rewrite (leb_trans y z x N Hyz E) in Hxy. discriminate.
Qed.

(** The loop of the linear scanner ends with the start, when no item is
    below it, or with the first of the items at the smallest distance,
    when no distance is a NaN. *)
Lemma linear_loop_first_minimum :
  forall dims (q : Point),
    size q = dims ->
    forall dataset best,
      uniform dims dataset ->
      numbers (fun x => d_sqrt (sqd q (embedding x))) dataset ->
      exists best',
        linear_loop q dataset best = Returns best'
        /\ ((best' = best
             /\ forall x, In x dataset ->
                  d_ltb (d_sqrt (sqd q (embedding x))) (fst best) = false)
            \/ exists pre x post,
                 dataset = pre ++ x :: post
                 /\ best' = (d_sqrt (sqd q (embedding x)), text x)
                 /\ d_ltb (d_sqrt (sqd q (embedding x))) (fst best) = true
                 /\ (forall y, In y pre ->
                       d_ltb (d_sqrt (sqd q (embedding x)))
                             (d_sqrt (sqd q (embedding y))) = true)
                 /\ (forall y, In y post ->
                       d_ltb (d_sqrt (sqd q (embedding y)))
                             (d_sqrt (sqd q (embedding x))) = false)).
Proof.
  intros dims q Hq.
  induction dataset as [|it rest IH]; intros best Hu Hnum.
  - exists best. split; [reflexivity|]. left. split; [reflexivity|].
    intros x [].
  - inversion Hu as [|? ? Hit Hrest]; subst.
    cbn [linear_loop]. unfold linear_step, norm_diff, squaredNorm_diff.
    rewrite Hit, Z.eqb_refl. cbn [bind]. fold (sqd q (embedding it)).
    pose proof (Hnum it (or_introl eq_refl)) as Nit. cbv beta in Nit.
    assert (Nrest : numbers (fun x => d_sqrt (sqd q (embedding x))) rest)
      by (intros y Hy; apply Hnum; right; exact Hy).
    set (dist := fun x : DataItem => d_sqrt (sqd q (embedding x))) in *.
    change (d_sqrt (sqd q (embedding it))) with (dist it) in *.
    destruct (d_ltb (dist it) (fst best)) eqn:E; cbn [bind].
    + destruct (IH (dist it, text it) Hrest Nrest) as (best' & -> & Hcase).
      exists best'. split; [reflexivity|]. right.
      destruct Hcase as [[-> Hall]|(pre & x & post & -> & -> & Hlt & Hpre & Hpost)].
      * exists [], it, rest. cbn [fst] in Hall.
        repeat split; try assumption. intros y [].
      * exists (it :: pre), x, post. cbn [fst] in Hlt.
        split; [reflexivity|]. split; [reflexivity|].
        split; [eapply ltb_trans; eassumption|].
        split; [|exact Hpost].
        intros y [<-|Hy]; [exact Hlt|apply Hpre; exact Hy].
    + destruct (IH best Hrest Nrest) as (best' & -> & Hcase).
      exists best'. split; [reflexivity|].
      destruct Hcase as [[-> Hall]|(pre & x & post & -> & -> & Hlt & Hpre & Hpost)].
      * left. split; [reflexivity|].
        intros y [<-|Hy]; [exact E|apply Hall; exact Hy].
      * right. exists (it :: pre), x, post.
        split; [reflexivity|]. split; [reflexivity|].
        split; [exact Hlt|]. split; [|exact Hpost].
        intros y [<-|Hy]; [|apply Hpre; exact Hy].
        exact (d_lt_le_trans _ _ _ Nit Hlt E).
Qed.

(** X8: the linear scanner returns the first item, in the order of the
    dataset, among those at the smallest distance from the query, the
    distance being the rounded square root of the rounded squared distance
    that the scanner compares: every item before it is strictly farther,
    no item after it is nearer.  The dataset has one dimension, is not
    empty, and the squared distances are below [DBL_MAX]. *)
Theorem linear_nearest_returns_first_minimum :
  forall (dims : Z) (dataset : list DataItem) (query : Point),
    size query = dims -> uniform dims dataset -> dataset <> [] ->
    (forall x, In x dataset -> d_ltb (sqd query (embedding x)) d_max = true) ->
    exists pre x post,
      dataset = pre ++ x :: post
      /\ linear_nearest (LinearSearch_new dataset) query
         = Returns (d_sqrt (sqd query (embedding x)), text x)
      /\ (forall y, In y pre ->
            d_ltb (d_sqrt (sqd query (embedding x)))
                  (d_sqrt (sqd query (embedding y))) = true)
      /\ (forall y, In y post ->
            d_ltb (d_sqrt (sqd query (embedding y)))
                  (d_sqrt (sqd query (embedding x))) = false).
Proof.
  intros dims dataset query Hq Hu Hne Hrange.
  destruct (below_max_numbers query dataset Hrange) as (_ & Nrt & Hroot).
  destruct (linear_loop_first_minimum dims query Hq dataset (d_max, "") Hu Nrt)
    as (best' & E & Hcase).
  destruct Hcase as [[-> Hall]|(pre & x & post & -> & -> & _ & Hpre & Hpost)].
  - exfalso. destruct dataset as [|y rest]; [apply Hne; reflexivity|].
    specialize (Hall y (or_introl eq_refl)). cbn [fst] in Hall.
    rewrite (Hroot y (or_introl eq_refl)) in Hall.
    discriminate.
  - exists pre, x, post. split; [reflexivity|].
    split; [exact E|]. split; assumption.
Qed.

End LinearScan.

(** * The k nearest neighbours *)

Section KNearest.
Context {D : Double} {L : DoubleLaws D}.

(** X9: when [kNearest] returns for [1 <= k], on any tree, the result has
    [k] entries or as many as the tree has nodes, whichever is less. *)
Theorem kNearest_returns_min_k_nodes :
  forall (t : KDTree) (query : Point) (k : Z) (result : list (double * string)),
    1 <= k <= INT_MAX ->
    kNearest t query k = Returns result ->
    size result = Z.min k (size (items (root t))).
Proof.
  intros t query k result Hk H. unfold kNearest in H.
  destruct (kNearestNeighbors (root t) query [] k) as [pq| |] eqn:E;
    try discriminate.
  cbn [bind] in H. injection H as <-.
  apply kNearestNeighbors_size in E; [|lia|cbn; lia].
  unfold size in *. rewrite length_rev, drain_map. cbn [app].
  rewrite length_map, E. cbn. lia.
Qed.











End KNearest.

Section KNearestExact.
Context {D : Double} {L : DoubleLaws D} {Srt : StdSort} {SL : SortLaws Srt}.


End KNearestExact.

(** * Runs of the further properties on sample data *)

Section FurtherWitnessesOnBinary64.
#[local] Existing Instance binary64.
#[local] Existing Instance isort.

Lemma five_floats_uniform : uniform 1 five_floats.
Proof. repeat constructor. Qed.

Lemma five_floats_numeric : numeric five_floats.
Proof. repeat constructor. Qed.

Lemma getNodeCount_counts_nodes_witness :
  getNodeCount five_floats_tree = size (items (root five_floats_tree)).
Proof.
  apply (getNodeCount_counts_nodes [Some five_floats] 0 1 five_floats_tree
           [Some five_floats; None]).
  vm_compute. reflexivity.
Defined.


Lemma tree_is_ordered_witness :
  exists t,
    KDTree_new five_floats 3 = Returns t
    /\ incl (items (root t)) five_floats
    /\ well_dimensioned 1 (root t) = true
    /\ kd_ordered (root t).
Proof.
  apply (tree_is_ordered (L := binary64_laws) (SL := isort_laws)
           3 1 five_floats).
  - unfold INT_MAX. lia.
  - unfold INT_MAX. cbn. lia.
  - repeat constructor.
  - repeat constructor.
Defined.





(** By underflow the item returned can have another vector: among
    ["a"] at 0 and ["b"] at [2 ^ -600], the squared distance from the
    query [[0]] to ["b"] rounds to zero, and [nearest] returns ["b"]. *)
Lemma nearest_retrieves_another_item_by_underflow :
  (t <- KDTree_new [item "a" [0%float]; item "b" [0x1p-600%float]] 1 ;;
   nearest t [0%float])
  = Returns (0%float, "b").
Proof. vm_compute. reflexivity. Qed.

Lemma linear_nearest_returns_first_minimum_witness :
  exists pre x post,
    five_floats = pre ++ x :: post
    /\ linear_nearest (LinearSearch_new five_floats) [2.5%float]
       = Returns (d_sqrt (sqd [2.5%float] (embedding x)), text x)
    /\ (forall y, In y pre ->
          d_ltb (d_sqrt (sqd [2.5%float] (embedding x)))
                (d_sqrt (sqd [2.5%float] (embedding y))) = true)
    /\ (forall y, In y post ->
          d_ltb (d_sqrt (sqd [2.5%float] (embedding y)))
                (d_sqrt (sqd [2.5%float] (embedding x))) = false).
Proof.
  apply (linear_nearest_returns_first_minimum (L := binary64_laws)
           1 five_floats [2.5%float]).
  - reflexivity.
  - repeat constructor.
  - discriminate.
  - intros x Hx. cbn in Hx.
    repeat (destruct Hx as [<-|Hx]; [vm_compute; reflexivity|]).
    destruct Hx.
Defined.

(** At the query [[2.5]] the items ["c"] and ["d"] are equally near; the
    linear scanner returns ["c"], the earlier one. *)
Lemma linear_nearest_on_a_tie :
  linear_nearest (LinearSearch_new five_floats) [2.5%float]
  = Returns (0.5%float, "c").
Proof. vm_compute. reflexivity. Qed.

Lemma kNearest_returns_min_k_nodes_witness :
  size [(0.25%float, "c"); (0.75%float, "d"); (1.25%float, "b")]
  = Z.min 3 (size (items (root five_floats_tree))).
Proof.
  apply (kNearest_returns_min_k_nodes five_floats_tree [2.25%float] 3).
  - unfold INT_MAX. lia.
  - vm_compute. reflexivity.
Defined.



End FurtherWitnessesOnBinary64.

(** * The tokenizer *)

Section TokenizerRuns.

(** Two runs of [tokenize]. *)
Lemma tokenize_examples :
  tokenize "Hello, world!" = Returns ["hello"; "world"]
  /\ tokenize "  KD-Tree  v2.0 ... " = Returns ["kdtree"; "v20"]
  /\ tokenize " ?! " = Returns [].
Proof. repeat split; reflexivity. Qed.

End TokenizerRuns.

Section CharacterClasses.

Lemma isalnum_tolower : forall c, isalnum (tolower c) = isalnum c.
Proof. intros [[] [] [] [] [] [] [] []]; reflexivity. Qed.

Lemma isspace_tolower : forall c, isspace (tolower c) = isspace c.
Proof. intros [[] [] [] [] [] [] [] []]; reflexivity. Qed.

Lemma tolower_idempotent : forall c, tolower (tolower c) = tolower c.
Proof. intros [[] [] [] [] [] [] [] []]; reflexivity. Qed.

Lemma tolower_lower_or_digit :
  forall c, isalnum (tolower c) = true ->
            islower (tolower c) || isdigit (tolower c) = true.
Proof. intros [[] [] [] [] [] [] [] []]; cbn; intros H; congruence. Qed.

Lemma isspace_not_alnum : forall c, isspace c = true -> isalnum c = false.
Proof. intros [[] [] [] [] [] [] [] []]; cbn; intros H; congruence. Qed.

Lemma lower_or_digit_plain :
  forall c, islower c || isdigit c = true ->
            isalnum c = true /\ isspace c = false /\ tolower c = c.
Proof.
  intros [[] [] [] [] [] [] [] []]; cbn; intros H;
    try discriminate; repeat split.
Qed.

End CharacterClasses.

Section Tokenizer.

Lemma skip_ws_length :
  forall s, (String.length (skip_ws s) <= String.length s)%nat.
Proof.
  induction s as [|c r IH]; cbn; [lia|].
  destruct (isspace c); cbn; lia.
Qed.

Lemma take_word_length :
  forall s tok rest,
    take_word s = (tok, rest) ->
    (String.length tok + String.length rest = String.length s)%nat.
Proof.
  induction s as [|c r IH]; intros tok rest H; cbn in H.
  - injection H as <- <-. reflexivity.
  - destruct (isspace c).
    + injection H as <- <-. reflexivity.
    + destruct (take_word r) as [w rest'] eqn:E.
      injection H as <- <-. cbn. rewrite (IH _ _ eq_refl). reflexivity.
Qed.

Lemma skip_ws_head :
  forall s c r, skip_ws s = String c r -> isspace c = false.
Proof.
  induction s as [|d s IH]; intros c r H; cbn in H; [discriminate|].
  destruct (isspace d) eqn:E.
  - eapply IH. exact H.
  - injection H as <- _. exact E.
Qed.

Lemma extract_shorter :
  forall s tok rest,
    extract s = Some (tok, rest) ->
    tok <> EmptyString /\ (String.length rest < String.length s)%nat.
Proof.
  intros s tok rest H. unfold extract in H.
  pose proof (skip_ws_length s) as Hlen.
  destruct (skip_ws s) as [|c r] eqn:E; [discriminate|].
  pose proof (skip_ws_head s c r E) as Hc.
  assert (H' : take_word (String c r) = (tok, rest))
    by (injection H as H; exact H).
  clear H. rename H' into H.
  pose proof (take_word_length _ _ _ H) as Hw.
  cbn in H. rewrite Hc in H.
  destruct (take_word r) as [w rest'] eqn:Er. injection H as <- <-.
  split; [discriminate|]. cbn in Hw, Hlen. lia.
Qed.

Lemma push_back_unless_empty_app :
  forall tokens t,
    push_back_unless_empty tokens t = tokens ++ push_back_unless_empty [] t.
Proof.
  intros tokens [|c r]; cbn; [rewrite app_nil_r|]; reflexivity.
Qed.

Lemma tokenize_loop_Tokens :
  forall fuel s acc,
    (String.length s < fuel)%nat ->
    exists l, Tokens s l /\ tokenize_loop fuel s acc = Returns (acc ++ l).
Proof.
  induction fuel as [|fuel IH]; intros s acc Hf; [lia|].
  cbn [tokenize_loop].
  destruct (extract s) as [[tok rest]|] eqn:E.
  - destruct (extract_shorter _ _ _ E) as [_ Hlt].
    destruct (IH rest (push_back_unless_empty acc (normalize_token tok))
                ltac:(lia)) as (l & Hl & ->).
    eexists. split; [eapply Tokens_step; eassumption|].
    rewrite push_back_unless_empty_app, <- app_assoc. reflexivity.
  - exists []. split; [constructor; exact E|].
    rewrite app_nil_r. reflexivity.
Qed.

Lemma Tokens_functional :
  forall s l1, Tokens s l1 -> forall l2, Tokens s l2 -> l1 = l2.
Proof.
  induction 1 as [s E|s tok rest l E Hl IH]; intros l2 H2;
    inversion H2 as [s' E'|s' tok' rest' l' E' Hl']; subst;
    try congruence.
  rewrite E in E'. injection E' as <- <-. f_equal. apply IH. exact Hl'.
Qed.

Lemma tokenize_Tokens :
  forall s l, tokenize s = Returns l <-> Tokens s l.
Proof.
  intros s l. unfold tokenize.
  destruct (tokenize_loop_Tokens (S (String.length s)) s [] ltac:(lia))
    as (l' & Hl' & E).
  rewrite E. cbn [app]. split.
  - intros H. injection H as <-. exact Hl'.
  - intros H. f_equal. eapply Tokens_functional; eassumption.
Qed.

Lemma tokenize_returns :
  forall s, exists l, tokenize s = Returns l /\ Tokens s l.
Proof.
  intros s.
  destruct (tokenize_loop_Tokens (S (String.length s)) s [] ltac:(lia))
    as (l & Hl & E).
  exists l. split; [exact E|exact Hl].
Qed.

Lemma normalize_token_clean :
  forall tok, all_lower_or_digit (normalize_token tok) = true.
Proof.
  unfold normalize_token.
  induction tok as [|c r IH]; cbn; [reflexivity|].
  destruct (isalnum (tolower c)) eqn:E; cbn; [|exact IH].
  rewrite (tolower_lower_or_digit c E), IH. reflexivity.
Qed.

Lemma tokens_are_lower_case_words_aux :
  forall text tokens,
    tokenize text = Returns tokens ->
    Forall (fun t => t <> EmptyString /\ all_lower_or_digit t = true) tokens.
Proof.
  intros text tokens H. apply tokenize_Tokens in H.
  induction H as [s E|s tok rest l E Hl IH]; [constructor|].
  pose proof (normalize_token_clean tok) as Hc.
  destruct (normalize_token tok) as [|c r]; cbn [push_back_unless_empty app];
    [exact IH|].
  constructor; [|exact IH]. split; [discriminate|exact Hc].
Qed.

(** X12: [tokenize] returns for every text, and every token it returns is
    a non-empty string of lower-case letters and digits. *)
Theorem tokens_are_lower_case_words :
  forall text : string,
    exists tokens,
      tokenize text = Returns tokens
      /\ Forall (fun t => t <> EmptyString /\ all_lower_or_digit t = true)
           tokens.
Proof.
  intros text. destruct (tokenize_returns text) as (l & E & Hl).
  exists l. split; [exact E|].
  eapply tokens_are_lower_case_words_aux. exact E.
Qed.

Lemma has_alnum_skip_ws : forall s, has_alnum (skip_ws s) = has_alnum s.
Proof.
  induction s as [|c r IH]; cbn; [reflexivity|].
  destruct (isspace c) eqn:E; [|reflexivity].
  rewrite (isspace_not_alnum c E). exact IH.
Qed.

Lemma has_alnum_take_word :
  forall s tok rest,
    take_word s = (tok, rest) ->
    has_alnum s = has_alnum tok || has_alnum rest.
Proof.
  induction s as [|c r IH]; intros tok rest H; cbn in H.
  - injection H as <- <-. reflexivity.
  - destruct (isspace c).
    + injection H as <- <-. reflexivity.
    + destruct (take_word r) as [w rest'] eqn:E. injection H as <- <-.
      cbn. rewrite (IH _ _ eq_refl), orb_assoc. reflexivity.
Qed.

Lemma has_alnum_extract :
  forall s tok rest,
    extract s = Some (tok, rest) ->
    has_alnum s = has_alnum tok || has_alnum rest.
Proof.
  intros s tok rest H. unfold extract in H.
  rewrite <- has_alnum_skip_ws.
  destruct (skip_ws s) as [|c r]; [discriminate|].
  injection H as H. apply has_alnum_take_word. exact H.
Qed.

Lemma has_alnum_no_extract :
  forall s, extract s = None -> has_alnum s = false.
Proof.
  intros s H. unfold extract in H. rewrite <- has_alnum_skip_ws.
  destruct (skip_ws s); [reflexivity|discriminate].
Qed.

Lemma normalize_token_empty :
  forall tok, normalize_token tok = EmptyString <-> has_alnum tok = false.
Proof.
  unfold normalize_token.
  induction tok as [|c r IH]; cbn; [tauto|].
  rewrite isalnum_tolower.
  destruct (isalnum c); cbn; [split; discriminate|exact IH].
Qed.

Lemma Tokens_nil :
  forall s l, Tokens s l -> (l = [] <-> has_alnum s = false).
Proof.
  induction 1 as [s E|s tok rest l E Hl IH].
  - split; [intros _; apply has_alnum_no_extract; exact E|reflexivity].
  - rewrite (has_alnum_extract _ _ _ E), orb_false_iff.
    rewrite <- IH, <- normalize_token_empty.
    destruct (normalize_token tok); cbn [push_back_unless_empty app].
    + tauto.
    + split; [discriminate|intros [H _]; discriminate].
Qed.

Lemma tokenize_nil :
  forall text : string,
    tokenize text = Returns [] <-> has_alnum text = false.
Proof.
  intros text. rewrite tokenize_Tokens.
  destruct (tokenize_returns text) as (l & _ & Hl).
  split.
  - intros H. apply (Tokens_nil _ _ H). reflexivity.
  - intros H. apply (Tokens_nil _ _ Hl) in H. subst l. exact Hl.
Qed.

(** X13: [tokenize] returns no token exactly for the texts without a
    letter or digit, the texts for which [getEmbedding] falls back to
    embedding the raw text; for every other text it returns at least one
    token. *)
Theorem no_tokens_iff_no_alnum :
  forall text : string,
    (tokenize text = Returns [] <-> has_alnum text = false)
    /\ exists tokens,
         tokenize text = Returns tokens
         /\ (has_alnum text = true -> tokens <> []).
Proof.
  intros text. split; [apply tokenize_nil|].
  destruct (tokenize_returns text) as (l & E & _).
  exists l. split; [exact E|].
  intros H ->. apply tokenize_nil in E. congruence.
Qed.

Lemma skip_ws_app_blank :
  forall s1 c s2,
    skip_ws s1 = EmptyString -> isspace c = true ->
    skip_ws (s1 ++ String c s2)%string = skip_ws s2.
Proof.
  induction s1 as [|d r IH]; intros c s2 H Hc; cbn in *.
  - rewrite Hc. reflexivity.
  - destruct (isspace d); [apply IH; assumption|discriminate].
Qed.

Lemma skip_ws_app_word :
  forall s1 d r s2,
    skip_ws s1 = String d r ->
    skip_ws (s1 ++ s2)%string = (String d r ++ s2)%string.
Proof.
  induction s1 as [|e s1 IH]; intros d r s2 H; cbn in *; [discriminate|].
  destruct (isspace e); [apply IH; exact H|].
  injection H as <- <-. reflexivity.
Qed.

Lemma take_word_app :
  forall s c s2 tok rest,
    isspace c = true -> take_word s = (tok, rest) ->
    take_word (s ++ String c s2)%string = (tok, (rest ++ String c s2)%string).
Proof.
  induction s as [|d r IH]; intros c s2 tok rest Hc H; cbn in *.
  - injection H as <- <-. rewrite Hc. reflexivity.
  - destruct (isspace d).
    + injection H as <- <-. reflexivity.
    + destruct (take_word r) as [w rest'] eqn:E. injection H as <- <-.
      rewrite (IH c s2 w rest' Hc eq_refl). reflexivity.
Qed.

Lemma Tokens_same_extract :
  forall a b l, extract a = extract b -> Tokens b l -> Tokens a l.
Proof.
  intros a b l E H. destruct H as [b Eb|b tok rest l Eb Hl].
  - constructor. congruence.
  - eapply Tokens_step; [|exact Hl]. congruence.
Qed.

Lemma Tokens_app :
  forall s1 l1, Tokens s1 l1 ->
  forall c s2 l2, isspace c = true -> Tokens s2 l2 ->
    Tokens (s1 ++ String c s2)%string (l1 ++ l2).
Proof.
  induction 1 as [s1 E|s1 tok rest l1 E Hl IH]; intros c s2 l2 Hc H2.
  - cbn [app]. apply (Tokens_same_extract _ s2); [|exact H2].
    unfold extract in *.
    destruct (skip_ws s1) eqn:Es; [|discriminate].
    rewrite (skip_ws_app_blank s1 c s2 Es Hc). reflexivity.
  - rewrite <- app_assoc. eapply Tokens_step; [|apply IH; eassumption].
    unfold extract in *.
    destruct (skip_ws s1) as [|d r] eqn:Es; [discriminate|].
    rewrite (skip_ws_app_word s1 d r _ Es). injection E as E.
    pose proof (take_word_app (String d r) c s2 tok rest Hc E) as Hw.
    cbn [append] in *. rewrite Hw. reflexivity.
Qed.

(** X14: tokenizing two texts joined by a whitespace character gives the
    tokens of the first followed by the tokens of the second. *)
Theorem tokenize_joined_texts :
  forall (s1 s2 : string) (c : ascii),
    isspace c = true ->
    tokenize (s1 ++ String c s2)%string
    = (l1 <- tokenize s1 ;; l2 <- tokenize s2 ;; Returns (l1 ++ l2)).
Proof.
  intros s1 s2 c Hc.
  destruct (tokenize_returns s1) as (l1 & -> & H1).
  destruct (tokenize_returns s2) as (l2 & -> & H2).
  cbn [bind]. apply tokenize_Tokens. apply Tokens_app; assumption.
Qed.

Lemma skip_ws_transform :
  forall s, skip_ws (transform tolower s) = transform tolower (skip_ws s).
Proof.
  induction s as [|c r IH]; cbn; [reflexivity|].
  rewrite isspace_tolower. destruct (isspace c); [exact IH|reflexivity].
Qed.

Lemma take_word_transform :
  forall s tok rest,
    take_word s = (tok, rest) ->
    take_word (transform tolower s)
    = (transform tolower tok, transform tolower rest).
Proof.
  induction s as [|c r IH]; intros tok rest H; cbn in *.
  - injection H as <- <-. reflexivity.
  - rewrite isspace_tolower. destruct (isspace c).
    + injection H as <- <-. reflexivity.
    + destruct (take_word r) as [w rest'] eqn:E. injection H as <- <-.
      rewrite (IH w rest' eq_refl). reflexivity.
Qed.

Lemma normalize_token_transform :
  forall tok, normalize_token (transform tolower tok) = normalize_token tok.
Proof.
  unfold normalize_token.
  induction tok as [|c r IH]; cbn; [reflexivity|].
  rewrite tolower_idempotent, IH. reflexivity.
Qed.

Lemma Tokens_transform :
  forall s l, Tokens s l -> Tokens (transform tolower s) l.
Proof.
  induction 1 as [s E|s tok rest l E Hl IH].
  - constructor. unfold extract in *. rewrite skip_ws_transform.
    destruct (skip_ws s); [reflexivity|discriminate].
  - rewrite <- normalize_token_transform.
    eapply Tokens_step; [|exact IH].
    unfold extract in *. rewrite skip_ws_transform.
    destruct (skip_ws s) as [|d r] eqn:Es; [discriminate|].
    injection E as E.
    rewrite <- (take_word_transform (String d r) tok rest E).
    reflexivity.
Qed.

Lemma clean_token_plain :
  forall t,
    all_lower_or_digit t = true ->
    skip_ws t = t /\ take_word t = (t, EmptyString)
    /\ normalize_token t = t.
Proof.
  unfold normalize_token.
  induction t as [|c r IH]; intros H; cbn in *; [repeat split|].
  apply andb_true_iff in H. destruct H as [Hc Hr].
  destruct (lower_or_digit_plain c Hc) as (Ha & Hs & Hl).
  destruct (IH Hr) as (_ & Hw & Hn).
  rewrite Hs, Hw, Hl, Ha, Hn. cbn. repeat split.
Qed.

Lemma Tokens_clean_token :
  forall t, t <> EmptyString -> all_lower_or_digit t = true -> Tokens t [t].
Proof.
  intros t Hne H. destruct (clean_token_plain t H) as (Hs & Hw & Hn).
  assert (E : extract t = Some (t, EmptyString)).
  { unfold extract. rewrite Hs. destruct t; [contradiction|].
    rewrite Hw. reflexivity. }
  assert (E0 : extract EmptyString = None) by reflexivity.
  pose proof (Tokens_step t t EmptyString [] E (Tokens_done _ E0)) as Ht.
  rewrite Hn in Ht. destruct t; [contradiction|]. exact Ht.
Qed.

Lemma tokenize_transform :
  forall text : string,
    tokenize (transform tolower text) = tokenize text.
Proof.
  intros text. destruct (tokenize_returns text) as (l & -> & Hl).
  apply tokenize_Tokens. apply Tokens_transform. exact Hl.
Qed.

(** X15: [tokenize] does not see the case of letters: a text and the text
    with every character passed through [tolower] have the same tokens,
    and tokenizing a token that was returned returns that token alone. *)
Theorem tokenize_ignores_case :
  forall text : string,
    tokenize (transform tolower text) = tokenize text
    /\ forall tokens t,
         tokenize text = Returns tokens -> In t tokens ->
         tokenize t = Returns [t].
Proof.
  intros text. split; [apply tokenize_transform|].
  intros tokens t H Ht.
  pose proof (tokens_are_lower_case_words_aux text tokens H) as Hgood.
  rewrite Forall_forall in Hgood. destruct (Hgood t Ht) as [Hne Hc].
  apply tokenize_Tokens. apply Tokens_clean_token; assumption.
Qed.

(** X16: the tokens are a fixed point: writing the tokens of a text one
    after the other, a space after each, and tokenizing that gives the
    same tokens again. *)
Theorem tokenize_spaced_tokens :
  forall (text : string) (tokens : list string),
    tokenize text = Returns tokens ->
    tokenize (spaced tokens) = Returns tokens.
Proof.
  intros text tokens H.
  pose proof (tokens_are_lower_case_words_aux text tokens H) as Hgood.
  apply tokenize_Tokens. clear H.
  induction Hgood as [|t r [Hne Ht] Hr IH]; cbn [spaced].
  - constructor. reflexivity.
  - change (t :: r) with ([t] ++ r).
    apply (Tokens_app t [t] (Tokens_clean_token t Hne Ht) " "%char
             (spaced r) r eq_refl IH).
Qed.

End Tokenizer.

(** * Hashing and embedding *)

Section Hashing.

Lemma polynomial31_app :
  forall a b,
    polynomial31 (a ++ b) = polynomial31 a * 31 ^ size b + polynomial31 b.
Proof.
  induction a as [|x a IH]; intros b; cbn [app polynomial31]; [lia|].
  rewrite IH.
  assert (Hs : size (a ++ b) = size a + size b)
    by (unfold size; rewrite length_app; lia).
  rewrite Hs, Z.pow_add_r by (unfold size; lia). ring.
Qed.

Lemma bytes_append :
  forall s1 s2, bytes (s1 ++ s2)%string = bytes s1 ++ bytes s2.
Proof.
  unfold bytes. induction s1 as [|c r IH]; intros s2; cbn; [reflexivity|].
  f_equal. apply IH.
Qed.

Lemma size_bytes : forall s, size (bytes s) = Z.of_nat (String.length s).
Proof.
  unfold bytes, size. induction s as [|c r IH]; cbn [String.length]; cbn;
    [reflexivity|].
  rewrite length_map in *. lia.
Qed.

(** X17: the hash rolls: the hash of a concatenation is the hash of the
    first part times 31 to the length of the second part, plus the hash of
    the second part, in 64-bit unsigned arithmetic; a hash is always
    below [2^64]. *)
Theorem hashString_of_concatenation :
  forall s1 s2 : string,
    hashString (s1 ++ s2)%string
    = (hashString s1 * 31 ^ Z.of_nat (String.length s2) + hashString s2)
        mod 2 ^ 64
    /\ 0 <= hashString s1 < 2 ^ 64.
Proof.
  intros s1 s2. split.
  - rewrite !hashString_is_rolling_hash. unfold rolling_hash, wrap_size_t.
    rewrite bytes_append, polynomial31_app, size_bytes.
    symmetry. rewrite Z.add_mod by lia.
    rewrite Z.mul_mod_idemp_l, Z.mod_mod by lia.
    rewrite <- Z.add_mod by lia. reflexivity.
  - unfold hashString. apply hashString_loop_range. lia.
Qed.

End Hashing.

Section Embedding.
Context {D : Double} {Dv : Division D} {Sm : Sampler D}.

Lemma transform_no_alnum :
  forall s, has_alnum s = false -> transform tolower s = s.
Proof.
  induction s as [|c r IH]; intros H; cbn in *; [reflexivity|].
  apply orb_false_iff in H. destruct H as [Hc Hr].
  rewrite (IH Hr). f_equal. unfold tolower.
  unfold isalnum in Hc. apply orb_false_iff in Hc. destruct Hc as [Hc _].
  apply orb_false_iff in Hc. destruct Hc as [_ Hu]. rewrite Hu. reflexivity.
Qed.

(** X18: the embedding of a text does not depend on the case of its
    letters: [getEmbedding] gives the same result for a text and for the
    text with every character passed through [tolower], whether the text
    has tokens or is embedded raw. *)
Theorem getEmbedding_ignores_case :
  forall (embedding_dim : Z) (text : string),
    getEmbedding embedding_dim (transform tolower text)
    = getEmbedding embedding_dim text.
Proof.
  intros dim text. unfold getEmbedding.
  rewrite tokenize_transform.
  destruct (tokenize text) as [tokens| |] eqn:E; cbn [bind]; try reflexivity.
  destruct tokens as [|t r]; [|reflexivity].
  apply tokenize_nil in E.
  rewrite (transform_no_alnum text E). reflexivity.
Qed.

End Embedding.

Section TokenizerWitnesses.

Lemma tokenize_joined_texts_witness :
  tokenize ("Hello," ++ String "010"%char "World 42")%string
  = (l1 <- tokenize "Hello," ;; l2 <- tokenize "World 42" ;;
     Returns (l1 ++ l2)).
Proof.
  apply (tokenize_joined_texts "Hello," "World 42" "010"%char).
  reflexivity.
Defined.

Lemma tokenize_spaced_tokens_witness :
  tokenize (spaced ["kdtree"; "v20"]) = Returns ["kdtree"; "v20"].
Proof.
  apply (tokenize_spaced_tokens "  KD-Tree  v2.0 ... " ["kdtree"; "v20"]).
  reflexivity.
Defined.

End TokenizerWitnesses.

(** * Database files *)

Section Bytes.

Lemma length_le_bytes : forall n z, List.length (le_bytes n z) = n.
Proof.
  induction n as [|n IH]; intros z; cbn; [reflexivity|].
  rewrite IH. reflexivity.
Qed.

Lemma unsigned_char_byte :
  forall z, unsigned_char (ascii_of_N (Z.to_N (z mod 256))) = z mod 256.
Proof.
  intros z. unfold unsigned_char.
  pose proof (Z.mod_pos_bound z 256 ltac:(lia)) as Hz.
  rewrite N_ascii_embedding by lia. lia.
Qed.

Lemma le_value_le_bytes :
  forall n z, le_value (le_bytes n z) = z mod 256 ^ Z.of_nat n.
Proof.
  induction n as [|n IH]; intros z.
  - cbn. rewrite Z.mod_1_r. reflexivity.
  - cbn [le_bytes le_value]. rewrite unsigned_char_byte, IH.
    rewrite Nat2Z.inj_succ, Z.pow_succ_r by lia.
    rewrite Z.rem_mul_r by lia. reflexivity.
Qed.

Lemma int_of_bytes_int_bytes :
  forall i, - 2 ^ 31 <= i <= INT_MAX -> int_of_bytes (int_bytes i) = i.
Proof.
  intros i Hi. unfold int_of_bytes, int_bytes, to_int, INT_MAX in *.
  rewrite le_value_le_bytes.
  change (256 ^ Z.of_nat 4) with (2 ^ 32).
  rewrite Zplus_mod_idemp_l. rewrite Z.mod_small; lia.
Qed.

Lemma length_int_bytes : forall i, List.length (int_bytes i) = 4%nat.
Proof. intros i. apply length_le_bytes. Qed.

Lemma size_int_bytes : forall i, size (int_bytes i) = 4.
Proof. intros i. unfold size. rewrite length_int_bytes. reflexivity. Qed.

Lemma digits2_pos_bounds :
  forall m,
    2 ^ (Z.pos (SpecFloat.digits2_pos m) - 1) <= Z.pos m
    < 2 ^ Z.pos (SpecFloat.digits2_pos m).
Proof.
  induction m as [m IH|m IH|]; cbn [SpecFloat.digits2_pos].
  - rewrite Pos2Z.inj_succ.
    replace (Z.succ (Z.pos (SpecFloat.digits2_pos m)) - 1)
      with (Z.succ (Z.pos (SpecFloat.digits2_pos m) - 1)) by lia.
    rewrite !Z.pow_succ_r by lia. lia.
  - rewrite Pos2Z.inj_succ.
    replace (Z.succ (Z.pos (SpecFloat.digits2_pos m)) - 1)
      with (Z.succ (Z.pos (SpecFloat.digits2_pos m) - 1)) by lia.
    rewrite !Z.pow_succ_r by lia. lia.
  - cbn. lia.
Qed.

Lemma valid_binary_finite :
  forall s m e,
    SpecFloat.valid_binary FloatOps.prec FloatOps.emax
      (SpecFloat.S754_finite s m e) = true ->
    (Z.pos m < 2 ^ 52 /\ e = -1074)
    \/ (2 ^ 52 <= Z.pos m < 2 ^ 53 /\ -1074 <= e <= 971).
Proof.
  intros s m e H. cbn [SpecFloat.valid_binary] in H.
  unfold SpecFloat.bounded, SpecFloat.canonical_mantissa, SpecFloat.fexp,
    SpecFloat.emin, FloatOps.prec, FloatOps.emax in H.
  apply andb_true_iff in H. destruct H as [Hc He].
  apply Z.eqb_eq in Hc. apply Z.leb_le in He.
  pose proof (digits2_pos_bounds m) as [Hlo Hhi].
  set (d := Z.pos (SpecFloat.digits2_pos m)) in *.
  assert (Hd : 0 < d) by (unfold d; lia).
  destruct (Z_lt_le_dec (Z.pos m) (2 ^ 52)) as [Hm|Hm].
  - left. split; [exact Hm|].
    assert (d <= 52).
    { destruct (Z_le_gt_dec d 52) as [|Hgt]; [assumption|exfalso].
      assert (2 ^ 52 <= 2 ^ (d - 1)) by (apply Z.pow_le_mono_r; lia). lia. }
    lia.
  - right.
    assert (53 <= d).
    { destruct (Z_le_gt_dec 53 d) as [|Hgt]; [assumption|exfalso].
      assert (2 ^ d <= 2 ^ 52) by (apply Z.pow_le_mono_r; lia). lia. }
    assert (d = 53) by lia.
    replace d with 53 in Hhi by lia. lia.
Qed.

Lemma spec_of_bits_of_spec :
  forall f,
    SpecFloat.valid_binary FloatOps.prec FloatOps.emax f = true ->
    spec_of_bits (bits_of_spec f) = f
    /\ 0 <= bits_of_spec f < 2 ^ 64.
Proof.
  intros [s|s| |s m e] H.
  - destruct s; split; try reflexivity; cbn; lia.
  - destruct s; split; try reflexivity; cbn; lia.
  - split; [reflexivity|cbn; lia].
  - apply valid_binary_finite in H.
    change (2 ^ 52) with 4503599627370496 in H.
    change (2 ^ 53) with 9007199254740992 in H.
    unfold spec_of_bits, bits_of_spec.
    change (2 ^ 52) with 4503599627370496.
    change (2 ^ 63) with 9223372036854775808.
    change (2 ^ 64) with 18446744073709551616.
    destruct H as [[Hm He]|[Hm He]].
    + subst e.
      destruct (Z.ltb_spec (Z.pos m) 4503599627370496) as [_|]; [|lia].
      set (b := (if s then 9223372036854775808 else 0) + Z.pos m).
      assert (Hq : b / 4503599627370496 = if s then 2048 else 0).
      { symmetry. apply (Z.div_unique _ _ _ (Z.pos m)); [lia|].
        unfold b. destruct s; lia. }
      assert (Hr : b mod 4503599627370496 = Z.pos m).
      { symmetry.
        apply (Z.mod_unique _ _ (if s then 2048 else 0)); [lia|].
        unfold b. destruct s; lia. }
      assert (Hs : (9223372036854775808 <=? b) = s).
      { unfold b. destruct s; [apply Z.leb_le|apply Z.leb_gt]; lia. }
      cbv zeta. rewrite Hq, Hr, Hs.
      split; [destruct s; reflexivity|unfold b; destruct s; lia].
    + destruct (Z.ltb_spec (Z.pos m) 4503599627370496) as [|_]; [lia|].
      set (b := (if s then 9223372036854775808 else 0)
                + ((e + 1075) * 4503599627370496
                   + (Z.pos m - 4503599627370496))).
      assert (Hq : b / 4503599627370496
                   = (if s then 2048 else 0) + (e + 1075)).
      { symmetry.
        apply (Z.div_unique _ _ _ (Z.pos m - 4503599627370496)); [lia|].
        unfold b. destruct s; lia. }
      assert (Hr : b mod 4503599627370496 = Z.pos m - 4503599627370496).
      { symmetry.
        apply (Z.mod_unique _ _ ((if s then 2048 else 0) + (e + 1075)));
          [lia|].
        unfold b. destruct s; lia. }
      assert (Hs : (9223372036854775808 <=? b) = s).
      { unfold b. destruct s; [apply Z.leb_le|apply Z.leb_gt]; lia. }
      assert (He' : ((if s then 2048 else 0) + (e + 1075)) mod 2048
                    = e + 1075).
      { symmetry. apply (Z.mod_unique _ _ (if s then 1 else 0)); [lia|].
        destruct s; lia. }
      cbv zeta. rewrite Hq, Hr, Hs, He'.
      destruct (Z.eqb_spec (e + 1075) 0); [lia|].
      destruct (Z.eqb_spec (e + 1075) 2047); [lia|].
      replace (Z.pos m - 4503599627370496 + 4503599627370496)
        with (Z.pos m) by lia.
      replace (e + 1075 - 1075) with e by lia.
      split; [reflexivity|unfold b; destruct s; lia].
Qed.

(** The binary64 layout is lawful. *)
Lemma binary64_layout_laws : LayoutLaws binary64 binary64_layout.
Proof.
  split; intros x; cbn [d_bytes d_of_bytes binary64_layout].
  - apply length_le_bytes.
  - rewrite le_value_le_bytes.
    destruct (spec_of_bits_of_spec _ (FloatAxioms.Prim2SF_valid x))
      as [Hb Hr].
    change (256 ^ Z.of_nat 8) with (2 ^ 64).
    rewrite Z.mod_small by exact Hr. rewrite Hb.
    apply FloatAxioms.SF2Prim_Prim2SF.
Qed.

End Bytes.

Section Streams.

Lemma stream_read_exact :
  forall (bs r : file) (n : Z),
    size bs = n ->
    stream_read {| unread := bs ++ r; failed := false |} n
    = (bs, {| unread := r; failed := false |}).
Proof.
  intros bs r n <-. unfold stream_read, size. cbn [failed unread].
  rewrite Nat2Z.id.
  rewrite firstn_app, firstn_all, Nat.sub_diag, firstn_O, app_nil_r.
  rewrite skipn_app, skipn_all, Nat.sub_diag, skipn_O.
  rewrite Z.ltb_irrefl. reflexivity.
Qed.

Lemma stream_read_short :
  forall (bs : file) (n : Z),
    size bs < n ->
    stream_read {| unread := bs; failed := false |} n
    = (bs, {| unread := []; failed := true |}).
Proof.
  intros bs n H. unfold stream_read, size in *. cbn [failed unread].
  rewrite firstn_all2 by lia. rewrite skipn_all2 by lia.
  destruct (Z.ltb_spec (Z.of_nat (List.length bs)) n); [reflexivity|lia].
Qed.

Lemma int_of_bytes_to_int :
  forall i, int_of_bytes (int_bytes i) = to_int i.
Proof.
  intros i. unfold int_of_bytes, int_bytes, to_int.
  rewrite le_value_le_bytes.
  change (256 ^ Z.of_nat 4) with (2 ^ 32).
  rewrite Zplus_mod_idemp_l. reflexivity.
Qed.

Lemma read_int_exact :
  forall (i : Z) (r : file),
    read_int {| unread := int_bytes i ++ r; failed := false |}
    = (Some (to_int i), {| unread := r; failed := false |}).
Proof.
  intros i r. unfold read_int.
  rewrite stream_read_exact
    by (unfold size; rewrite length_int_bytes; reflexivity).
  cbn [failed]. rewrite int_of_bytes_to_int. reflexivity.
Qed.

Lemma read_int_short :
  forall bs : file,
    size bs < 4 ->
    read_int {| unread := bs; failed := false |}
    = (None, {| unread := []; failed := true |}).
Proof.
  intros bs H. unfold read_int. rewrite stream_read_short by exact H.
  reflexivity.
Qed.

Lemma read_int_failed :
  forall u : file,
    read_int {| unread := u; failed := true |}
    = (None, {| unread := u; failed := true |}).
Proof. intros u. reflexivity. Qed.

Lemma length_list_ascii_of_string :
  forall s, List.length (list_ascii_of_string s) = String.length s.
Proof.
  induction s as [|c s IH]; cbn; [reflexivity|]. rewrite IH. reflexivity.
Qed.

Lemma read_text_exact :
  forall (s : string) (r : file),
    read_text {| unread := list_ascii_of_string s ++ r; failed := false |}
      (Z.of_nat (String.length s))
    = (s, {| unread := r; failed := false |}).
Proof.
  intros s r. unfold read_text.
  rewrite stream_read_exact
    by (unfold size; rewrite length_list_ascii_of_string; reflexivity).
  rewrite length_list_ascii_of_string, Nat2Z.id, Nat.sub_diag.
  cbn [repeat]. rewrite app_nil_r, string_of_list_ascii_of_string.
  reflexivity.
Qed.

End Streams.

Section DatabaseFiles.
Context {D : Double} {L : DoubleLayout D} {LL : LayoutLaws D L}.

Lemma length_flat_d_bytes :
  forall p : Point, size (flat_map d_bytes p) = 8 * size p.
Proof.
  induction p as [|x p IH]; [reflexivity|].
  cbn [flat_map]. rewrite size_app, size_cons, IH.
  unfold size at 1. rewrite d_bytes_length. lia.
Qed.

Lemma read_doubles_exact :
  forall (p : Point) (r : file),
    read_doubles (List.length p)
      {| unread := flat_map d_bytes p ++ r; failed := false |}
    = Returns (p, {| unread := r; failed := false |}).
Proof.
  induction p as [|x p IH]; intros r; [reflexivity|].
  cbn [List.length read_doubles flat_map]. rewrite <- app_assoc.
  rewrite stream_read_exact
    by (unfold size; rewrite d_bytes_length; reflexivity).
  cbn [failed value_of bind]. rewrite IH. cbn [bind].
  rewrite d_of_bytes_bytes. reflexivity.
Qed.

Lemma read_doubles_failed :
  forall (n : nat) (u : file),
    read_doubles (S n) {| unread := u; failed := true |} = Undefined.
Proof. intros n u. reflexivity. Qed.

Lemma read_doubles_truncated :
  forall (p : Point) (m : nat),
    Z.of_nat m < size (flat_map d_bytes p) ->
    read_doubles (List.length p)
      {| unread := firstn m (flat_map d_bytes p); failed := false |}
    = Undefined.
Proof.
  induction p as [|x p IH]; intros m Hm.
  - cbn in Hm. lia.
  - cbn [List.length read_doubles flat_map] in *.
    rewrite size_app in Hm.
    assert (Hx : size (d_bytes x) = 8)
      by (unfold size; rewrite d_bytes_length; reflexivity).
    rewrite firstn_app.
    destruct (Nat.lt_ge_cases m 8) as [Hlt|Hge].
    + replace (m - List.length (d_bytes x))%nat with 0%nat
        by (rewrite d_bytes_length; lia).
      rewrite firstn_O, app_nil_r.
      rewrite stream_read_short; [reflexivity|].
      unfold size. rewrite length_firstn, d_bytes_length. lia.
    + rewrite firstn_all2 by (rewrite d_bytes_length; lia).
      rewrite stream_read_exact by exact Hx.
      cbn [failed value_of bind].
      rewrite d_bytes_length.
      rewrite IH; [reflexivity|]. lia.
Qed.

Lemma read_doubles_exact' :
  forall (n : nat) (p : Point) (r : file),
    n = List.length p ->
    read_doubles n {| unread := flat_map d_bytes p ++ r; failed := false |}
    = Returns (p, {| unread := r; failed := false |}).
Proof. intros n p r ->. apply read_doubles_exact. Qed.

Lemma read_doubles_truncated' :
  forall (n : nat) (p : Point) (m : nat),
    n = List.length p ->
    Z.of_nat m < size (flat_map d_bytes p) ->
    read_doubles n
      {| unread := firstn m (flat_map d_bytes p); failed := false |}
    = Undefined.
Proof. intros n p m ->. apply read_doubles_truncated. Qed.

Lemma length_item_bytes :
  forall dim it,
    0 <= dim -> dim <= size (embedding it) ->
    size (item_bytes dim it)
    = 4 + Z.of_nat (String.length (text it)) + 8 * dim.
Proof.
  intros dim it H0 Hd. unfold item_bytes.
  rewrite !size_app, length_flat_d_bytes.
  unfold size at 1 2 3.
  rewrite length_int_bytes, length_list_ascii_of_string, length_firstn.
  unfold size in Hd. lia.
Qed.

(** Reading one item that is wholly there. *)
Lemma load_items_step :
  forall (n : nat) (dim : Z) (it : DataItem) (r : file) (acc : list DataItem),
    0 <= dim -> storable dim it ->
    load_items (S n) (Some dim)
      {| unread := item_bytes dim it ++ r; failed := false |} acc
    = load_items n (Some dim) {| unread := r; failed := false |}
        (acc ++ [cut dim it]).
Proof.
  intros n dim it r acc H0 [Ht Hd]. cbn [load_items].
  unfold item_bytes. rewrite <- !app_assoc.
  rewrite read_int_exact.
  rewrite to_int_small by lia. cbn [value_of bind].
  destruct (Z.ltb_spec (Z.of_nat (String.length (text it))) 0); [lia|].
  rewrite read_text_exact.
  destruct (Z.ltb_spec dim 0); [lia|].
  rewrite (read_doubles_exact' (Z.to_nat dim))
    by (rewrite length_firstn; unfold size in Hd; lia).
  cbn [bind]. reflexivity.
Qed.

Lemma load_items_exact :
  forall (l : list DataItem) (dim : Z) (r : file) (acc : list DataItem),
    0 <= dim -> Forall (storable dim) l ->
    load_items (List.length l) (Some dim)
      {| unread := flat_map (item_bytes dim) l ++ r; failed := false |} acc
    = Returns (acc ++ map (cut dim) l).
Proof.
  induction l as [|it l IH]; intros dim r acc H0 Hl.
  - cbn. rewrite app_nil_r. reflexivity.
  - inversion Hl as [|? ? Hit Hl']; subst.
    cbn [List.length flat_map map]. rewrite <- app_assoc.
    rewrite load_items_step by assumption.
    rewrite IH by assumption. rewrite <- app_assoc. reflexivity.
Qed.

(** Reading items from a file that ends too early. *)
Lemma load_items_truncated :
  forall (l : list DataItem) (dim : Z) (m : nat) (acc : list DataItem),
    0 < dim -> Forall (storable dim) l ->
    Z.of_nat m < size (flat_map (item_bytes dim) l) ->
    load_items (List.length l) (Some dim)
      {| unread := firstn m (flat_map (item_bytes dim) l); failed := false |}
      acc
    = Undefined.
Proof.
  induction l as [|it l IH]; intros dim m acc H0 Hl Hm.
  - cbn in Hm. lia.
  - inversion Hl as [|? ? Hit Hl']; subst.
    cbn [List.length flat_map] in *. rewrite size_app in Hm.
    pose proof Hit as [Ht Hd].
    pose proof (length_item_bytes dim it ltac:(lia) Hd) as Hb.
    rewrite firstn_app.
    destruct (Z_lt_le_dec (Z.of_nat m) (size (item_bytes dim it)))
      as [Hlt|Hge].
    + (* the file ends inside this item *)
      replace (m - List.length (item_bytes dim it))%nat with 0%nat
        by (unfold size in Hlt; lia).
      rewrite firstn_O, app_nil_r.
      unfold item_bytes in *. cbn [load_items].
      rewrite firstn_app, length_int_bytes.
      destruct (Nat.lt_ge_cases m 4) as [H4|H4].
      * replace (m - 4)%nat with 0%nat by lia.
        rewrite firstn_O, app_nil_r.
        rewrite read_int_short; [reflexivity|].
        unfold size. rewrite length_firstn, length_int_bytes. lia.
      * rewrite (firstn_all2 (int_bytes _))
          by (rewrite length_int_bytes; lia).
        rewrite read_int_exact. rewrite to_int_small by lia.
        cbn [value_of bind].
        destruct (Z.ltb_spec (Z.of_nat (String.length (text it))) 0);
          [lia|].
        rewrite firstn_app, length_list_ascii_of_string.
        destruct (Nat.lt_ge_cases (m - 4) (String.length (text it)))
          as [Hs|Hs].
        -- replace (m - 4 - String.length (text it))%nat with 0%nat by lia.
           rewrite firstn_O, app_nil_r.
           unfold read_text. rewrite stream_read_short.
           2:{ unfold size.
               rewrite length_firstn, length_list_ascii_of_string. lia. }
           destruct (Z.ltb_spec dim 0); [lia|].
           destruct (Z.to_nat dim) as [|k] eqn:Ek; [lia|].
           reflexivity.
        -- rewrite (firstn_all2 (list_ascii_of_string _))
             by (rewrite length_list_ascii_of_string; lia).
           rewrite read_text_exact.
           destruct (Z.ltb_spec dim 0); [lia|].
           rewrite (read_doubles_truncated' (Z.to_nat dim));
             [reflexivity|rewrite length_firstn; unfold size in Hd; lia|].
           rewrite length_flat_d_bytes.
           rewrite !size_app, length_flat_d_bytes in Hlt.
           unfold size in Hlt at 1 2.
           rewrite length_int_bytes, length_list_ascii_of_string in Hlt.
           lia.
    + (* this item is whole *)
      rewrite firstn_all2 by (unfold size in Hge; lia).
      rewrite load_items_step by (assumption || lia).
      apply IH; [assumption|assumption|].
      unfold size in *. lia.
Qed.

Lemma write_doubles_spec :
  forall (n : nat) (pre suf : Point) (outfile : file),
    (n <= List.length suf)%nat ->
    write_doubles (pre ++ suf) n (size pre) outfile
    = Returns (outfile ++ flat_map d_bytes (firstn n suf)).
Proof.
  induction n as [|n IH]; intros pre suf outfile Hn.
  - cbn. rewrite app_nil_r. reflexivity.
  - destruct suf as [|x suf]; [cbn in Hn; lia|].
    cbn [write_doubles firstn flat_map].
    rewrite coeff_nth.
    2:{ rewrite size_app, size_cons.
        pose proof (size_nonneg _ pre). pose proof (size_nonneg _ suf). lia. }
    unfold size at 1. rewrite Nat2Z.id, app_nth2, Nat.sub_diag by lia.
    cbn [nth bind].
    replace (pre ++ x :: suf) with ((pre ++ [x]) ++ suf)
      by (rewrite <- app_assoc; reflexivity).
    replace (size pre + 1) with (size (pre ++ [x]))
      by (rewrite size_app; reflexivity).
    rewrite IH by (cbn in Hn; lia).
    rewrite <- app_assoc. reflexivity.
Qed.

Lemma write_doubles_short :
  forall (n : nat) (pre suf : Point) (outfile : file),
    (List.length suf < n)%nat ->
    write_doubles (pre ++ suf) n (size pre) outfile = Undefined.
Proof.
  induction n as [|n IH]; intros pre suf outfile Hn; [lia|].
  cbn [write_doubles]. destruct suf as [|x suf].
  - rewrite app_nil_r. unfold coeff.
    rewrite Z.ltb_irrefl, andb_false_r. reflexivity.
  - rewrite coeff_nth.
    2:{ rewrite size_app, size_cons.
        pose proof (size_nonneg _ pre). pose proof (size_nonneg _ suf). lia. }
    cbn [bind].
    replace (pre ++ x :: suf) with ((pre ++ [x]) ++ suf)
      by (rewrite <- app_assoc; reflexivity).
    replace (size pre + 1) with (size (pre ++ [x]))
      by (rewrite size_app; reflexivity).
    apply IH. cbn in Hn. lia.
Qed.

Lemma save_items_spec :
  forall (n : nat) (pre suf : list DataItem) (dim : Z) (outfile : file),
    0 <= dim -> (n <= List.length suf)%nat ->
    Forall (storable dim) (firstn n suf) ->
    save_items (pre ++ suf) dim n (size pre) outfile
    = Returns (outfile ++ flat_map (item_bytes dim) (firstn n suf)).
Proof.
  induction n as [|n IH]; intros pre suf dim outfile H0 Hn Hs.
  - cbn. rewrite app_nil_r. reflexivity.
  - destruct suf as [|it suf]; [cbn in Hn; lia|].
    cbn [firstn] in Hs. inversion Hs as [|? ? [Ht Hd] Hs']; subst.
    cbn [save_items firstn flat_map].
    rewrite vec_at_middle. cbn [bind]. cbv zeta.
    rewrite to_int_small by lia.
    destruct (Z.ltb_spec (Z.of_nat (String.length (text it))) 0); [lia|].
    rewrite Nat2Z.id.
    rewrite firstn_all2 by (rewrite length_list_ascii_of_string; lia).
    pose proof (write_doubles_spec (Z.to_nat dim) [] (embedding it)) as Hw.
    cbn [app] in Hw. change (size (@nil double)) with 0 in Hw.
    rewrite Hw by (unfold size in Hd; lia). cbn [bind].
    replace (pre ++ it :: suf) with ((pre ++ [it]) ++ suf)
      by (rewrite <- app_assoc; reflexivity).
    replace (size pre + 1) with (size (pre ++ [it]))
      by (rewrite size_app; reflexivity).
    rewrite IH by (assumption || (cbn in Hn; lia)).
    unfold item_bytes. rewrite <- !app_assoc. reflexivity.
Qed.

(** An item whose embedding is too short stops the writing. *)
Lemma save_items_short :
  forall (n : nat) (pre suf : list DataItem) (dim : Z) (outfile : file),
    0 <= dim -> (n <= List.length suf)%nat ->
    Exists (fun it => size (embedding it) < dim) (firstn n suf) ->
    save_items (pre ++ suf) dim n (size pre) outfile = Undefined.
Proof.
  induction n as [|n IH]; intros pre suf dim outfile H0 Hn Hs.
  - cbn in Hs. inversion Hs.
  - destruct suf as [|it suf]; [cbn in Hn; lia|].
    cbn [firstn] in Hs. cbn [save_items].
    rewrite vec_at_middle. cbn [bind]. cbv zeta.
    destruct (_ <? 0); [reflexivity|].
    pose proof (write_doubles_spec (Z.to_nat dim) [] (embedding it)) as Hw.
    pose proof (write_doubles_short (Z.to_nat dim) [] (embedding it)) as Hu.
    cbn [app] in Hw, Hu. change (size (@nil double)) with 0 in Hw, Hu.
    destruct (Z_lt_le_dec (size (embedding it)) dim) as [Hlt|Hge].
    + rewrite Hu by (unfold size in Hlt; lia). reflexivity.
    + rewrite Hw by (unfold size in Hge; lia). cbn [bind].
      replace (pre ++ it :: suf) with ((pre ++ [it]) ++ suf)
        by (rewrite <- app_assoc; reflexivity).
      replace (size pre + 1) with (size (pre ++ [it]))
        by (rewrite size_app; reflexivity).
      apply IH; [assumption|cbn in Hn; lia|].
      inversion Hs as [? ? Hh|? ? Ht]; subst; [lia|exact Ht].
Qed.

Lemma file_dimension_nonneg : forall db, 0 <= file_dimension db.
Proof. intros [|it db]; cbn; [lia|apply size_nonneg]. Qed.

Lemma saveDatabase_spec :
  forall (db : list DataItem) (processed_lines : Z),
    size db <= INT_MAX -> file_dimension db <= INT_MAX ->
    Forall (storable (file_dimension db)) db ->
    saveDatabase db true processed_lines
    = Returns (true, database_bytes processed_lines (file_dimension db) db).
Proof.
  intros db pl Hn Hd Hs. unfold saveDatabase. cbn [negb]. cbv zeta.
  pose proof (size_nonneg _ db) as Hn0.
  pose proof (file_dimension_nonneg db) as Hd0.
  rewrite to_int_small by lia.
  replace (match db with
           | [] => 0
           | first :: _ => to_int (size (embedding first))
           end) with (file_dimension db).
  2:{ destruct db as [|it db]; [reflexivity|].
      cbn [file_dimension] in *. rewrite to_int_small by lia. reflexivity. }
  assert (Hlen : Z.to_nat (size db) = List.length db)
    by (unfold size; lia).
  rewrite Hlen.
  pose proof (save_items_spec (List.length db) [] db (file_dimension db))
    as Hsave.
  change ([] ++ db) with db in Hsave.
  change (size (@nil DataItem)) with 0 in Hsave.
  rewrite firstn_all in Hsave.
  rewrite Hsave by (assumption || lia). cbn [bind].
  unfold database_bytes. rewrite <- !app_assoc. reflexivity.
Qed.

Lemma loadDatabase_database_bytes :
  forall (db : list DataItem) (processed_lines dim : Z) (trailing : file),
    size db <= INT_MAX -> 0 <= dim <= INT_MAX ->
    Forall (storable dim) db ->
    loadDatabase
      (Some (database_bytes processed_lines dim db ++ trailing))
    = Returns (map (cut dim) db).
Proof.
  intros db pl dim trailing Hn Hd Hs.
  pose proof (size_nonneg _ db) as Hn0.
  unfold loadDatabase, database_bytes. rewrite <- !app_assoc.
  rewrite !read_int_exact. cbn [value_of bind].
  rewrite !to_int_small by lia.
  destruct (Z.ltb_spec (size db) 0); [lia|].
  unfold size at 1. rewrite Nat2Z.id.
  rewrite load_items_exact by (assumption || lia). reflexivity.
Qed.

Lemma cut_uniform :
  forall dim db, uniform dim db -> map (cut dim) db = db.
Proof.
  intros dim db H. induction H as [|it db Hit _ IH]; [reflexivity|].
  cbn [map]. rewrite IH. f_equal. unfold cut.
  rewrite firstn_all2 by (unfold size in Hit; lia).
  destruct it; reflexivity.
Qed.

Lemma uniform_file_dimension :
  forall dim db, uniform dim db -> uniform (file_dimension db) db.
Proof.
  intros dim db H. destruct H as [|it db Hit Hdb]; [constructor|].
  cbn [file_dimension]. rewrite Hit. constructor; assumption.
Qed.

Lemma uniform_storable :
  forall dim db,
    uniform dim db ->
    Forall (fun it => Z.of_nat (String.length (text it)) <= INT_MAX) db ->
    Forall (storable dim) db.
Proof.
  intros dim db Hu Ht. induction Hu as [|it db Hit _ IH]; [constructor|].
  inversion Ht; subst. constructor; [|apply IH; assumption].
  split; [assumption|lia].
Qed.

Lemma file_dimension_uniform :
  forall dim db, uniform dim db -> db <> [] -> file_dimension db = dim.
Proof.
  intros dim db H Hne. destruct H as [|it db Hit _]; [congruence|].
  exact Hit.
Qed.

Lemma length_database_bytes :
  forall (db : list DataItem) (processed_lines dim : Z),
    0 <= dim -> Forall (storable dim) db ->
    size (database_bytes processed_lines dim db)
    = 12 + (4 + 8 * dim) * size db + text_bytes db.
Proof.
  intros db pl dim H0 Hs. unfold database_bytes. rewrite !size_app.
  rewrite !size_int_bytes.
  induction Hs as [|it db [Ht Hd] _ IH].
  - unfold size. cbn [flat_map text_bytes List.length]. lia.
  - cbn [flat_map text_bytes]. rewrite size_app, size_cons.
    rewrite length_item_bytes by assumption. lia.
Qed.

(** X19: a dataset whose items all have [dim] coordinates, written by
    [saveDatabase] and read by [loadDatabase], comes back as it was: the
    same items, texts and coordinates, in the same order, whatever
    [processed_lines] is and whatever follows in the file.  The number of
    items, the dimension and the text lengths must fit an [int]. *)
Theorem saved_database_loads_back :
  forall (db : list DataItem) (processed_lines dim : Z) (trailing : file),
    size db <= INT_MAX -> dim <= INT_MAX -> uniform dim db ->
    Forall (fun it => Z.of_nat (String.length (text it)) <= INT_MAX) db ->
    exists content,
      saveDatabase db true processed_lines = Returns (true, content)
      /\ loadDatabase (Some (content ++ trailing)) = Returns db.
Proof.
  intros db pl dim trailing Hn Hd Hu Ht.
  pose proof (file_dimension_nonneg db) as Hd0.
  assert (Hfd : file_dimension db <= INT_MAX).
  { destruct db as [|it db]; [cbn; unfold INT_MAX; lia|].
    rewrite (file_dimension_uniform dim) by (assumption || discriminate).
    exact Hd. }
  pose proof (uniform_file_dimension _ _ Hu) as Hu'.
  pose proof (uniform_storable _ _ Hu' Ht) as Hs.
  exists (database_bytes pl (file_dimension db) db). split.
  - apply saveDatabase_spec; assumption.
  - rewrite loadDatabase_database_bytes by (assumption || lia).
    rewrite cut_uniform by exact Hu'. reflexivity.
Qed.

(** X20: [saveDatabase] writes every item with the dimension of the first
    one.  When the other embeddings are as long or longer, the file loads
    as the dataset with each embedding cut to its first coordinates, as
    many as the first item has. *)
Theorem saved_embeddings_are_cut_to_the_first :
  forall (db : list DataItem) (processed_lines : Z),
    size db <= INT_MAX -> file_dimension db <= INT_MAX ->
    Forall (storable (file_dimension db)) db ->
    exists content,
      saveDatabase db true processed_lines = Returns (true, content)
      /\ loadDatabase (Some content)
         = Returns (map (cut (file_dimension db)) db).
Proof.
  intros db pl Hn Hd Hs.
  pose proof (file_dimension_nonneg db) as Hd0.
  exists (database_bytes pl (file_dimension db) db). split.
  - apply saveDatabase_spec; assumption.
  - rewrite <- (app_nil_r (database_bytes _ _ _)).
    apply loadDatabase_database_bytes; assumption || lia.
Qed.

(** X21: [saveDatabase] does not check the dimensions: when an item has
    fewer coordinates than the first one, writing it reads its embedding
    out of range, which is undefined. *)
Theorem saveDatabase_reads_past_a_shorter_embedding :
  forall (db : list DataItem) (processed_lines : Z),
    size db <= INT_MAX -> file_dimension db <= INT_MAX ->
    Exists (fun it => size (embedding it) < file_dimension db) db ->
    saveDatabase db true processed_lines = Undefined.
Proof.
  intros db pl Hn Hd Hs. unfold saveDatabase. cbn [negb]. cbv zeta.
  pose proof (size_nonneg _ db) as Hn0.
  pose proof (file_dimension_nonneg db) as Hd0.
  rewrite to_int_small by lia.
  replace (match db with
           | [] => 0
           | first :: _ => to_int (size (embedding first))
           end) with (file_dimension db).
  2:{ destruct db as [|it db]; [reflexivity|].
      cbn [file_dimension] in *. rewrite to_int_small by lia. reflexivity. }
  assert (Hlen : Z.to_nat (size db) = List.length db)
    by (unfold size; lia).
  rewrite Hlen.
  pose proof (save_items_short (List.length db) [] db (file_dimension db))
    as Hsave.
  change ([] ++ db) with db in Hsave.
  change (size (@nil DataItem)) with 0 in Hsave.
  rewrite firstn_all in Hsave.
  rewrite Hsave by (assumption || lia). reflexivity.
Qed.

(** X22: the size of the file that [saveDatabase] writes for [n] items of
    [dim] coordinates: twelve bytes of header, then for each item four
    bytes of length, its text, and eight bytes for each coordinate. *)
Theorem saved_file_size :
  forall (db : list DataItem) (processed_lines dim : Z) (content : file),
    size db <= INT_MAX -> dim <= INT_MAX -> uniform dim db ->
    Forall (fun it => Z.of_nat (String.length (text it)) <= INT_MAX) db ->
    saveDatabase db true processed_lines = Returns (true, content) ->
    size content = 12 + (4 + 8 * dim) * size db + text_bytes db.
Proof.
  intros db pl dim content Hn Hd Hu Ht Hsave.
  pose proof (file_dimension_nonneg db) as Hd0.
  destruct db as [|it db].
  - rewrite saveDatabase_spec in Hsave
      by (assumption || constructor || (cbn; unfold INT_MAX; lia)).
    injection Hsave as <-.
    rewrite length_database_bytes by (constructor || (cbn; lia)).
    change (size (@nil DataItem)) with 0. cbn [file_dimension]. lia.
  - pose proof (file_dimension_uniform dim _ Hu ltac:(discriminate)) as Hfd.
    pose proof (uniform_storable _ _ Hu Ht) as Hs.
    rewrite saveDatabase_spec in Hsave
      by (rewrite ?Hfd; assumption).
    rewrite Hfd in Hsave. injection Hsave as <-.
    apply length_database_bytes; [lia|assumption].
Qed.

(** X23: [loadDatabase] does not look at the state of the stream: when a
    file written for a dataset with one item or more and one coordinate or
    more has lost bytes at its end, however few, loading it uses a value
    that was never read, which is undefined; no shorter dataset is
    returned and no error is raised. *)
Theorem truncated_file_is_not_detected :
  forall (db : list DataItem) (processed_lines dim : Z) (content : file)
         (m : nat),
    db <> [] -> size db <= INT_MAX -> 0 < dim <= INT_MAX -> uniform dim db ->
    Forall (fun it => Z.of_nat (String.length (text it)) <= INT_MAX) db ->
    saveDatabase db true processed_lines = Returns (true, content) ->
    (m < List.length content)%nat ->
    loadDatabase (Some (firstn m content)) = Undefined.
Proof.
  intros db pl dim content m Hne Hn Hd Hu Ht Hsave Hm.
  pose proof (file_dimension_uniform dim _ Hu Hne) as Hfd.
  pose proof (uniform_storable _ _ Hu Ht) as Hs.
  rewrite saveDatabase_spec in Hsave by (rewrite ?Hfd; assumption || lia).
  rewrite Hfd in Hsave. injection Hsave as <-.
  assert (Hlen : size (database_bytes pl dim db)
                 = 12 + size (flat_map (item_bytes dim) db)).
  { unfold database_bytes. rewrite !size_app, !size_int_bytes. lia. }
  assert (Hpos : 0 < size db).
  { destruct db; [congruence|]. rewrite size_cons.
    pose proof (size_nonneg _ db). lia. }
  unfold loadDatabase, database_bytes in *.
  rewrite firstn_app, length_int_bytes.
  destruct (Nat.lt_ge_cases m 4) as [H4|H4].
  { replace (m - 4)%nat with 0%nat by lia. rewrite firstn_O, app_nil_r.
    rewrite read_int_short
      by (unfold size; rewrite length_firstn, length_int_bytes; lia).
    rewrite read_int_failed. reflexivity. }
  rewrite (firstn_all2 (int_bytes pl)) by (rewrite length_int_bytes; lia).
  rewrite read_int_exact.
  rewrite firstn_app, length_int_bytes.
  destruct (Nat.lt_ge_cases (m - 4) 4) as [H8|H8].
  { replace (m - 4 - 4)%nat with 0%nat by lia. rewrite firstn_O, app_nil_r.
    rewrite read_int_short
      by (unfold size; rewrite length_firstn, length_int_bytes; lia).
    reflexivity. }
  rewrite (firstn_all2 (int_bytes (size db)))
    by (rewrite length_int_bytes; lia).
  rewrite read_int_exact. rewrite to_int_small by lia.
  rewrite firstn_app, length_int_bytes.
  destruct (Nat.lt_ge_cases (m - 4 - 4) 4) as [H12|H12].
  { replace (m - 4 - 4 - 4)%nat with 0%nat by lia.
    rewrite firstn_O, app_nil_r.
    rewrite read_int_short
      by (unfold size; rewrite length_firstn, length_int_bytes; lia).
    cbn [value_of bind].
    destruct (Z.ltb_spec (size db) 0); [lia|].
    destruct (Z.to_nat (size db)) as [|k] eqn:Ek; [lia|].
    reflexivity. }
  rewrite (firstn_all2 (int_bytes dim)) by (rewrite length_int_bytes; lia).
  rewrite read_int_exact. rewrite to_int_small by lia.
  cbn [value_of bind].
  destruct (Z.ltb_spec (size db) 0); [lia|].
  unfold size at 1. rewrite Nat2Z.id.
  apply load_items_truncated; [lia|assumption|].
  unfold size in *. lia.
Qed.

(** X24: a file whose header announces no item, or a negative number of
    items, loads as the empty dataset, whatever the first four bytes are
    and whatever follows the number, even nothing. *)
Theorem loadDatabase_without_items :
  forall (processed_lines n : Z) (rest : file),
    - 2 ^ 31 <= n <= 0 ->
    loadDatabase (Some (int_bytes processed_lines ++ int_bytes n ++ rest))
    = Returns [].
Proof.
  intros pl n rest Hn. unfold loadDatabase.
  rewrite !read_int_exact.
  destruct (read_int {| unread := rest; failed := false |}) as [dim infile3].
  cbn [value_of bind].
  assert (Hto : to_int n = n).
  { unfold to_int. rewrite Z.mod_small; lia. }
  rewrite Hto.
  destruct (Z.ltb_spec n 0); [reflexivity|].
  replace n with 0 by lia. reflexivity.
Qed.

End DatabaseFiles.

Section FilesOnBinary64.
#[local] Existing Instance binary64.
#[local] Existing Instance binary64_layout.

Lemma saved_database_loads_back_witness :
  exists content,
    saveDatabase two_titles true 7 = Returns (true, content)
    /\ loadDatabase (Some (content ++ ["!"%char])) = Returns two_titles.
Proof.
  apply (saved_database_loads_back (LL := binary64_layout_laws)
           two_titles 7 2 ["!"%char]).
  - unfold INT_MAX. cbn. lia.
  - unfold INT_MAX. lia.
  - repeat constructor.
  - repeat constructor; unfold INT_MAX; cbn; lia.
Defined.

Lemma saved_embeddings_are_cut_to_the_first_witness :
  exists content,
    saveDatabase ragged_titles true 7 = Returns (true, content)
    /\ loadDatabase (Some content)
       = Returns (map (cut (file_dimension ragged_titles)) ragged_titles).
Proof.
  apply (saved_embeddings_are_cut_to_the_first (LL := binary64_layout_laws)
           ragged_titles 7).
  - unfold INT_MAX. cbn. lia.
  - unfold INT_MAX. cbn. lia.
  - repeat constructor; unfold INT_MAX; cbn; lia.
Defined.

Lemma saveDatabase_reads_past_a_shorter_embedding_witness :
  saveDatabase short_titles true 7 = Undefined.
Proof.
  apply (saveDatabase_reads_past_a_shorter_embedding short_titles 7).
  - unfold INT_MAX. cbn. lia.
  - unfold INT_MAX. cbn. lia.
  - apply Exists_cons_tl. apply Exists_cons_hd. cbn. lia.
Defined.

Lemma saved_file_size_witness :
  size (database_bytes 7 2 two_titles)
  = 12 + (4 + 8 * 2) * size two_titles + text_bytes two_titles.
Proof.
  apply (saved_file_size (LL := binary64_layout_laws) two_titles 7 2).
  - unfold INT_MAX. cbn. lia.
  - unfold INT_MAX. lia.
  - repeat constructor.
  - repeat constructor; unfold INT_MAX; cbn; lia.
  - vm_compute. reflexivity.
Defined.

Lemma truncated_file_is_not_detected_witness :
  loadDatabase (Some (firstn 40 (database_bytes 7 2 two_titles)))
  = Undefined.
Proof.
  apply (truncated_file_is_not_detected (LL := binary64_layout_laws)
           two_titles 7 2).
  - discriminate.
  - unfold INT_MAX. cbn. lia.
  - unfold INT_MAX. lia.
  - repeat constructor.
  - repeat constructor; unfold INT_MAX; cbn; lia.
  - vm_compute. reflexivity.
  - vm_compute. lia.
Defined.

Lemma loadDatabase_without_items_witness :
  loadDatabase (Some (int_bytes 7 ++ int_bytes (-3) ++ ["?"%char]))
  = Returns [].
Proof.
  apply (loadDatabase_without_items 7 (-3) ["?"%char]). lia.
Defined.

(** What the sample file looks like, and what comes back from it. *)
Lemma two_titles_on_file :
  List.length (database_bytes 7 2 two_titles) = 67%nat
  /\ firstn 19 (database_bytes 7 2 two_titles)
     = map ascii_of_nat
         [7; 0; 0; 0; 2; 0; 0; 0; 2; 0; 0; 0; 3; 0; 0; 0; 65; 100; 97]%nat
  /\ loadDatabase (Some (database_bytes 7 2 two_titles))
     = Returns two_titles.
Proof. vm_compute. repeat split. Qed.

End FilesOnBinary64.

(** * Dimension of the embeddings *)

Section EmbeddingDimension.
Context {D : Double} {Dv : Division D} {Sm : Sampler D}
        {SmL : SamplerLaws D Sm}.

Lemma size_scale_down :
  forall (v : Point) (s : double), size (scale_down v s) = size v.
Proof. intros v s. unfold scale_down, size. rewrite length_map. reflexivity. Qed.

Lemma size_normalize : forall v : Point, size (normalize v) = size v.
Proof.
  intros v. unfold normalize. cbv zeta.
  destruct (d_ltb _ _); [apply size_scale_down|reflexivity].
Qed.

Lemma getTokenEmbedding_size :
  forall (dim : Z) (token : string),
    0 <= dim ->
    exists v, getTokenEmbedding dim token = Returns v /\ size v = dim.
Proof.
  intros dim token Hd. unfold getTokenEmbedding, Zero.
  destruct (Z.ltb_spec dim 0); [lia|]. cbn [bind].
  eexists. split; [reflexivity|].
  rewrite size_normalize. unfold size.
  rewrite normal_samples_length. lia.
Qed.

Lemma size_vec_add :
  forall a b : Point,
    size a = size b ->
    exists v, vec_add a b = Returns v /\ size v = size a.
Proof.
  intros a b H. unfold vec_add. rewrite H, Z.eqb_refl.
  eexists. split; [reflexivity|].
  unfold size in *. rewrite length_map, length_combine. lia.
Qed.

Lemma sum_tokens_size :
  forall (dim : Z) (tokens : list string) (result : Point),
    0 <= dim -> size result = dim ->
    exists v, sum_tokens dim tokens result = Returns v /\ size v = dim.
Proof.
  intros dim tokens. induction tokens as [|t r IH]; intros result Hd Hr.
  - exists result. split; [reflexivity|exact Hr].
  - cbn [sum_tokens].
    destruct (getTokenEmbedding_size dim t Hd) as (v & -> & Hv).
    cbn [bind].
    destruct (size_vec_add result v ltac:(lia)) as (w & -> & Hw).
    cbn [bind]. apply IH; [exact Hd|lia].
Qed.

(** X25: for a dimension that is not negative, [getEmbedding] returns for
    every text, tokens or none, and the vector it returns has exactly
    [getDimension] coordinates. *)
Theorem getEmbedding_has_the_dimension :
  forall (embedding_dim : Z) (text : string),
    0 <= embedding_dim ->
    exists v,
      getEmbedding embedding_dim text = Returns v
      /\ size v = getDimension embedding_dim.
Proof.
  intros dim text Hd. unfold getEmbedding, getDimension.
  destruct (tokenize_returns text) as (tokens & -> & _). cbn [bind].
  destruct tokens as [|t r].
  - apply getTokenEmbedding_size. exact Hd.
  - unfold Zero. destruct (Z.ltb_spec dim 0); [lia|]. cbn [bind].
    destruct (sum_tokens_size dim (t :: r) (repeat d_zero (Z.to_nat dim)) Hd)
      as (v & -> & Hv).
    { unfold size. rewrite repeat_length. lia. }
    cbn [bind]. cbv zeta.
    destruct (d_ltb _ _); eexists; (split; [reflexivity|]);
      rewrite ?size_scale_down; exact Hv.
Qed.

End EmbeddingDimension.

Section EmbeddingOnBinary64.
#[local] Existing Instance binary64.
#[local] Existing Instance binary64_division.
#[local] Existing Instance ramp_sampler.

Lemma ramp_sampler_laws : SamplerLaws binary64 ramp_sampler.
Proof.
  split. intros s n. cbn [normal_samples ramp_sampler].
  rewrite length_map, length_seq. reflexivity.
Qed.

Lemma getEmbedding_has_the_dimension_witness :
  exists v,
    getEmbedding 4 "Hello, World" = Returns v /\ size v = getDimension 4.
Proof.
  apply (getEmbedding_has_the_dimension (SmL := ramp_sampler_laws)
           4 "Hello, World").
  lia.
Defined.

End EmbeddingOnBinary64.

Section HeaderField.
Context {D : Double} {L : DoubleLayout D}.

(** X26: [loadDatabase] reads the first four bytes of the file, where
    [saveDatabase] writes [processed_lines], and never uses them: two files
    that differ in these bytes only load alike. *)
Theorem loadDatabase_ignores_processed_lines :
  forall h1 h2 rest : file,
    size h1 = 4 -> size h2 = 4 ->
    loadDatabase (Some (h1 ++ rest)) = loadDatabase (Some (h2 ++ rest)).
Proof.
  intros h1 h2 rest H1 H2. unfold loadDatabase.
  assert (Hread : forall h : file, size h = 4 ->
            read_int {| unread := h ++ rest; failed := false |}
            = (Some (int_of_bytes h), {| unread := rest; failed := false |})).
  { intros h Hh. unfold read_int. rewrite stream_read_exact by exact Hh.
    reflexivity. }
  rewrite (Hread h1 H1), (Hread h2 H2). reflexivity.
Qed.

End HeaderField.

Section HeaderFieldOnBinary64.
#[local] Existing Instance binary64.
#[local] Existing Instance binary64_layout.

Lemma loadDatabase_ignores_processed_lines_witness :
  loadDatabase (Some (int_bytes 7 ++ skipn 4 (database_bytes 7 2 two_titles)))
  = loadDatabase
      (Some (int_bytes 1000 ++ skipn 4 (database_bytes 7 2 two_titles))).
Proof.
  apply (loadDatabase_ignores_processed_lines (int_bytes 7) (int_bytes 1000)).
  - reflexivity.
  - reflexivity.
Defined.

End HeaderFieldOnBinary64.

(** * One nearest neighbour, asked for in two ways *)

Section OneNearest.
Context {D : Double} {L : DoubleLaws D} {Srt : StdSort} {SL : SortLaws Srt}.





End OneNearest.

Section OneNearestOnBinary64.
#[local] Existing Instance binary64.
#[local] Existing Instance isort.


(** With a leaf size of 2 the tree keeps three of the five points; both
    searches find the point at 2, at distance 0.25. *)
Lemma one_nearest_on_five_floats :
  (t <- KDTree_new five_floats 2 ;; nearest t [2.25%float])
  = Returns (0.25%float, "c")
  /\ (t <- KDTree_new five_floats 2 ;; kNearest t [2.25%float] 1)
     = Returns [(0.25%float, "c")].
Proof. vm_compute. split; reflexivity. Qed.

End OneNearestOnBinary64.
